(** * Harris corner response and non-maxima suppression
    (torchgeometry/feature/harris.py)

    Shallow embedding of [NonMaximaSuppression2d], [CornerHarris] and the
    functional entry points [corner_harris] / [non_maxima_suppression2d].

    Modelling conventions.
    - A tensor is a shape together with its row-major storage, as in torch;
      entries are read through the row-major offset of a multi-index.
    - The code is embedded twice, with the same structure and two kinds of
      entries.  What depends only on shapes, exceptions, comparisons and the
      mask is stated over exact rationals [Qc]: finite values, with rounding
      and overflow of the machine format outside that model; values that
      need not be finite (a pooled value, which may come from padding; a
      quotient, whose divisor may be zero) live in [float], which adds the
      two infinities and NaN.  What depends on the machine arithmetic (the
      clamp, the final division, overflow of the score) is stated over the
      module [F32], where the entries are IEEE 754 binary32 numbers, the
      default dtype of torch, and every operation is the one of the
      standard library's [SpecFloat]: it rounds to nearest even, overflows
      to an infinity and propagates NaN.
    - Python exceptions are the error half of [result]; [assert] raises
      [AssertionError], the library operations raise [RuntimeError].
    - The library operations are modelled as documented by torch:
      elementwise operations broadcast their operands (shapes aligned on
      the last axis, an axis of extent 1 is stretched, any other mismatch
      raises); [MaxPool2d] with stride 1 returns [n + 2 * padding - k + 1]
      positions along an axis of extent [n] and treats positions outside
      the map as minus infinity; [adaptive_max_pool2d] with output size 1
      returns the maximum of each slice; both pooling kernels let a NaN
      win; [clamp] leaves a NaN in place.
    - [spatial_gradient] and [gaussian_blur] are imported by the module from
      [torchgeometry.image]; they are parameters of [CornerHarris.forward],
      and the statements that need them to return assume only the shapes of
      what they return. *)

From Stdlib Require Import List Arith ZArith Lia Bool.
From Stdlib Require Import QArith Qcanon.
From Stdlib Require Import Floats.SpecFloat.
Import ListNotations.

Close Scope Qc_scope.
Close Scope Q_scope.
Open Scope nat_scope.

Set Implicit Arguments.

(** * The program *)

(** ** Exceptions and the error monad *)
Inductive exn : Type :=
| AssertionError
| TypeError
| ValueError
| IndexError
| RuntimeError.

Inductive result (A : Type) : Type :=
| Ok (a : A)
| Raise (e : exn).

Arguments Ok {A} a.
Arguments Raise {A} e.

Definition bind {A B : Type} (m : result A) (k : A -> result B) : result B :=
  match m with
  | Ok a => k a
  | Raise e => Raise e
  end.

Notation "x <- m ;; k" := (bind m (fun x => k))
  (at level 61, m at next level, right associativity).

(** [assert c] of Python. *)
Definition py_assert (c : bool) : result unit :=
  if c then Ok tt else Raise AssertionError.

(** ** Scalars *)
(** Values of a floating tensor that need not be finite. Signed zeros and
    rounding are not represented. *)
Inductive float : Type :=
| Fin (q : Qc)
| PInf
| NInf
| NaN.

Definition qleb (p q : Qc) : bool :=
  match (p ?= q)%Qc with Gt => false | _ => true end.

Definition qltb (p q : Qc) : bool :=
  match (p ?= q)%Qc with Lt => true | _ => false end.

Definition qmax (p q : Qc) : Qc := if qleb p q then q else p.

(** Maximum as computed by the pooling kernels: a NaN wins, otherwise the
    usual order of the extended line. *)
Definition fmax (a b : float) : float :=
  match a, b with
  | NaN, _ | _, NaN => NaN
  | PInf, _ | _, PInf => PInf
  | NInf, v | v, NInf => v
  | Fin p, Fin q => Fin (qmax p q)
  end.

(** [a == b] on floats. *)
Definition feqb (a b : float) : bool :=
  match a, b with
  | Fin p, Fin q => Qc_eq_bool p q
  | PInf, PInf | NInf, NInf => true
  | _, _ => false
  end.

(** [a < b] on floats. *)
Definition fltb (a b : float) : bool :=
  match a, b with
  | NaN, _ | _, NaN => false
  | Fin p, Fin q => qltb p q
  | _, NInf | PInf, _ => false
  | _, PInf | NInf, Fin _ => true
  end.

(** [a / b] on floats: a zero divisor yields an infinity or NaN. *)
Definition fdiv (a b : float) : float :=
  match a, b with
  | NaN, _ | _, NaN => NaN
  | Fin n, Fin d =>
      if Qc_eq_bool d 0%Qc then
        if Qc_eq_bool n 0%Qc then NaN else if qltb 0%Qc n then PInf else NInf
      else Fin (n / d)%Qc
  | Fin _, _ => Fin 0%Qc
  | PInf, Fin d => if qleb 0%Qc d then PInf else NInf
  | NInf, Fin d => if qleb 0%Qc d then NInf else PInf
  | _, _ => NaN
  end.

(** ** Tensors *)
Module Tensor.

Record tensor (A : Type) : Type := mk { shape : list nat; data : list A }.

Arguments mk {A} shape data.
Arguments shape {A} t.
Arguments data {A} t.

Definition numel (s : list nat) : nat := fold_right Nat.mul 1 s.

(** The storage has one entry per index. *)
Definition wf {A : Type} (t : tensor A) : Prop :=
  length (data t) = numel (shape t).

(** Row-major position of a multi-index. *)
Fixpoint offset (s idx : list nat) : nat :=
  match s, idx with
  | _ :: s', i :: idx' => i * numel s' + offset s' idx'
  | _, _ => 0
  end.

(** All multi-indices of a shape, in storage order. *)
Fixpoint indices (s : list nat) : list (list nat) :=
  match s with
  | [] => [[]]
  | d :: s' => flat_map (fun i => map (cons i) (indices s')) (seq 0 d)
  end.

Fixpoint in_range (s idx : list nat) : Prop :=
  match s, idx with
  | [], [] => True
  | d :: s', i :: idx' => i < d /\ in_range s' idx'
  | _, _ => False
  end.

Definition tabulate {A : Type} (s : list nat) (f : list nat -> A) : tensor A :=
  mk s (map f (indices s)).

Definition get {A : Type} (d : A) (t : tensor A) (idx : list nat) : A :=
  nth (offset (shape t) idx) (data t) d.

Definition map {A B : Type} (f : A -> B) (t : tensor A) : tensor B :=
  mk (shape t) (List.map f (data t)).

(** *** Broadcasting *)
Definition bdim (d1 d2 : nat) : option nat :=
  if d1 =? d2 then Some d1
  else if d1 =? 1 then Some d2
  else if d2 =? 1 then Some d1
  else None.

Fixpoint broadcast_aligned (s1 s2 : list nat) : option (list nat) :=
  match s1, s2 with
  | [], [] => Some []
  | d1 :: r1, d2 :: r2 =>
      match bdim d1 d2, broadcast_aligned r1 r2 with
      | Some d, Some r => Some (d :: r)
      | _, _ => None
      end
  | _, _ => None
  end.

(** Shapes are aligned on their last axis; missing leading axes count as 1. *)
Definition lpad (n : nat) (s : list nat) : list nat :=
  repeat 1 (n - length s) ++ s.

Definition broadcast_shapes (s1 s2 : list nat) : option (list nat) :=
  let n := Nat.max (length s1) (length s2) in
  broadcast_aligned (lpad n s1) (lpad n s2).

(** Index into an operand of shape [s] for the index [idx] of the result:
    an axis of extent 1 is read at 0. *)
Definition bindex (s idx : list nat) : list nat :=
  List.map (fun di => if fst di =? 1 then 0 else snd di)
           (combine s (skipn (length idx - length s) idx)).

Definition broadcast2 {A B C : Type} (da : A) (db : B) (f : A -> B -> C)
    (x : tensor A) (y : tensor B) : result (tensor C) :=
  match broadcast_shapes (shape x) (shape y) with
  | Some s =>
      Ok (tabulate s (fun idx =>
            f (get da x (bindex (shape x) idx))
              (get db y (bindex (shape y) idx))))
  | None => Raise RuntimeError
  end.

End Tensor.

Import Tensor.

(** ** The torch operations the module calls *)
Module Torch.

(** Elementwise arithmetic with broadcasting. *)
Definition mul (x y : tensor Qc) : result (tensor Qc) :=
  broadcast2 0%Qc 0%Qc Qcmult x y.

Definition add (x y : tensor Qc) : result (tensor Qc) :=
  broadcast2 0%Qc 0%Qc Qcplus x y.

Definition sub (x y : tensor Qc) : result (tensor Qc) :=
  broadcast2 0%Qc 0%Qc Qcminus x y.

(** [x / y] where the divisor comes out of a pooling. *)
Definition div (x : tensor Qc) (y : tensor float) : result (tensor float) :=
  broadcast2 0%Qc NaN (fun a m => fdiv (Fin a) m) x y.

(** [x == y] against a pooled map. *)
Definition eq (x : tensor Qc) (y : tensor float) : result (tensor bool) :=
  broadcast2 0%Qc NaN (fun a m => feqb (Fin a) m) x y.

(** [x ** n] *)
Definition pow (x : tensor Qc) (n : nat) : tensor Qc :=
  Tensor.map (fun v => (v ^ n)%Qc) x.

(** [k * x] for a scalar [k]. *)
Definition scale (k : Qc) (x : tensor Qc) : tensor Qc :=
  Tensor.map (fun v => (k * v)%Qc) x.

Definition clamp_min1 (m v : Qc) : Qc := if qltb v m then m else v.

(** [torch.clamp(x, min=m)] *)
Definition clamp_min (x : tensor Qc) (m : Qc) : tensor Qc :=
  Tensor.map (clamp_min1 m) x.

Definition ones_like (x : tensor Qc) : tensor Qc :=
  tabulate (shape x) (fun _ => 1%Qc).

Definition zeros_like (x : tensor Qc) : tensor Qc :=
  tabulate (shape x) (fun _ => 0%Qc).

(** [torch.where(c, a, b)]: the three operands are broadcast together. *)
Definition where_ (c : tensor bool) (a b : tensor Qc) : result (tensor Qc) :=
  ab <- broadcast2 0%Qc 0%Qc pair a b ;;
  broadcast2 false (0%Qc, 0%Qc)
    (fun (ci : bool) (v : Qc * Qc) => if ci then fst v else snd v) c ab.

(** [t[:, :, i]] *)
Definition select2 (t : tensor Qc) (i : nat) : result (tensor Qc) :=
  match shape t with
  | d0 :: d1 :: d2 :: rest =>
      if i <? d2 then
        Ok (tabulate (d0 :: d1 :: rest) (fun idx =>
              match idx with
              | b :: c :: r => get 0%Qc t (b :: c :: i :: r)
              | _ => 0%Qc
              end))
      else Raise IndexError
  | _ => Raise IndexError
  end.

Definition zrange (n : Z) : list Z := List.map Z.of_nat (seq 0 (Z.to_nat n)).

(** Entry of a 4-d map at a possibly out-of-bounds row and column: the
    pooling treats every position outside the map as minus infinity. *)
Definition padded (x : tensor Qc) (b c : nat) (r s : Z) : float :=
  match shape x with
  | [_; _; H; W] =>
      if ((0 <=? r) && (r <? Z.of_nat H) && (0 <=? s) && (s <? Z.of_nat W))%Z
      then Fin (get 0%Qc x [b; c; Z.to_nat r; Z.to_nat s])
      else NInf
  | _ => NInf
  end.

(** The cells under the window of output position [(i, j)]. *)
Definition window (ks pd : Z * Z) (x : tensor Qc) (b c i j : nat)
  : list float :=
  flat_map (fun di =>
    List.map (fun dj =>
      padded x b c (Z.of_nat i + di - fst pd)%Z (Z.of_nat j + dj - snd pd)%Z)
      (zrange (snd ks)))
    (zrange (fst ks)).

Definition window_max (ks pd : Z * Z) (x : tensor Qc) (b c i j : nat)
  : float :=
  fold_right fmax NInf (window ks pd x b c i j).

(** Extent of a pooled axis for stride 1 and dilation 1. *)
Definition pool_out (n : nat) (k p : Z) : Z :=
  (Z.of_nat n + 2 * p - (k - 1) - 1 + 1)%Z.

(** [nn.MaxPool2d(kernel_size, stride=1, padding)] applied to a 4-d map.
    The shape checks are those of the library: positive kernel, padding at
    most half the kernel, non-empty input, output extent at least one. *)
Definition max_pool2d (ks pd : Z * Z) (x : tensor Qc)
  : result (tensor float) :=
  match shape x with
  | [B; C; H; W] =>
      let oH := pool_out H (fst ks) (fst pd) in
      let oW := pool_out W (snd ks) (snd pd) in
      if negb ((0 <? fst ks) && (0 <? snd ks))%Z then Raise RuntimeError
      else if negb ((0 <=? fst pd) && (0 <=? snd pd)
                    && (fst pd <=? fst ks / 2) && (snd pd <=? snd ks / 2))%Z
      then Raise RuntimeError
      else if numel (shape x) =? 0 then Raise RuntimeError
      else if negb ((1 <=? oH) && (1 <=? oW))%Z then Raise RuntimeError
      else
        Ok (tabulate [B; C; Z.to_nat oH; Z.to_nat oW] (fun idx =>
              match idx with
              | [b; c; i; j] => window_max ks pd x b c i j
              | _ => NaN
              end))
  | _ => Raise RuntimeError
  end.

(** All entries of the slice [[b, c, :, :]]. *)
Definition slice_values (x : tensor Qc) (b c : nat) : list float :=
  match shape x with
  | [_; _; H; W] =>
      flat_map (fun i =>
        List.map (fun j => Fin (get 0%Qc x [b; c; i; j])) (seq 0 W))
        (seq 0 H)
  | _ => []
  end.

Definition slice_max (x : tensor Qc) (b c : nat) : float :=
  fold_right fmax NInf (slice_values x b c).

(** [F.adaptive_max_pool2d(x, output_size=1)] on a 4-d map. *)
Definition adaptive_max_pool2d (x : tensor Qc) : result (tensor float) :=
  match shape x with
  | [B; C; H; W] =>
      if numel (shape x) =? 0 then Raise RuntimeError
      else
        Ok (tabulate [B; C; 1; 1] (fun idx =>
              match idx with
              | b :: c :: _ => slice_max x b c
              | _ => NaN
              end))
  | _ => Raise RuntimeError
  end.

End Torch.

(** ** Python values at the entry points *)
(** What a caller may pass as [input]. *)
Inductive pyobj : Type :=
| PyTensor (t : tensor Qc)
| PyFloat (v : Qc)
| PyList (l : list Qc)
| PyNone.

Definition is_tensor (o : pyobj) : bool :=
  match o with PyTensor _ => true | _ => false end.

(** What a caller may pass as [kernel_size]. *)
Inductive kernel_arg : Type :=
| KTuple (l : list Z)
| KList (l : list Z)
| KInt (k : Z).

Definition is_tuple (ka : kernel_arg) : bool :=
  match ka with KTuple _ => true | _ => false end.

Definition py_len (ka : kernel_arg) : nat :=
  match ka with KTuple l | KList l => length l | KInt _ => 0 end.

(** ** NonMaximaSuppression2d *)
Module NonMaximaSuppression2d.

(** The module state: [kernel_size] and [padding]; [max_pool2d] is the
    pooling with these two and stride 1. *)
Record t : Type := mk { kernel_size : Z * Z; padding : Z * Z }.

Definition pad (x : Z) : Z := ((x - 1) / 2)%Z.

Definition _compute_zero_padding2d (ka : kernel_arg) : result (Z * Z) :=
  _ <- py_assert (is_tuple ka) ;;
  _ <- py_assert (py_len ka =? 2) ;;
  match ka with
  | KTuple [ky; kx] => Ok (pad ky, pad kx)
  | _ => Raise ValueError
  end.

Definition init (ka : kernel_arg) : result t :=
  p <- _compute_zero_padding2d ka ;;
  match ka with
  | KTuple [ky; kx] => Ok (mk (ky, kx) p)
  | _ => Raise ValueError
  end.

Definition max_pool2d (self : t) (x : tensor Qc) : result (tensor float) :=
  Torch.max_pool2d (kernel_size self) (padding self) x.

Definition forward (self : t) (x : tensor Qc) : result (tensor Qc) :=
  _ <- py_assert (length (shape x) =? 4) ;;
  x_max <- max_pool2d self x ;;
  c <- Torch.eq x x_max ;;
  x_mask <- Torch.where_ c (Torch.ones_like x) (Torch.zeros_like x) ;;
  Torch.mul x x_mask.

End NonMaximaSuppression2d.

(** [non_maxima_suppression2d(input, kernel_size)] *)
Definition non_maxima_suppression2d (input : tensor Qc) (ka : kernel_arg)
  : result (tensor Qc) :=
  m <- NonMaximaSuppression2d.init ka ;;
  NonMaximaSuppression2d.forward m input.

(** ** CornerHarris *)
Definition floor_1e_6 : Qc := Q2Qc (1 # 1000000).

Module CornerHarris.

Record t : Type := mk { k : Qc; kernel_size : Z * Z }.

Definition init (k : Qc) : t := mk k (3, 3)%Z.

Section Forward.

(** The two operations imported from [torchgeometry.image]. *)
Variable spatial_gradient : tensor Qc -> result (tensor Qc).
Variable gaussian_blur :
  tensor Qc -> Z * Z -> Qc * Qc -> result (tensor Qc).

Definition g (x : tensor Qc) : result (tensor Qc) :=
  gaussian_blur x (3, 3)%Z (1, 1)%Qc.

(** Lines "compute the first order gradients" to "compute the structure
    tensor M elements": the three smoothed products. *)
Definition structure_tensor (input : tensor Qc)
  : result (tensor Qc * tensor Qc * tensor Qc) :=
  gradients <- spatial_gradient input ;;
  dx <- Torch.select2 gradients 0 ;;
  dy <- Torch.select2 gradients 1 ;;
  dxdx <- Torch.mul dx dx ;;
  dx2 <- g dxdx ;;
  dydy <- Torch.mul dy dy ;;
  dy2 <- g dydy ;;
  dxdy <- Torch.mul dx dy ;;
  dxy <- g dxdy ;;
  Ok (dx2, dy2, dxy).

(** "compute the response map": the score before thresholding. *)
Definition response (self : t) (input : tensor Qc) : result (tensor Qc) :=
  m <- structure_tensor input ;;
  let '(dx2, dy2, dxy) := m in
  a <- Torch.mul dx2 dy2 ;;
  b <- Torch.mul dxy dxy ;;
  det_m <- Torch.sub a b ;;
  trace_m <- Torch.add dx2 dy2 ;;
  Torch.sub det_m (Torch.scale (k self) (Torch.pow trace_m 2)).

(** "threshold" *)
Definition threshold (scores : tensor Qc) : tensor Qc :=
  Torch.clamp_min scores floor_1e_6.

(** "apply non maxima suppresion" *)
Definition suppress (scores : tensor Qc) : result (tensor Qc) :=
  nms <- NonMaximaSuppression2d.init (KTuple [3; 3]%Z) ;;
  NonMaximaSuppression2d.forward nms scores.

(** "normalize and return" *)
Definition normalize (scores : tensor Qc) : result (tensor float) :=
  scores_max <- Torch.adaptive_max_pool2d scores ;;
  Torch.div scores scores_max.

Definition forward (self : t) (input : pyobj) : result (tensor float) :=
  match input with
  | PyTensor x =>
      if negb (length (shape x) =? 4) then Raise ValueError
      else
        scores <- response self x ;;
        scores <- suppress (threshold scores) ;;
        normalize scores
  | _ => Raise TypeError
  end.

End Forward.

End CornerHarris.

(** [corner_harris(input, k)] *)
Definition corner_harris
    (spatial_gradient : tensor Qc -> result (tensor Qc))
    (gaussian_blur : tensor Qc -> Z * Z -> Qc * Qc -> result (tensor Qc))
    (input : pyobj) (k : Qc) : result (tensor float) :=
  CornerHarris.forward spatial_gradient gaussian_blur (CornerHarris.init k)
    input.

(** * Vocabulary of the statements *)

(** ** Windows *)

(** A cell of a pooling window: an entry of the map or padding. *)
Definition fin_or_ninf (v : float) : Prop :=
  match v with Fin _ | NInf => True | _ => False end.

(** Row (or column) [r] of a map of extent [n] lies under the window of
    size [k] and padding [p] placed at pooled position [o]. *)
Definition covers (n : nat) (k p : Z) (o r : nat) : Prop :=
  r < n /\ (Z.of_nat o - p <= Z.of_nat r <= Z.of_nat o - p + k - 1)%Z.

(** Position read along an operand axis of extent [d] when broadcasting. *)
Definition bpos (d i : nat) : nat := if d =? 1 then 0 else i.

(** Extent of the pooled map along an axis of extent [n]. *)
Definition pooled_extent (n : nat) (k : Z) : nat :=
  Z.to_nat (Torch.pool_out n k (NonMaximaSuppression2d.pad k)).

(** Pooled position against which entry [i] is compared. *)
Definition anchor (n : nat) (k : Z) (i : nat) : nat :=
  bpos (pooled_extent n k) i.

(** The rows (columns) entry [i] is compared with. *)
Definition window_of (n : nat) (k : Z) (i r : nat) : Prop :=
  covers n k (NonMaximaSuppression2d.pad k) (anchor n k i) r.

(** ** Normal form of the suppressor *)

(** The value the comparison [x == x_max] sees next to entry [(i, j)]. *)
Definition local_max (ky kx : Z) (x : tensor Qc) (b c i j : nat) : float :=
  match shape x with
  | [_; _; H; W] =>
      Torch.window_max (ky, kx)
        (NonMaximaSuppression2d.pad ky, NonMaximaSuppression2d.pad kx)
        x b c (anchor H ky i) (anchor W kx j)
  | _ => NaN
  end.

(** [x * x_mask] at one entry. *)
Definition keep (v : Qc) (m : float) : Qc :=
  (v * (if feqb (Fin v) m then 1 else 0))%Qc.

(** What the suppressor returns when it returns. *)
Definition nms_map (ky kx : Z) (x : tensor Qc) : tensor Qc :=
  tabulate (shape x) (fun idx =>
    match idx with
    | [b; c; i; j] => keep (get 0%Qc x idx) (local_max ky kx x b c i j)
    | _ => 0%Qc
    end).

(** The axis passes the pooling checks and the pooled axis can be compared
    with the input axis. *)
Definition fits (n : nat) (k : Z) : bool :=
  (0 <? k)%Z
  && (1 <=? Torch.pool_out n k (NonMaximaSuppression2d.pad k))%Z
  && ((pooled_extent n k =? n) || (pooled_extent n k =? 1)).

(** The suppressor returns on a map of shape [s]. *)
Definition nms_ok (ky kx : Z) (s : list nat) : bool :=
  match s with
  | [_; _; H; W] => negb (numel s =? 0) && fits H ky && fits W kx
  | _ => false
  end.

(** No entry of the map is negative. *)
Definition nonneg (x : tensor Qc) : Prop :=
  forall idx, in_range (shape x) idx -> (0 <= get 0%Qc x idx)%Qc.

(** ** The scorer *)

(** What the module relies on from [torchgeometry.image]: on a non-empty
    4-d map, [spatial_gradient] returns the two derivatives stacked on a new
    third axis, and [gaussian_blur] returns a map of the same shape. *)
Definition gradient_contract
    (spatial_gradient : tensor Qc -> result (tensor Qc)) : Prop :=
  forall (x : tensor Qc) (B C H W : nat),
    shape x = [B; C; H; W] -> wf x -> numel (shape x) <> 0 ->
    exists g, spatial_gradient x = Ok g /\ shape g = [B; C; 2; H; W].

Definition blur_contract
    (gaussian_blur : tensor Qc -> Z * Z -> Qc * Qc -> result (tensor Qc))
  : Prop :=
  forall (x : tensor Qc) (B C H W : nat),
    shape x = [B; C; H; W] -> wf x -> numel (shape x) <> 0 ->
    exists y, gaussian_blur x (3, 3)%Z (1, 1)%Qc = Ok y
              /\ shape y = [B; C; H; W].

(** [g[:, :, u]] of a stacked gradient. *)
Definition selected (g : tensor Qc) (u : nat) : tensor Qc :=
  match shape g with
  | [B; C; _; H; W] =>
      tabulate [B; C; H; W] (fun idx =>
        match idx with
        | [b; c; i; j] => get 0%Qc g [b; c; u; i; j]
        | _ => 0%Qc
        end)
  | _ => g
  end.

(** The entrywise product of the derivatives [u] and [v] (0 is the
    derivative along x, 1 the one along y) of a stacked gradient. *)
Definition grad_product (g : tensor Qc) (u v : nat) : tensor Qc :=
  match shape g with
  | [B; C; _; H; W] =>
      tabulate [B; C; H; W] (fun idx =>
        match idx with
        | [b; c; i; j] =>
            (get 0 g [b; c; u; i; j] * get 0 g [b; c; v; i; j])%Qc
        | _ => 0%Qc
        end)
  | _ => g
  end.

(** [det - k * trace^2] of the matrix [[sxx, sxy], [sxy, syy]]. *)
Definition harris_score (k sxx syy sxy : Qc) : Qc :=
  ((sxx * syy - sxy * sxy) - k * (sxx + syy) ^ 2)%Qc.

(** ** An instance of the two imported operations *)

Module Image.

(** Nearest in-bounds position along an axis of extent [n]. *)
Definition near (n : nat) (z : Z) : nat :=
  Z.to_nat (Z.max 0 (Z.min (Z.of_nat n - 1) z)).

Definition offsets : list Z := [-1; 0; 1]%Z.

(** Correlation of a 4-d map with a 3x3 kernel [w], borders replicated. *)
Definition conv3 (w : Z -> Z -> Qc) (x : tensor Qc) (b c i j : nat) : Qc :=
  match shape x with
  | [_; _; H; W] =>
      fold_right Qcplus 0%Qc
        (flat_map (fun dr =>
           List.map (fun dc =>
             (w dr dc * get 0 x [b; c; near H (Z.of_nat i + dr);
                                       near W (Z.of_nat j + dc)])%Qc)
             offsets)
           offsets)
  | _ => 0%Qc
  end.

Definition sobel_x (dr dc : Z) : Qc := Q2Qc ((dc * (2 - Z.abs dr)) # 1).

Definition sobel_y (dr dc : Z) : Qc := sobel_x dc dr.

(** Modelled from the spec: [spatial_gradient] of [torchgeometry.image] is
    not among the sources.  This instance is the fixed 3x3 Sobel operator
    applied per channel with same-size output, the two derivatives stacked
    on a new third axis. *)
Definition spatial_gradient (x : tensor Qc) : result (tensor Qc) :=
  match shape x with
  | [B; C; H; W] =>
      Ok (tabulate [B; C; 2; H; W] (fun idx =>
            match idx with
            | [b; c; d; i; j] =>
                conv3 (if d =? 0 then sobel_x else sobel_y) x b c i j
            | _ => 0%Qc
            end))
  | _ => Raise RuntimeError
  end.

(** Weights of the normalised 3x3 Gaussian of standard deviation 1, to
    seven decimals. *)
Definition gauss3 (dr dc : Z) : Qc :=
  Q2Qc (match (Z.abs dr + Z.abs dc)%Z with
        | 0%Z => 2041800
        | 1%Z => 1238414
        | _ => 751136
        end # 10000000).

(** Modelled from the spec: [gaussian_blur] of [torchgeometry.image] is not
    among the sources.  This instance smooths with the 3x3 Gaussian weights
    above, same-size output. *)
Definition gaussian_blur (x : tensor Qc) (kernel_size : Z * Z)
    (sigma : Qc * Qc) : result (tensor Qc) :=
  match shape x with
  | [B; C; H; W] =>
      Ok (tabulate [B; C; H; W] (fun idx =>
            match idx with
            | [b; c; i; j] => conv3 gauss3 x b c i j
            | _ => 0%Qc
            end))
  | _ => Raise RuntimeError
  end.

End Image.

(** ** Concrete inputs *)

Definition of_ints (s : list nat) (l : list Z) : tensor Qc :=
  Tensor.mk s (List.map (fun z => Q2Qc (z # 1)) l).

(** The input of the worked example in the class documentation. *)
Definition square7 : tensor Qc :=
  of_ints [1; 1; 7; 7]
    [0; 0; 0; 0; 0; 0; 0;
     0; 1; 1; 1; 1; 1; 0;
     0; 1; 1; 1; 1; 1; 0;
     0; 1; 1; 1; 1; 1; 0;
     0; 1; 1; 1; 1; 1; 0;
     0; 1; 1; 1; 1; 1; 0;
     0; 0; 0; 0; 0; 0; 0]%Z.

Definition square3 : tensor Qc :=
  of_ints [1; 1; 3; 3] [0; 0; 0;  0; 1; 1;  0; 1; 1]%Z.

Definition peaks : tensor Qc :=
  of_ints [1; 1; 3; 3] [1; 2; 3;  4; 5; 6;  7; 9; 9]%Z.

Definition flat3 : tensor Qc := tabulate [1; 1; 3; 3] (fun _ => 1%Qc).

Definition pair_row : tensor Qc := of_ints [1; 1; 1; 2] [1; 2]%Z.

Definition negative_row : tensor Qc := of_ints [1; 1; 1; 2] [-1; -2]%Z.

Definition negative_block : tensor Qc :=
  of_ints [1; 1; 2; 2] [-1; -2;  -3; -4]%Z.

Definition vector3 : tensor Qc := of_ints [3] [1; 2; 3]%Z.

Definition k004 : Qc := Q2Qc (4 # 100).

(** The shape and the fractions stored in a result. *)
Definition entries (r : result (tensor Qc)) : option (list nat * list Q) :=
  match r with
  | Ok t => Some (shape t, List.map this (data t))
  | Raise _ => None
  end.

(** The fractions stored in a result that may hold non-finite values. *)
Definition values (r : result (tensor float)) : option (list (option Q)) :=
  match r with
  | Ok t => Some (List.map (fun v => match v with
                                     | Fin q => Some (this q)
                                     | _ => None
                                     end) (data t))
  | Raise _ => None
  end.

(** ** Further vocabulary and inputs *)

(** The map of shape [s] all of whose entries are [v]. *)
Definition full (s : list nat) (v : Qc) : tensor Qc := tabulate s (fun _ => v).


(** A map with an empty row axis. *)
Definition empty_map : tensor Qc := of_ints [1; 1; 0; 3] [].

(** Two maps that agree on their first channel only. *)
Definition two_slices : tensor Qc := of_ints [1; 2; 1; 2] [1; 2;  3; 4]%Z.

Definition two_slices' : tensor Qc := of_ints [1; 2; 1; 2] [1; 2;  5; 0]%Z.

(** A flat image. *)
Definition zero3 : tensor Qc :=
  of_ints [1; 1; 3; 3] [0; 0; 0;  0; 0; 0;  0; 0; 0]%Z.

(** An imported operation that fails. *)
Definition failing_gradient (x : tensor Qc) : result (tensor Qc) :=
  Raise RuntimeError.

(** * The program in binary32 arithmetic *)

(** The same module with the entries of a tensor in IEEE 754 binary32, the
    default dtype of torch: every arithmetic operation rounds to nearest
    even, overflows to an infinity, and propagates NaN.  The operations are
    those of the standard library's [SpecFloat] at precision 24 and maximal
    exponent 128.  What does no arithmetic on entries (shapes, broadcasting,
    the constructor of the suppressor) is shared with the program above:
    inside [F32] the names [Torch.zrange], [Torch.pool_out],
    [NonMaximaSuppression2d.init], [Image.near] and [Image.offsets] are
    those definitions. *)
Module F32.

Definition prec : Z := 24.
Definition emax : Z := 128.

Definition zero : spec_float := S754_zero false.

(** [1.0] *)
Definition one : spec_float := S754_finite false 8388608 (-23).

Definition ninf : spec_float := S754_infinity true.

Definition is_nan (v : spec_float) : bool :=
  match v with S754_nan => true | _ => false end.

(** An integer as a binary32 number. *)
Definition of_Z (z : Z) : spec_float := binary_normalize prec emax z 0 false.

(** The binary32 number nearest to [n / d], for [n] and [d] below [2^24]. *)
Definition of_ratio (n d : Z) : spec_float :=
  SFdiv prec emax (of_Z n) (of_Z d).

(** ** The torch operations the module calls *)
Module Torch.

Definition mul (x y : tensor spec_float) : result (tensor spec_float) :=
  broadcast2 zero zero (SFmul prec emax) x y.

Definition add (x y : tensor spec_float) : result (tensor spec_float) :=
  broadcast2 zero zero (SFadd prec emax) x y.

Definition sub (x y : tensor spec_float) : result (tensor spec_float) :=
  broadcast2 zero zero (SFsub prec emax) x y.

Definition div (x y : tensor spec_float) : result (tensor spec_float) :=
  broadcast2 zero zero (SFdiv prec emax) x y.

(** [x == y]: false on a NaN, true on zeros of either sign. *)
Definition eq (x y : tensor spec_float) : result (tensor bool) :=
  broadcast2 zero zero SFeqb x y.

(** [x ** 2] *)
Definition pow2 (x : tensor spec_float) : tensor spec_float :=
  Tensor.map (fun v => SFmul prec emax v v) x.

(** [k * x] for a scalar [k]. *)
Definition scale (k : spec_float) (x : tensor spec_float)
  : tensor spec_float :=
  Tensor.map (fun v => SFmul prec emax k v) x.

(** A NaN is not below the bound and stays. *)
Definition clamp_min1 (m v : spec_float) : spec_float :=
  if SFltb v m then m else v.

(** [torch.clamp(x, min=m)] *)
Definition clamp_min (x : tensor spec_float) (m : spec_float)
  : tensor spec_float :=
  Tensor.map (clamp_min1 m) x.

Definition ones_like (x : tensor spec_float) : tensor spec_float :=
  tabulate (shape x) (fun _ => one).

Definition zeros_like (x : tensor spec_float) : tensor spec_float :=
  tabulate (shape x) (fun _ => zero).

(** [torch.where(c, a, b)] *)
Definition where_ (c : tensor bool) (a b : tensor spec_float)
  : result (tensor spec_float) :=
  ab <- broadcast2 zero zero pair a b ;;
  broadcast2 false (zero, zero)
    (fun (ci : bool) (v : spec_float * spec_float) =>
       if ci then fst v else snd v) c ab.

(** [t[:, :, i]] *)
Definition select2 (t : tensor spec_float) (i : nat)
  : result (tensor spec_float) :=
  match shape t with
  | d0 :: d1 :: d2 :: rest =>
      if i <? d2 then
        Ok (tabulate (d0 :: d1 :: rest) (fun idx =>
              match idx with
              | b :: c :: r => get zero t (b :: c :: i :: r)
              | _ => zero
              end))
      else Raise IndexError
  | _ => Raise IndexError
  end.

(** Entry of a 4-d map at a possibly out-of-bounds row and column. *)
Definition padded (x : tensor spec_float) (b c : nat) (r s : Z)
  : spec_float :=
  match shape x with
  | [_; _; H; W] =>
      if ((0 <=? r) && (r <? Z.of_nat H) && (0 <=? s) && (s <? Z.of_nat W))%Z
      then get zero x [b; c; Z.to_nat r; Z.to_nat s]
      else ninf
  | _ => ninf
  end.

(** The cells under the window of output position [(i, j)], row by row. *)
Definition window (ks pd : Z * Z) (x : tensor spec_float) (b c i j : nat)
  : list spec_float :=
  flat_map (fun di =>
    List.map (fun dj =>
      padded x b c (Z.of_nat i + di - fst pd)%Z (Z.of_nat j + dj - snd pd)%Z)
      (Torch.zrange (snd ks)))
    (Torch.zrange (fst ks)).

(** One step of the pooling kernels: the running maximum is replaced by a
    larger cell, and by a NaN. *)
Definition pool_step (maxval val : spec_float) : spec_float :=
  if SFltb maxval val || is_nan val then val else maxval.

Definition window_max (ks pd : Z * Z) (x : tensor spec_float)
    (b c i j : nat) : spec_float :=
  fold_left pool_step (window ks pd x b c i j) ninf.

(** [nn.MaxPool2d(kernel_size, stride=1, padding)] applied to a 4-d map. *)
Definition max_pool2d (ks pd : Z * Z) (x : tensor spec_float)
  : result (tensor spec_float) :=
  match shape x with
  | [B; C; H; W] =>
      let oH := Torch.pool_out H (fst ks) (fst pd) in
      let oW := Torch.pool_out W (snd ks) (snd pd) in
      if negb ((0 <? fst ks) && (0 <? snd ks))%Z then Raise RuntimeError
      else if negb ((0 <=? fst pd) && (0 <=? snd pd)
                    && (fst pd <=? fst ks / 2) && (snd pd <=? snd ks / 2))%Z
      then Raise RuntimeError
      else if numel (shape x) =? 0 then Raise RuntimeError
      else if negb ((1 <=? oH) && (1 <=? oW))%Z then Raise RuntimeError
      else
        Ok (tabulate [B; C; Z.to_nat oH; Z.to_nat oW] (fun idx =>
              match idx with
              | [b; c; i; j] => window_max ks pd x b c i j
              | _ => S754_nan
              end))
  | _ => Raise RuntimeError
  end.

(** All entries of the slice [[b, c, :, :]], row by row. *)
Definition slice_values (x : tensor spec_float) (b c : nat)
  : list spec_float :=
  match shape x with
  | [_; _; H; W] =>
      flat_map (fun i =>
        List.map (fun j => get zero x [b; c; i; j]) (seq 0 W))
        (seq 0 H)
  | _ => []
  end.

Definition slice_max (x : tensor spec_float) (b c : nat) : spec_float :=
  fold_left pool_step (slice_values x b c) ninf.

(** [F.adaptive_max_pool2d(x, output_size=1)] on a 4-d map. *)
Definition adaptive_max_pool2d (x : tensor spec_float)
  : result (tensor spec_float) :=
  match shape x with
  | [B; C; H; W] =>
      if numel (shape x) =? 0 then Raise RuntimeError
      else
        Ok (tabulate [B; C; 1; 1] (fun idx =>
              match idx with
              | b :: c :: _ => slice_max x b c
              | _ => S754_nan
              end))
  | _ => Raise RuntimeError
  end.

End Torch.

(** What a caller may pass as [input]. *)
Inductive pyobj : Type :=
| PyTensor (t : tensor spec_float)
| PyFloat (v : spec_float)
| PyNone.

(** ** NonMaximaSuppression2d *)
Module NonMaximaSuppression2d.

Definition max_pool2d (self : NonMaximaSuppression2d.t)
    (x : tensor spec_float) : result (tensor spec_float) :=
  Torch.max_pool2d (NonMaximaSuppression2d.kernel_size self)
    (NonMaximaSuppression2d.padding self) x.

Definition forward (self : NonMaximaSuppression2d.t)
    (x : tensor spec_float) : result (tensor spec_float) :=
  _ <- py_assert (length (shape x) =? 4) ;;
  x_max <- max_pool2d self x ;;
  c <- Torch.eq x x_max ;;
  x_mask <- Torch.where_ c (Torch.ones_like x) (Torch.zeros_like x) ;;
  Torch.mul x x_mask.

End NonMaximaSuppression2d.

(** [non_maxima_suppression2d(input, kernel_size)] *)
Definition non_maxima_suppression2d (input : tensor spec_float)
    (ka : kernel_arg) : result (tensor spec_float) :=
  m <- NonMaximaSuppression2d.init ka ;;
  NonMaximaSuppression2d.forward m input.

(** ** CornerHarris *)

(** The bound [1e-6] of the clamp as a binary32 number:
    [8796093 * 2^-43], just below one millionth. *)
Definition floor_1e_6 : spec_float := S754_finite false 8796093 (-43).

Module CornerHarris.

Record t : Type := mk { k : spec_float; kernel_size : Z * Z }.

Definition init (k : spec_float) : t := mk k (3, 3)%Z.

Section Forward.

Variable spatial_gradient : tensor spec_float -> result (tensor spec_float).
Variable gaussian_blur :
  tensor spec_float -> Z * Z -> spec_float * spec_float
  -> result (tensor spec_float).

Definition g (x : tensor spec_float) : result (tensor spec_float) :=
  gaussian_blur x (3, 3)%Z (one, one).

Definition structure_tensor (input : tensor spec_float)
  : result (tensor spec_float * tensor spec_float * tensor spec_float) :=
  gradients <- spatial_gradient input ;;
  dx <- Torch.select2 gradients 0 ;;
  dy <- Torch.select2 gradients 1 ;;
  dxdx <- Torch.mul dx dx ;;
  dx2 <- g dxdx ;;
  dydy <- Torch.mul dy dy ;;
  dy2 <- g dydy ;;
  dxdy <- Torch.mul dx dy ;;
  dxy <- g dxdy ;;
  Ok (dx2, dy2, dxy).

Definition response (self : t) (input : tensor spec_float)
  : result (tensor spec_float) :=
  m <- structure_tensor input ;;
  let '(dx2, dy2, dxy) := m in
  a <- Torch.mul dx2 dy2 ;;
  b <- Torch.mul dxy dxy ;;
  det_m <- Torch.sub a b ;;
  trace_m <- Torch.add dx2 dy2 ;;
  Torch.sub det_m (Torch.scale (k self) (Torch.pow2 trace_m)).

Definition threshold (scores : tensor spec_float) : tensor spec_float :=
  Torch.clamp_min scores floor_1e_6.

Definition suppress (scores : tensor spec_float)
  : result (tensor spec_float) :=
  nms <- NonMaximaSuppression2d.init (KTuple [3; 3]%Z) ;;
  NonMaximaSuppression2d.forward nms scores.

Definition normalize (scores : tensor spec_float)
  : result (tensor spec_float) :=
  scores_max <- Torch.adaptive_max_pool2d scores ;;
  Torch.div scores scores_max.

Definition forward (self : t) (input : pyobj)
  : result (tensor spec_float) :=
  match input with
  | PyTensor x =>
      if negb (length (shape x) =? 4) then Raise ValueError
      else
        scores <- response self x ;;
        scores <- suppress (threshold scores) ;;
        normalize scores
  | _ => Raise TypeError
  end.

End Forward.

End CornerHarris.

(** [corner_harris(input, k)] *)
Definition corner_harris
    (spatial_gradient : tensor spec_float -> result (tensor spec_float))
    (gaussian_blur : tensor spec_float -> Z * Z -> spec_float * spec_float
                     -> result (tensor spec_float))
    (input : pyobj) (k : spec_float) : result (tensor spec_float) :=
  CornerHarris.forward spatial_gradient gaussian_blur (CornerHarris.init k)
    input.

(** ** Vocabulary *)

(** Neither an infinity nor a NaN. *)
Definition is_finite (v : spec_float) : bool :=
  match v with
  | S754_zero _ | S754_finite _ _ _ => true
  | _ => false
  end.

(** A finite binary32 number: a zero, or a mantissa and an exponent of the
    format. *)
Definition finite32 (v : spec_float) : bool :=
  is_finite v && valid_binary prec emax v.

(** The sign bit of a number: set on negative numbers and on [-0.0]. *)
Definition sign_bit (v : spec_float) : bool :=
  match v with
  | S754_zero s | S754_infinity s | S754_finite s _ _ => s
  | S754_nan => false
  end.

(** [u <= v] and [u < v] as the comparison of the format decides them:
    both are false when an operand is a NaN. *)
Definition le (u v : spec_float) : Prop := SFleb u v = true.

Definition lt (u v : spec_float) : Prop := SFltb u v = true.

(** Position of a number in the order of the format: its class (negative
    infinity, negative, zero, positive, positive infinity), then its
    exponent, then its mantissa. *)
Definition key (v : spec_float) : Z * Z * Z :=
  match v with
  | S754_infinity true => (-2, 0, 0)
  | S754_finite true m e => (-1, - e, - Z.pos m)
  | S754_zero _ => (0, 0, 0)
  | S754_finite false m e => (1, e, Z.pos m)
  | S754_infinity false => (2, 0, 0)
  | S754_nan => (3, 0, 0)
  end%Z.

Definition lex3 (p q : Z * Z * Z) : comparison :=
  let '(a, b, c) := p in
  let '(a', b', c') := q in
  match (a ?= a')%Z with
  | Eq => match (b ?= b')%Z with Eq => (c ?= c')%Z | r => r end
  | r => r
  end.

Definition kle (p q : Z * Z * Z) : Prop :=
  let '(a, b, c) := p in
  let '(a', b', c') := q in
  (a < a' \/ a = a' /\ (b < b' \/ b = b' /\ c <= c'))%Z.

Definition klt (p q : Z * Z * Z) : Prop :=
  let '(a, b, c) := p in
  let '(a', b', c') := q in
  (a < a' \/ a = a' /\ (b < b' \/ b = b' /\ c < c'))%Z.

(** The value the comparison [x == x_max] sees next to entry [(i, j)]. *)
Definition local_max (ky kx : Z) (x : tensor spec_float) (b c i j : nat)
  : spec_float :=
  match shape x with
  | [_; _; H; W] =>
      Torch.window_max (ky, kx)
        (NonMaximaSuppression2d.pad ky, NonMaximaSuppression2d.pad kx)
        x b c (anchor H ky i) (anchor W kx j)
  | _ => S754_nan
  end.

(** [x * x_mask] at one entry. *)
Definition keep (v m : spec_float) : spec_float :=
  SFmul prec emax v (if SFeqb v m then one else zero).

(** What the suppressor returns when it returns. *)
Definition nms_map (ky kx : Z) (x : tensor spec_float) : tensor spec_float :=
  tabulate (shape x) (fun idx =>
    match idx with
    | [b; c; i; j] => keep (get zero x idx) (local_max ky kx x b c i j)
    | _ => zero
    end).

Definition gradient_contract
    (spatial_gradient : tensor spec_float -> result (tensor spec_float))
  : Prop :=
  forall (x : tensor spec_float) (B C H W : nat),
    shape x = [B; C; H; W] -> wf x -> numel (shape x) <> 0 ->
    exists g, spatial_gradient x = Ok g /\ shape g = [B; C; 2; H; W].

Definition blur_contract
    (gaussian_blur : tensor spec_float -> Z * Z -> spec_float * spec_float
                     -> result (tensor spec_float)) : Prop :=
  forall (x : tensor spec_float) (B C H W : nat),
    shape x = [B; C; H; W] -> wf x -> numel (shape x) <> 0 ->
    exists y, gaussian_blur x (3, 3)%Z (one, one) = Ok y
              /\ shape y = [B; C; H; W].

(** ** An instance of the two imported operations *)
Module Image.

(** Correlation of a 4-d map with a 3x3 kernel [w], borders replicated, the
    nine products added from the top left. *)
Definition conv3 (w : Z -> Z -> spec_float) (x : tensor spec_float)
    (b c i j : nat) : spec_float :=
  match shape x with
  | [_; _; H; W] =>
      fold_left (SFadd prec emax)
        (flat_map (fun dr =>
           List.map (fun dc =>
             SFmul prec emax (w dr dc)
               (get zero x [b; c; Image.near H (Z.of_nat i + dr);
                                  Image.near W (Z.of_nat j + dc)]))
             Image.offsets)
           Image.offsets)
        zero
  | _ => zero
  end.

Definition sobel_x (dr dc : Z) : spec_float := of_Z (dc * (2 - Z.abs dr)).

Definition sobel_y (dr dc : Z) : spec_float := sobel_x dc dr.

Definition spatial_gradient (x : tensor spec_float)
  : result (tensor spec_float) :=
  match shape x with
  | [B; C; H; W] =>
      Ok (tabulate [B; C; 2; H; W] (fun idx =>
            match idx with
            | [b; c; d; i; j] =>
                conv3 (if d =? 0 then sobel_x else sobel_y) x b c i j
            | _ => zero
            end))
  | _ => Raise RuntimeError
  end.

Definition gauss3 (dr dc : Z) : spec_float :=
  of_ratio (match (Z.abs dr + Z.abs dc)%Z with
            | 0%Z => 2041800
            | 1%Z => 1238414
            | _ => 751136
            end) 10000000.

Definition gaussian_blur (x : tensor spec_float) (kernel_size : Z * Z)
    (sigma : spec_float * spec_float) : result (tensor spec_float) :=
  match shape x with
  | [B; C; H; W] =>
      Ok (tabulate [B; C; H; W] (fun idx =>
            match idx with
            | [b; c; i; j] => conv3 gauss3 x b c i j
            | _ => zero
            end))
  | _ => Raise RuntimeError
  end.

End Image.

(** ** Concrete inputs *)
Definition of_ints (s : list nat) (l : list Z) : tensor spec_float :=
  Tensor.mk s (List.map of_Z l).

Definition square7 : tensor spec_float :=
  of_ints [1; 1; 7; 7]
    [0; 0; 0; 0; 0; 0; 0;
     0; 1; 1; 1; 1; 1; 0;
     0; 1; 1; 1; 1; 1; 0;
     0; 1; 1; 1; 1; 1; 0;
     0; 1; 1; 1; 1; 1; 0;
     0; 1; 1; 1; 1; 1; 0;
     0; 0; 0; 0; 0; 0; 0]%Z.

Definition square3 : tensor spec_float :=
  of_ints [1; 1; 3; 3] [0; 0; 0;  0; 1; 1;  0; 1; 1]%Z.

(** The same square with its entries multiplied by [1e10]. *)
Definition bright_square3 : tensor spec_float :=
  Tensor.map (SFmul prec emax (of_Z 10000000000)) square3.

(** [0.04] *)
Definition k004 : spec_float := of_ratio 4 100.

Definition negative_row : tensor spec_float :=
  of_ints [1; 1; 1; 2] [-1; -2]%Z.

(** A row with a NaN between two finite entries. *)
Definition nan_row : tensor spec_float :=
  Tensor.mk [1; 1; 1; 3] [of_Z 5; S754_nan; of_Z (-7)].

End F32.

(** * Lemmas *)

(** ** Storage order *)
Lemma length_flat_map_uniform {A B : Type} (F : A -> list B) (n : nat) :
  (forall a, length (F a) = n) ->
  forall l, length (flat_map F l) = length l * n.
Proof.
  intros HF l. induction l as [|a l IH]; simpl; [reflexivity|].
  rewrite length_app, HF, IH. reflexivity.
Qed.

Lemma length_indices (s : list nat) : length (indices s) = numel s.
Proof.
  induction s as [|d s IH]; simpl; [reflexivity|].
  rewrite length_flat_map_uniform with (n := numel s).
  - now rewrite length_seq.
  - intros i. now rewrite length_map.
Qed.

Lemma nth_flat_map_seq {A : Type} (F : nat -> list A) (n : nat) (d : A) :
  (forall i, length (F i) = n) ->
  forall len start i k, i < len -> k < n ->
    nth (i * n + k) (flat_map F (seq start len)) d = nth k (F (start + i)) d.
Proof.
  intros HF len. induction len as [|len IH]; intros start i k Hi Hk; [lia|].
  simpl. destruct i as [|i].
  - simpl. rewrite app_nth1 by (rewrite HF; lia). now rewrite Nat.add_0_r.
  - rewrite app_nth2 by (rewrite HF; simpl; lia).
    rewrite HF. replace (S i * n + k - n) with (i * n + k) by (simpl; lia).
    rewrite IH by lia. f_equal. f_equal. lia.
Qed.

Lemma in_range_length (s idx : list nat) :
  in_range s idx -> length idx = length s.
Proof.
  revert idx. induction s as [|d s IH]; intros [|i idx]; simpl; try tauto.
  intros [_ H]. f_equal. auto.
Qed.

Lemma offset_lt (s idx : list nat) :
  in_range s idx -> offset s idx < numel s.
Proof.
  revert idx. induction s as [|d s IH]; intros [|i idx]; simpl; try tauto.
  - lia.
  - intros [Hi H]. specialize (IH _ H). nia.
Qed.

Lemma nth_indices (s idx d : list nat) :
  in_range s idx -> nth (offset s idx) (indices s) d = idx.
Proof.
  revert idx. induction s as [|n s IH]; intros [|i idx]; simpl; try tauto.
  intros [Hi H].
  rewrite nth_flat_map_seq with (n := numel s); auto using offset_lt.
  - simpl. rewrite nth_indep with (d' := i :: d).
    + rewrite (map_nth (cons i)). f_equal. auto.
    + rewrite length_map, length_indices. now apply offset_lt.
  - intros j. now rewrite length_map, length_indices.
Qed.

Lemma in_indices (s idx : list nat) :
  In idx (indices s) -> in_range s idx.
Proof.
  revert idx. induction s as [|n s IH]; intros idx; simpl.
  - intros [<-|[]]. exact I.
  - rewrite in_flat_map. intros (i & Hi & Hin).
    apply in_map_iff in Hin. destruct Hin as (idx' & <- & Hin).
    apply in_seq in Hi. simpl. split; [lia|auto].
Qed.

Lemma shape_tabulate {A : Type} s (f : list nat -> A) :
  shape (tabulate s f) = s.
Proof. reflexivity. Qed.

Lemma wf_tabulate {A : Type} s (f : list nat -> A) : wf (tabulate s f).
Proof. unfold wf, tabulate. simpl. now rewrite length_map, length_indices. Qed.

Lemma get_tabulate {A : Type} (d : A) s f idx :
  in_range s idx -> get d (tabulate s f) idx = f idx.
Proof.
  intros H. unfold get, tabulate. simpl.
  rewrite nth_indep with (d' := f []).
  - rewrite map_nth. f_equal. now apply nth_indices.
  - rewrite length_map, length_indices. now apply offset_lt.
Qed.

Lemma tabulate_ext {A : Type} s (f g : list nat -> A) :
  (forall idx, in_range s idx -> f idx = g idx) ->
  tabulate s f = tabulate s g.
Proof.
  intros H. unfold tabulate. f_equal.
  apply map_ext_in. intros idx Hin. apply H. now apply in_indices.
Qed.

Lemma shape_map {A B : Type} (f : A -> B) t : shape (map f t) = shape t.
Proof. reflexivity. Qed.

Lemma wf_map {A B : Type} (f : A -> B) t : wf t -> wf (map f t).
Proof. unfold wf, map. simpl. now rewrite length_map. Qed.

Lemma get_map {A B : Type} (d : A) (f : A -> B) t idx :
  get (f d) (map f t) idx = f (get d t idx).
Proof. unfold get, map. simpl. apply map_nth. Qed.

(** ** Scalars *)
Lemma qleb_le (p q : Qc) : qleb p q = true <-> (p <= q)%Qc.
Proof.
  unfold qleb. rewrite Qcle_alt.
  destruct (p ?= q)%Qc; split; intros; congruence.
Qed.

Lemma qltb_lt (p q : Qc) : qltb p q = true <-> (p < q)%Qc.
Proof.
  unfold qltb. rewrite Qclt_alt.
  destruct (p ?= q)%Qc; split; intros; congruence.
Qed.

Lemma qltb_nlt (p q : Qc) : qltb p q = false <-> (q <= p)%Qc.
Proof.
  split; intros H.
  - apply Qcnot_lt_le. intros Hlt. apply qltb_lt in Hlt. congruence.
  - destruct (qltb p q) eqn:E; [|reflexivity].
    apply qltb_lt in E. exfalso. eapply Qcle_not_lt; eauto.
Qed.

Lemma Qc_eq_bool_refl (p : Qc) : Qc_eq_bool p p = true.
Proof. unfold Qc_eq_bool. destruct (Qc_eq_dec p p); congruence. Qed.

Lemma Qc_eq_bool_eq (p q : Qc) : Qc_eq_bool p q = true <-> p = q.
Proof.
  split; [apply Qc_eq_bool_correct|intros ->; apply Qc_eq_bool_refl].
Qed.

Lemma Qc_eq_bool_neq (p q : Qc) : Qc_eq_bool p q = false <-> p <> q.
Proof.
  rewrite <- Qc_eq_bool_eq. destruct (Qc_eq_bool p q); split; congruence.
Qed.

Lemma qmax_l (p q : Qc) : (p <= qmax p q)%Qc.
Proof.
  unfold qmax. destruct (qleb p q) eqn:E.
  - now apply qleb_le.
  - apply Qcle_refl.
Qed.

Lemma qmax_r (p q : Qc) : (q <= qmax p q)%Qc.
Proof.
  unfold qmax. destruct (qleb p q) eqn:E.
  - apply Qcle_refl.
  - apply Qclt_le_weak, Qcnot_le_lt. intros H. apply qleb_le in H. congruence.
Qed.

Lemma qmax_cases (p q : Qc) : qmax p q = p \/ qmax p q = q.
Proof. unfold qmax. destruct (qleb p q); auto. Qed.

Lemma feqb_Fin (p q : Qc) : feqb (Fin p) (Fin q) = true <-> p = q.
Proof. simpl. apply Qc_eq_bool_eq. Qed.

(** The running maximum of cells that are finite or padding is the largest
    finite cell, or minus infinity when there is none. *)
Lemma fold_fmax_spec (l : list float) :
  Forall fin_or_ninf l ->
  match fold_right fmax NInf l with
  | Fin m => In (Fin m) l /\ forall q, In (Fin q) l -> (q <= m)%Qc
  | NInf => forall q, ~ In (Fin q) l
  | _ => False
  end.
Proof.
  induction 1 as [|v l Hv Hl IH]; simpl.
  - intros q [].
  - destruct v as [p| | |]; simpl in Hv; try contradiction;
      destruct (fold_right fmax NInf l) as [m| | |]; simpl;
      try contradiction.
    + destruct IH as [Hin Hub]. split.
      * destruct (qmax_cases p m) as [-> | ->]; auto.
      * intros q [Hq|Hq].
        -- inversion Hq; subst. apply qmax_l.
        -- eapply Qcle_trans; [apply Hub, Hq|apply qmax_r].
    + split; [now left|].
      intros q [Hq|Hq]; [inversion Hq; apply Qcle_refl|].
      exfalso. eapply IH; eauto.
    + destruct IH as [Hin Hub]. split; [now right|].
      intros q [Hq|Hq]; [discriminate|auto].
    + intros q [Hq|Hq]; [discriminate|]. eapply IH; eauto.
Qed.

(** ** The pooling window *)
Lemma in_zrange (n d : Z) : In d (Torch.zrange n) <-> (0 <= d < n)%Z.
Proof.
  unfold Torch.zrange. rewrite in_map_iff. split.
  - intros (i & <- & Hi). apply in_seq in Hi. lia.
  - intros Hd. exists (Z.to_nat d). split; [lia|]. apply in_seq. lia.
Qed.

Lemma padded_cases (x : tensor Qc) b c r s :
  fin_or_ninf (Torch.padded x b c r s).
Proof.
  unfold Torch.padded.
  destruct (shape x) as [|? [|? [|H [|W [|? ?]]]]]; simpl; auto.
  destruct (_ && _); simpl; auto.
Qed.

Lemma window_cases ks pd (x : tensor Qc) b c i j :
  Forall fin_or_ninf (Torch.window ks pd x b c i j).
Proof.
  apply Forall_forall. intros v Hv. unfold Torch.window in Hv.
  apply in_flat_map in Hv. destruct Hv as (di & _ & Hv).
  apply in_map_iff in Hv. destruct Hv as (dj & <- & _).
  apply padded_cases.
Qed.

Lemma in_window ks pd (x : tensor Qc) B C H W b c i j q :
  shape x = [B; C; H; W] ->
  In (Fin q) (Torch.window ks pd x b c i j) <->
  exists r s, covers H (fst ks) (fst pd) i r /\
              covers W (snd ks) (snd pd) j s /\
              q = get 0%Qc x [b; c; r; s].
Proof.
  intros Hs. unfold Torch.window, covers.
  rewrite in_flat_map. split.
  - intros (di & Hdi & Hin). apply in_map_iff in Hin.
    destruct Hin as (dj & Hq & Hdj).
    apply in_zrange in Hdi, Hdj. unfold Torch.padded in Hq. rewrite Hs in Hq.
    destruct (_ && _) eqn:E in Hq; [|discriminate].
    repeat (apply andb_true_iff in E; destruct E as [E ?]).
    inversion Hq; subst q.
    exists (Z.to_nat (Z.of_nat i + di - fst pd)),
           (Z.to_nat (Z.of_nat j + dj - snd pd)).
    repeat split; lia.
  - intros (r & s & (Hr & Hr') & (Hs1 & Hs') & ->).
    exists (Z.of_nat r - (Z.of_nat i - fst pd))%Z.
    split; [apply in_zrange; lia|].
    apply in_map_iff.
    exists (Z.of_nat s - (Z.of_nat j - snd pd))%Z.
    split; [|apply in_zrange; lia].
    unfold Torch.padded. rewrite Hs.
    replace (Z.of_nat i + _ - fst pd)%Z with (Z.of_nat r) by lia.
    replace (Z.of_nat j + _ - snd pd)%Z with (Z.of_nat s) by lia.
    rewrite !Nat2Z.id.
    replace (_ && _) with true; [reflexivity|].
    symmetry. repeat (apply andb_true_iff; split); lia.
Qed.

(** The pooled value is an upper bound of the in-bounds cells under the
    window, and is one of them. *)
Lemma window_max_spec ks pd (x : tensor Qc) B C H W b c i j :
  shape x = [B; C; H; W] ->
  match Torch.window_max ks pd x b c i j with
  | Fin m =>
      (exists r s, covers H (fst ks) (fst pd) i r /\
                   covers W (snd ks) (snd pd) j s /\
                   m = get 0%Qc x [b; c; r; s]) /\
      (forall r s, covers H (fst ks) (fst pd) i r ->
                   covers W (snd ks) (snd pd) j s ->
                   (get 0%Qc x [b; c; r; s] <= m)%Qc)
  | NInf =>
      forall r s, ~ (covers H (fst ks) (fst pd) i r /\
                     covers W (snd ks) (snd pd) j s)
  | _ => False
  end.
Proof.
  intros Hs. unfold Torch.window_max.
  pose proof (fold_fmax_spec (window_cases ks pd x b c i j)) as Hspec.
  destruct (fold_right fmax NInf _) as [m| | |]; auto.
  - destruct Hspec as [Hin Hub]. split.
    + now apply (in_window ks pd x b c i j m Hs).
    + intros r s Hr Hc. apply Hub.
      apply (in_window ks pd x b c i j _ Hs). eauto.
  - intros r s [Hr Hc]. apply (Hspec (get 0%Qc x [b; c; r; s])).
    apply (in_window ks pd x b c i j _ Hs). eauto.
Qed.

(** ** Broadcasting *)
Lemma bdim_refl (d : nat) : bdim d d = Some d.
Proof. unfold bdim. now rewrite Nat.eqb_refl. Qed.

Lemma broadcast_aligned_refl (s : list nat) : broadcast_aligned s s = Some s.
Proof.
  induction s as [|d s IH]; simpl; [reflexivity|].
  now rewrite bdim_refl, IH.
Qed.

Lemma broadcast_shapes_refl (s : list nat) : broadcast_shapes s s = Some s.
Proof.
  unfold broadcast_shapes, lpad.
  rewrite Nat.max_id, Nat.sub_diag. simpl. apply broadcast_aligned_refl.
Qed.

Lemma bindex_combine (s idx : list nat) :
  in_range s idx ->
  List.map (fun di : nat * nat => if fst di =? 1 then 0 else snd di)
    (combine s idx) = idx.
Proof.
  revert idx. induction s as [|d s IH]; intros [|i idx]; simpl; try tauto.
  intros [Hi H]. rewrite IH by assumption. f_equal.
  destruct (d =? 1) eqn:E; [apply Nat.eqb_eq in E; lia|reflexivity].
Qed.

Lemma bindex_in_range (s idx : list nat) :
  in_range s idx -> bindex s idx = idx.
Proof.
  intros H. unfold bindex.
  rewrite (in_range_length _ _ H), Nat.sub_diag. simpl.
  now apply bindex_combine.
Qed.

(** Operands of one shape are combined entry by entry. *)
Lemma broadcast2_same {A B C : Type} (da : A) (db : B) (f : A -> B -> C)
    (x : tensor A) (y : tensor B) :
  shape y = shape x ->
  broadcast2 da db f x y =
  Ok (tabulate (shape x) (fun idx => f (get da x idx) (get db y idx))).
Proof.
  intros Hs. unfold broadcast2. rewrite Hs, broadcast_shapes_refl.
  f_equal. apply tabulate_ext. intros idx Hidx.
  now rewrite bindex_in_range.
Qed.

Lemma broadcast_shapes_4 (B C H W H' W' : nat) :
  broadcast_shapes [B; C; H; W] [B; C; H'; W'] =
  match bdim H H', bdim W W' with
  | Some h, Some w => Some [B; C; h; w]
  | _, _ => None
  end.
Proof.
  unfold broadcast_shapes, lpad. simpl. rewrite !bdim_refl.
  destruct (bdim H H'), (bdim W W'); reflexivity.
Qed.

Lemma bindex_4 (B C H W b c i j : nat) :
  b < B -> c < C ->
  bindex [B; C; H; W] [b; c; i; j] = [b; c; bpos H i; bpos W j].
Proof.
  intros Hb Hc. unfold bindex, bpos. simpl.
  destruct (B =? 1) eqn:EB; [apply Nat.eqb_eq in EB|];
    destruct (C =? 1) eqn:EC; try apply Nat.eqb_eq in EC;
    repeat f_equal; lia.
Qed.

Lemma in_range_4 (B C H W : nat) (idx : list nat) :
  in_range [B; C; H; W] idx <->
  exists b c i j, idx = [b; c; i; j] /\ b < B /\ c < C /\ i < H /\ j < W.
Proof.
  split.
  - destruct idx as [|b [|c [|i [|j [|? ?]]]]]; simpl; try tauto.
    intros (Hb & Hc & Hi & Hj & _). exists b, c, i, j. tauto.
  - intros (b & c & i & j & -> & Hb & Hc & Hi & Hj). simpl. tauto.
Qed.

Lemma pad_bounds (k : Z) :
  (0 < k)%Z ->
  (0 <= NonMaximaSuppression2d.pad k
   /\ NonMaximaSuppression2d.pad k <= k / 2
   /\ 2 * NonMaximaSuppression2d.pad k <= k - 1
   /\ k - 2 <= 2 * NonMaximaSuppression2d.pad k)%Z.
Proof.
  intros Hk. unfold NonMaximaSuppression2d.pad.
  Z.div_mod_to_equations. lia.
Qed.

Lemma bdim_pooled (n : nat) (k : Z) :
  (0 < k)%Z ->
  (1 <= Torch.pool_out n k (NonMaximaSuppression2d.pad k))%Z ->
  bdim n (pooled_extent n k) =
  if (pooled_extent n k =? n) || (pooled_extent n k =? 1)
  then Some n else None.
Proof.
  intros Hk Ho. pose proof (pad_bounds Hk) as Hp.
  unfold bdim, pooled_extent, Torch.pool_out in *.
  set (p := NonMaximaSuppression2d.pad k) in *.
  set (o := Z.to_nat _).
  assert (Ho' : 1 <= o <= n) by (subst o; lia).
  destruct (n =? o) eqn:E1; [apply Nat.eqb_eq in E1|apply Nat.eqb_neq in E1].
  - rewrite <- E1, Nat.eqb_refl. reflexivity.
  - replace (o =? n) with false by (symmetry; apply Nat.eqb_neq; lia).
    destruct (n =? 1) eqn:E2; [apply Nat.eqb_eq in E2; lia|].
    simpl. destruct (o =? 1); reflexivity.
Qed.

Lemma where_same (c : tensor bool) (a b : tensor Qc) :
  shape a = shape c -> shape b = shape c ->
  Torch.where_ c a b =
  Ok (tabulate (shape c) (fun idx =>
        if get false c idx then get 0%Qc a idx else get 0%Qc b idx)).
Proof.
  intros Ha Hb. unfold Torch.where_.
  rewrite (broadcast2_same 0%Qc 0%Qc pair a b) by congruence.
  cbn [bind]. rewrite broadcast2_same by (rewrite shape_tabulate; congruence).
  f_equal. apply tabulate_ext. intros idx Hidx.
  rewrite get_tabulate by (rewrite Ha; assumption). reflexivity.
Qed.

Lemma mul_same (x y : tensor Qc) :
  shape y = shape x ->
  Torch.mul x y =
  Ok (tabulate (shape x) (fun idx => (get 0 x idx * get 0 y idx)%Qc)).
Proof. intros H. unfold Torch.mul. now apply broadcast2_same. Qed.

Lemma bpos_lt (d i : nat) : i < d -> bpos d i = i.
Proof.
  intros H. unfold bpos.
  destruct (d =? 1) eqn:E; [apply Nat.eqb_eq in E; lia|reflexivity].
Qed.

Lemma anchor_lt (n : nat) (k : Z) (i : nat) :
  (pooled_extent n k =? n) || (pooled_extent n k =? 1) = true ->
  i < n -> anchor n k i < pooled_extent n k.
Proof.
  intros Hf Hi. unfold anchor, bpos.
  destruct (pooled_extent n k =? 1) eqn:E1.
  - apply Nat.eqb_eq in E1. lia.
  - rewrite orb_false_r in Hf. apply Nat.eqb_eq in Hf. lia.
Qed.

(** The entry point either raises [RuntimeError] in the pooling or in the
    comparison of the pooled map with the input, or returns [nms_map]. *)
Lemma nms_unfold (ky kx : Z) (x : tensor Qc) (B C H W : nat) :
  shape x = [B; C; H; W] ->
  non_maxima_suppression2d x (KTuple [ky; kx]) =
  if nms_ok ky kx (shape x) then Ok (nms_map ky kx x) else Raise RuntimeError.
Proof.
  intros Hs.
  unfold non_maxima_suppression2d, NonMaximaSuppression2d.init,
    NonMaximaSuppression2d._compute_zero_padding2d. simpl.
  unfold NonMaximaSuppression2d.forward, NonMaximaSuppression2d.max_pool2d,
    Torch.max_pool2d.
  rewrite Hs.
  cbn [length Nat.eqb py_assert bind NonMaximaSuppression2d.kernel_size
       NonMaximaSuppression2d.padding fst snd].
  unfold nms_ok, fits.
  destruct (0 <? ky)%Z eqn:Eky;
    [apply Z.ltb_lt in Eky|rewrite ?andb_false_r; reflexivity].
  destruct (0 <? kx)%Z eqn:Ekx;
    [apply Z.ltb_lt in Ekx|simpl; rewrite ?andb_false_r; reflexivity].
  pose proof (pad_bounds Eky) as Hpy. pose proof (pad_bounds Ekx) as Hpx.
  replace ((0 <=? _) && _ && _ && _)%Z with true
    by (symmetry; repeat (apply andb_true_iff; split); lia).
  cbn [negb andb].
  destruct (numel [B; C; H; W] =? 0) eqn:En; [reflexivity|].
  cbn [negb andb].
  destruct (1 <=? Torch.pool_out H ky _)%Z eqn:EoH;
    [apply Z.leb_le in EoH|reflexivity].
  destruct (1 <=? Torch.pool_out W kx _)%Z eqn:EoW;
    [apply Z.leb_le in EoW|simpl; rewrite ?andb_false_r; reflexivity].
  cbn [negb andb bind].
  unfold Torch.eq, broadcast2 at 1. rewrite Hs, shape_tabulate.
  rewrite broadcast_shapes_4.
  fold (pooled_extent H ky). fold (pooled_extent W kx).
  rewrite !bdim_pooled by assumption.
  destruct ((pooled_extent H ky =? H) || _) eqn:EfH; [|reflexivity].
  destruct ((pooled_extent W kx =? W) || _) eqn:EfW; [|reflexivity].
  cbn [bind andb].
  rewrite where_same by (rewrite shape_tabulate; exact Hs).
  cbn [bind]. rewrite mul_same by (rewrite !shape_tabulate; auto).
  f_equal. unfold nms_map. rewrite Hs. apply tabulate_ext.
  intros idx Hidx. rewrite shape_tabulate.
  rewrite !get_tabulate by assumption.
  apply in_range_4 in Hidx.
  destruct Hidx as (b & c & i & j & -> & Hb & Hc & Hi & Hj).
  rewrite !bindex_4 by assumption.
  rewrite !(@bpos_lt H), !(@bpos_lt W) by assumption.
  rewrite get_tabulate
    by (apply in_range_4; exists b, c, (anchor H ky i), (anchor W kx j);
        repeat split; auto; apply anchor_lt; assumption).
  unfold Torch.ones_like, Torch.zeros_like.
  rewrite !get_tabulate
    by (rewrite Hs; apply in_range_4; exists b, c, i, j; repeat split; auto).
  unfold keep, local_max. rewrite Hs. reflexivity.
Qed.

(** ** Entries of the suppressed map *)
Lemma shape_nms_map (ky kx : Z) (x : tensor Qc) :
  shape (nms_map ky kx x) = shape x.
Proof. reflexivity. Qed.

Lemma get_nms_map (ky kx : Z) (x : tensor Qc) (B C H W b c i j : nat) :
  shape x = [B; C; H; W] -> b < B -> c < C -> i < H -> j < W ->
  get 0%Qc (nms_map ky kx x) [b; c; i; j] =
  keep (get 0%Qc x [b; c; i; j]) (local_max ky kx x b c i j).
Proof.
  intros Hs Hb Hc Hi Hj. unfold nms_map.
  rewrite get_tabulate; [reflexivity|].
  rewrite Hs. apply in_range_4. exists b, c, i, j. auto.
Qed.

Lemma keep_eq (v : Qc) : keep v (Fin v) = v.
Proof.
  unfold keep. simpl. rewrite Qc_eq_bool_refl. apply Qcmult_1_r.
Qed.

Lemma keep_neq (v : Qc) (m : float) : m <> Fin v -> keep v m = 0%Qc.
Proof.
  intros Hm. unfold keep.
  destruct (feqb (Fin v) m) eqn:E; [|apply Qcmult_0_r].
  destruct m as [q| | |]; simpl in E; try discriminate.
  apply Qc_eq_bool_eq in E. congruence.
Qed.

Lemma keep_cases (v : Qc) (m : float) : keep v m = v \/ keep v m = 0%Qc.
Proof.
  unfold keep. destruct (feqb (Fin v) m).
  - left. apply Qcmult_1_r.
  - right. apply Qcmult_0_r.
Qed.

Lemma fits_inv (n : nat) (k : Z) :
  fits n k = true ->
  (0 < k)%Z
  /\ (1 <= Torch.pool_out n k (NonMaximaSuppression2d.pad k))%Z
  /\ (pooled_extent n k = n \/ pooled_extent n k = 1).
Proof.
  unfold fits. intros H.
  apply andb_true_iff in H. destruct H as [H H3].
  apply andb_true_iff in H. destruct H as [H1 H2].
  apply Z.ltb_lt in H1. apply Z.leb_le in H2.
  apply orb_true_iff in H3. rewrite !Nat.eqb_eq in H3. auto.
Qed.

(** Every entry lies under the window it is compared with. *)
Lemma window_of_self (n : nat) (k : Z) (i : nat) :
  fits n k = true -> i < n -> window_of n k i i.
Proof.
  intros Hf Hi. apply fits_inv in Hf. destruct Hf as (Hk & Ho & Hext).
  pose proof (pad_bounds Hk) as Hp.
  unfold window_of, covers, anchor, bpos. split; [assumption|].
  unfold pooled_extent, Torch.pool_out in *.
  destruct (Z.to_nat _ =? 1) eqn:E.
  - apply Nat.eqb_eq in E. lia.
  - apply Nat.eqb_neq in E. lia.
Qed.

(** For an odd window the rows compared with [i] are those at distance at
    most [(k - 1) / 2]. *)
Lemma window_of_odd (n : nat) (k : Z) (i r : nat) :
  (0 < k)%Z -> Z.odd k = true -> i < n ->
  (window_of n k i r <->
   r < n /\ (Z.abs (Z.of_nat r - Z.of_nat i) <= (k - 1) / 2)%Z).
Proof.
  intros Hk Hodd Hi. apply Z.odd_spec in Hodd. destruct Hodd as [m ->].
  unfold window_of, covers, anchor, bpos, pooled_extent,
    Torch.pool_out, NonMaximaSuppression2d.pad.
  replace ((2 * m + 1 - 1) / 2)%Z with m
    by (Z.div_mod_to_equations; lia).
  destruct (Z.to_nat _ =? 1) eqn:E.
  - apply Nat.eqb_eq in E. lia.
  - lia.
Qed.

Lemma nms_ok_inv (ky kx : Z) (B C H W : nat) :
  nms_ok ky kx [B; C; H; W] = true ->
  fits H ky = true /\ fits W kx = true /\ numel [B; C; H; W] <> 0.
Proof.
  unfold nms_ok. intros H0.
  apply andb_true_iff in H0. destruct H0 as [H0 H3].
  apply andb_true_iff in H0. destruct H0 as [H1 H2].
  apply negb_true_iff, Nat.eqb_neq in H1. auto.
Qed.

(** The value an entry is compared with is the largest entry under its
    window: padding never contributes. *)
Lemma local_max_spec (ky kx : Z) (x : tensor Qc) (B C H W b c i j : nat) :
  shape x = [B; C; H; W] ->
  fits H ky = true -> fits W kx = true -> i < H -> j < W ->
  exists m,
    local_max ky kx x b c i j = Fin m
    /\ (exists r s, window_of H ky i r /\ window_of W kx j s
                    /\ m = get 0%Qc x [b; c; r; s])
    /\ (forall r s, window_of H ky i r -> window_of W kx j s ->
                    (get 0%Qc x [b; c; r; s] <= m)%Qc).
Proof.
  intros Hs HfH HfW Hi Hj. unfold local_max. rewrite Hs.
  pose proof (window_max_spec (ky, kx)
    (NonMaximaSuppression2d.pad ky, NonMaximaSuppression2d.pad kx)
    x b c (anchor H ky i) (anchor W kx j) Hs) as Hspec.
  destruct (Torch.window_max _ _ _ _ _ _ _) as [m| | |].
  - exists m. split; [reflexivity|]. exact Hspec.
  - contradiction.
  - exfalso. apply (Hspec i j). split.
    + now apply window_of_self.
    + now apply window_of_self.
  - contradiction.
Qed.

Lemma pooled_extent_odd (n : nat) (k : Z) :
  (0 < k)%Z -> Z.odd k = true ->
  Torch.pool_out n k (NonMaximaSuppression2d.pad k) = Z.of_nat n.
Proof.
  intros Hk Hodd. apply Z.odd_spec in Hodd. destruct Hodd as [m ->].
  unfold Torch.pool_out, NonMaximaSuppression2d.pad.
  replace ((2 * m + 1 - 1) / 2)%Z with m by (Z.div_mod_to_equations; lia).
  lia.
Qed.

Lemma pooled_extent_even (n : nat) (k : Z) :
  (0 < k)%Z -> Z.even k = true ->
  Torch.pool_out n k (NonMaximaSuppression2d.pad k) = (Z.of_nat n - 1)%Z
  /\ NonMaximaSuppression2d.pad k = (k / 2 - 1)%Z.
Proof.
  intros Hk Heven. apply Z.even_spec in Heven. destruct Heven as [m ->].
  unfold Torch.pool_out, NonMaximaSuppression2d.pad.
  replace ((2 * m - 1) / 2)%Z with (m - 1)%Z
    by (Z.div_mod_to_equations; lia).
  replace (2 * m / 2)%Z with m by (Z.div_mod_to_equations; lia).
  lia.
Qed.

Lemma fits_odd (n : nat) (k : Z) :
  (0 < k)%Z -> Z.odd k = true -> 0 < n -> fits n k = true.
Proof.
  intros Hk Hodd Hn. unfold fits, pooled_extent.
  rewrite (pooled_extent_odd n Hk Hodd), Nat2Z.id, Nat.eqb_refl.
  rewrite andb_true_r. apply andb_true_iff. split.
  - now apply Z.ltb_lt.
  - apply Z.leb_le. lia.
Qed.

Lemma numel_4_pos (B C H W : nat) :
  numel [B; C; H; W] <> 0 <-> 0 < B /\ 0 < C /\ 0 < H /\ 0 < W.
Proof. unfold numel. simpl. nia. Qed.

Lemma nms_ok_odd (ky kx : Z) (B C H W : nat) :
  (0 < ky)%Z -> (0 < kx)%Z -> Z.odd ky = true -> Z.odd kx = true ->
  numel [B; C; H; W] <> 0 ->
  nms_ok ky kx [B; C; H; W] = true.
Proof.
  intros Hky Hkx Hoy Hox Hn. unfold nms_ok.
  pose proof (proj1 (numel_4_pos B C H W) Hn) as (_ & _ & HH & HW).
  rewrite (fits_odd Hky Hoy HH), (fits_odd Hkx Hox HW), !andb_true_r.
  now apply negb_true_iff, Nat.eqb_neq.
Qed.

(** What a successful call returns. *)
Lemma nms_inv (ky kx : Z) (x y : tensor Qc) (B C H W : nat) :
  shape x = [B; C; H; W] ->
  non_maxima_suppression2d x (KTuple [ky; kx]) = Ok y ->
  nms_ok ky kx [B; C; H; W] = true /\ y = nms_map ky kx x.
Proof.
  intros Hs Hy. rewrite (nms_unfold ky kx x Hs), Hs in Hy.
  destruct (nms_ok ky kx [B; C; H; W]); [|discriminate].
  inversion Hy. auto.
Qed.

(** An entry that is at least every entry under its window is kept, one
    that is below some entry under its window becomes zero. *)
Lemma nms_map_entry (ky kx : Z) (x : tensor Qc) (B C H W b c i j : nat) :
  shape x = [B; C; H; W] ->
  nms_ok ky kx [B; C; H; W] = true ->
  b < B -> c < C -> i < H -> j < W ->
  let v := get 0%Qc x [b; c; i; j] in
  let o := get 0%Qc (nms_map ky kx x) [b; c; i; j] in
  ((forall r s, window_of H ky i r -> window_of W kx j s ->
                (get 0%Qc x [b; c; r; s] <= v)%Qc) -> o = v)
  /\ ((exists r s, window_of H ky i r /\ window_of W kx j s
                   /\ (v < get 0%Qc x [b; c; r; s])%Qc) -> o = 0%Qc).
Proof.
  intros Hs Hok Hb Hc Hi Hj v o.
  apply nms_ok_inv in Hok. destruct Hok as (HfH & HfW & _).
  destruct (local_max_spec ky kx x b c Hs HfH HfW Hi Hj)
    as (m & Hm & (r0 & s0 & Hr0 & Hs0 & Hatt) & Hub).
  subst o. rewrite (get_nms_map ky kx x Hs Hb Hc Hi Hj), Hm. fold v.
  split.
  - intros Hall. replace m with v; [apply keep_eq|].
    apply Qcle_antisym.
    + apply Hub; now apply window_of_self.
    + rewrite Hatt. now apply Hall.
  - intros (r & s & Hr & Hc' & Hlt). apply keep_neq.
    intros Heq. assert (Hmv : m = v) by congruence.
    apply (Qclt_not_le _ _ Hlt). rewrite <- Hmv. now apply Hub.
Qed.

(** A call that returns was given a pair of sizes and a 4-d map. *)
Lemma nms_ok_args (x y : tensor Qc) (ka : kernel_arg) :
  non_maxima_suppression2d x ka = Ok y ->
  exists ky kx B C H W, ka = KTuple [ky; kx] /\ shape x = [B; C; H; W].
Proof.
  unfold non_maxima_suppression2d, NonMaximaSuppression2d.init,
    NonMaximaSuppression2d._compute_zero_padding2d.
  destruct ka as [l|l|k]; simpl; try discriminate.
  destruct l as [|ky [|kx [|? ?]]]; simpl; try discriminate.
  unfold NonMaximaSuppression2d.forward.
  destruct (shape x) as [|B [|C [|H [|W [|? ?]]]]] eqn:Hs; simpl;
    try discriminate.
  intros _. exists ky, kx, B, C, H, W. auto.
Qed.

Lemma nms_map_ext (ky kx : Z) (x y : tensor Qc) (B C H W : nat) :
  shape x = [B; C; H; W] -> shape y = [B; C; H; W] ->
  (forall b c i j, b < B -> c < C -> i < H -> j < W ->
     keep (get 0%Qc y [b; c; i; j]) (local_max ky kx y b c i j)
     = keep (get 0%Qc x [b; c; i; j]) (local_max ky kx x b c i j)) ->
  nms_map ky kx y = nms_map ky kx x.
Proof.
  intros Hx Hy Hall. unfold nms_map. rewrite Hx, Hy.
  apply tabulate_ext. intros idx Hidx. apply in_range_4 in Hidx.
  destruct Hidx as (b & c & i & j & -> & Hb & Hc & Hi & Hj). auto.
Qed.

Lemma add_same (x y : tensor Qc) :
  shape y = shape x ->
  Torch.add x y =
  Ok (tabulate (shape x) (fun idx => (get 0 x idx + get 0 y idx)%Qc)).
Proof. intros H. unfold Torch.add. now apply broadcast2_same. Qed.

Lemma sub_same (x y : tensor Qc) :
  shape y = shape x ->
  Torch.sub x y =
  Ok (tabulate (shape x) (fun idx => (get 0 x idx - get 0 y idx)%Qc)).
Proof. intros H. unfold Torch.sub. now apply broadcast2_same. Qed.

Lemma get_map_in {A B : Type} (d : A) (d' : B) (f : A -> B)
    (t : tensor A) (idx : list nat) :
  wf t -> in_range (shape t) idx ->
  get d' (Tensor.map f t) idx = f (get d t idx).
Proof.
  intros Hwf Hidx. unfold get, Tensor.map. simpl.
  rewrite nth_indep with (d' := f d).
  - apply map_nth.
  - rewrite length_map, Hwf. now apply offset_lt.
Qed.

Lemma select2_stacked (g : tensor Qc) (B C H W u : nat) :
  shape g = [B; C; 2; H; W] -> u < 2 ->
  Torch.select2 g u =
  Ok (tabulate [B; C; H; W] (fun idx =>
        match idx with
        | [b; c; i; j] => get 0%Qc g [b; c; u; i; j]
        | _ => 0%Qc
        end)).
Proof.
  intros Hs Hu. unfold Torch.select2. rewrite Hs.
  replace (u <? 2) with true by (symmetry; now apply Nat.ltb_lt).
  f_equal. apply tabulate_ext. intros idx Hidx. apply in_range_4 in Hidx.
  destruct Hidx as (b & c & i & j & -> & _). reflexivity.
Qed.

Lemma select2_selected (g : tensor Qc) (B C H W u : nat) :
  shape g = [B; C; 2; H; W] -> u < 2 ->
  Torch.select2 g u = Ok (selected g u).
Proof.
  intros Hs Hu. unfold selected. rewrite Hs. now apply select2_stacked.
Qed.

Lemma mul_selected (g : tensor Qc) (B C H W u v : nat) :
  shape g = [B; C; 2; H; W] ->
  Torch.mul (selected g u) (selected g v) = Ok (grad_product g u v).
Proof.
  intros Hs. unfold selected, grad_product. rewrite Hs.
  rewrite mul_same by reflexivity. f_equal.
  rewrite shape_tabulate.
  apply tabulate_ext. intros idx Hidx.
  rewrite !get_tabulate by assumption.
  apply in_range_4 in Hidx.
  destruct Hidx as (b & c & i & j & -> & _). reflexivity.
Qed.

Lemma shape_grad_product (g : tensor Qc) (B C H W u v : nat) :
  shape g = [B; C; 2; H; W] -> shape (grad_product g u v) = [B; C; H; W].
Proof. intros Hs. unfold grad_product. now rewrite Hs. Qed.

Lemma wf_grad_product (g : tensor Qc) (B C H W u v : nat) :
  shape g = [B; C; 2; H; W] -> wf (grad_product g u v).
Proof. intros Hs. unfold grad_product. rewrite Hs. apply wf_tabulate. Qed.

Lemma structure_tensor_spec
    (sg : tensor Qc -> result (tensor Qc))
    (gb : tensor Qc -> Z * Z -> Qc * Qc -> result (tensor Qc))
    (x : tensor Qc) (B C H W : nat) :
  gradient_contract sg -> blur_contract gb ->
  shape x = [B; C; H; W] -> wf x -> numel (shape x) <> 0 ->
  exists g Sxx Syy Sxy,
    sg x = Ok g /\ shape g = [B; C; 2; H; W]
    /\ gb (grad_product g 0 0) (3, 3)%Z (1, 1)%Qc = Ok Sxx
    /\ gb (grad_product g 1 1) (3, 3)%Z (1, 1)%Qc = Ok Syy
    /\ gb (grad_product g 0 1) (3, 3)%Z (1, 1)%Qc = Ok Sxy
    /\ shape Sxx = [B; C; H; W] /\ shape Syy = [B; C; H; W]
    /\ shape Sxy = [B; C; H; W]
    /\ CornerHarris.structure_tensor sg gb x = Ok (Sxx, Syy, Sxy).
Proof.
  intros Hsg Hgb Hs Hwf Hn.
  destruct (Hsg x B C H W Hs Hwf Hn) as (g & Hg & Hsh).
  assert (Hn' : forall u v, numel (shape (grad_product g u v)) <> 0).
  { intros u v. rewrite (@shape_grad_product g B C H W u v Hsh).
    now rewrite Hs in Hn. }
  destruct (Hgb (grad_product g 0 0) B C H W
              (@shape_grad_product g B C H W 0 0 Hsh)
              (@wf_grad_product g B C H W 0 0 Hsh) (Hn' 0 0))
    as (Sxx & Hxx & Hsxx).
  destruct (Hgb (grad_product g 1 1) B C H W
              (@shape_grad_product g B C H W 1 1 Hsh)
              (@wf_grad_product g B C H W 1 1 Hsh) (Hn' 1 1))
    as (Syy & Hyy & Hsyy).
  destruct (Hgb (grad_product g 0 1) B C H W
              (@shape_grad_product g B C H W 0 1 Hsh)
              (@wf_grad_product g B C H W 0 1 Hsh) (Hn' 0 1))
    as (Sxy & Hxy & Hsxy).
  exists g, Sxx, Syy, Sxy. repeat (split; [assumption|]).
  unfold CornerHarris.structure_tensor, CornerHarris.g. rewrite Hg. cbn [bind].
  rewrite (@select2_selected g B C H W _ Hsh) by lia. cbn [bind].
  rewrite (@select2_selected g B C H W _ Hsh) by lia. cbn [bind].
  rewrite !(@mul_selected g B C H W _ _ Hsh). cbn [bind].
  rewrite Hxx. cbn [bind]. 
  rewrite Hyy. cbn [bind]. 
  rewrite Hxy. reflexivity.
Qed.

Lemma response_spec
    (sg : tensor Qc -> result (tensor Qc))
    (gb : tensor Qc -> Z * Z -> Qc * Qc -> result (tensor Qc))
    (self : CornerHarris.t) (x : tensor Qc) (B C H W : nat) :
  gradient_contract sg -> blur_contract gb ->
  shape x = [B; C; H; W] -> wf x -> numel (shape x) <> 0 ->
  exists g Sxx Syy Sxy,
    sg x = Ok g /\ shape g = [B; C; 2; H; W]
    /\ gb (grad_product g 0 0) (3, 3)%Z (1, 1)%Qc = Ok Sxx
    /\ gb (grad_product g 1 1) (3, 3)%Z (1, 1)%Qc = Ok Syy
    /\ gb (grad_product g 0 1) (3, 3)%Z (1, 1)%Qc = Ok Sxy
    /\ CornerHarris.response sg gb self x
       = Ok (tabulate [B; C; H; W] (fun idx =>
               harris_score (CornerHarris.k self) (get 0%Qc Sxx idx)
                 (get 0%Qc Syy idx) (get 0%Qc Sxy idx))).
Proof.
  intros Hsg Hgb Hs Hwf Hn.
  destruct (@structure_tensor_spec sg gb x B C H W Hsg Hgb Hs Hwf Hn)
    as (g & Sxx & Syy & Sxy & Hg & Hsh & Hxx & Hyy & Hxy
        & Hsxx & Hsyy & Hsxy & Hst).
  exists g, Sxx, Syy, Sxy. repeat (split; [assumption|]).
  unfold CornerHarris.response. rewrite Hst. cbn [bind].
  rewrite (mul_same Sxx Syy) by congruence. cbn [bind].
  rewrite (mul_same Sxy Sxy) by congruence. cbn [bind].
  rewrite sub_same by (rewrite !shape_tabulate; congruence). cbn [bind].
  rewrite add_same by congruence.  cbn [bind].
  rewrite sub_same
    by (rewrite !shape_tabulate; unfold Torch.scale, Torch.pow;
        rewrite !shape_map, shape_tabulate; congruence).
  rewrite !shape_tabulate, Hsxx. f_equal. apply tabulate_ext.
  intros idx Hidx.
  rewrite !get_tabulate by (rewrite ?Hsxx, ?Hsxy; assumption).
  unfold Torch.scale, Torch.pow.
  rewrite (get_map_in 0%Qc 0%Qc); [|apply wf_map, wf_tabulate|exact Hidx].
  rewrite (get_map_in 0%Qc 0%Qc); [|apply wf_tabulate|exact Hidx].
  rewrite get_tabulate by exact Hidx.
  reflexivity.
Qed.

(** ** Normalisation *)
Lemma slice_cases (x : tensor Qc) (b c : nat) :
  Forall fin_or_ninf (Torch.slice_values x b c).
Proof.
  apply Forall_forall. intros v Hv. unfold Torch.slice_values in Hv.
  destruct (shape x) as [|? [|? [|H [|W [|? ?]]]]]; simpl in Hv;
    try contradiction.
  apply in_flat_map in Hv. destruct Hv as (i & _ & Hv).
  apply in_map_iff in Hv. destruct Hv as (j & <- & _). exact I.
Qed.

Lemma in_slice (x : tensor Qc) (B C H W b c : nat) (q : Qc) :
  shape x = [B; C; H; W] ->
  In (Fin q) (Torch.slice_values x b c) <->
  exists i j, i < H /\ j < W /\ q = get 0%Qc x [b; c; i; j].
Proof.
  intros Hs. unfold Torch.slice_values. rewrite Hs, in_flat_map. split.
  - intros (i & Hi & Hin). apply in_map_iff in Hin.
    destruct Hin as (j & Hq & Hj). apply in_seq in Hi, Hj.
    inversion Hq. exists i, j. repeat split; lia.
  - intros (i & j & Hi & Hj & ->). exists i. split; [apply in_seq; lia|].
    apply in_map_iff. exists j. split; [reflexivity|apply in_seq; lia].
Qed.

(** The maximum of a non-empty slice is its largest entry. *)
Lemma slice_max_spec (x : tensor Qc) (B C H W b c : nat) :
  shape x = [B; C; H; W] -> 0 < H -> 0 < W ->
  exists M,
    Torch.slice_max x b c = Fin M
    /\ (exists i j, i < H /\ j < W /\ M = get 0%Qc x [b; c; i; j])
    /\ (forall i j, i < H -> j < W -> (get 0%Qc x [b; c; i; j] <= M)%Qc).
Proof.
  intros Hs HH HW. unfold Torch.slice_max.
  pose proof (fold_fmax_spec (slice_cases x b c)) as Hspec.
  destruct (fold_right fmax NInf _) as [M| | |]; try contradiction.
  - destruct Hspec as [Hin Hub]. exists M. split; [reflexivity|]. split.
    + now apply (in_slice x b c M Hs).
    + intros i j Hi Hj. apply Hub. apply (in_slice x b c _ Hs). eauto.
  - exfalso. apply (Hspec (get 0%Qc x [b; c; 0; 0])).
    apply (in_slice x b c _ Hs). exists 0, 0. auto.
Qed.

Lemma bdim_one (n : nat) : bdim n 1 = Some n.
Proof.
  unfold bdim. destruct (n =? 1) eqn:E; [reflexivity|]. reflexivity.
Qed.

(** Each entry is divided by the maximum of its slice. *)
Lemma normalize_unfold (s : tensor Qc) (B C H W : nat) :
  shape s = [B; C; H; W] -> numel (shape s) <> 0 ->
  CornerHarris.normalize s =
  Ok (tabulate [B; C; H; W] (fun idx =>
        match idx with
        | [b; c; i; j] =>
            fdiv (Fin (get 0%Qc s idx)) (Torch.slice_max s b c)
        | _ => NaN
        end)).
Proof.
  intros Hs Hn. unfold CornerHarris.normalize, Torch.adaptive_max_pool2d.
  rewrite Hs. rewrite Hs in Hn.
  replace (numel [B; C; H; W] =? 0) with false
    by (symmetry; now apply Nat.eqb_neq).
  cbn [bind]. unfold Torch.div, broadcast2.
  rewrite Hs, shape_tabulate, broadcast_shapes_4, !bdim_one.
  f_equal. apply tabulate_ext. intros idx Hidx.
  apply in_range_4 in Hidx.
  destruct Hidx as (b & c & i & j & -> & Hb & Hc & Hi & Hj).
  rewrite !bindex_4 by assumption.
  rewrite (@bpos_lt H), (@bpos_lt W) by assumption.
  rewrite get_tabulate; [reflexivity|].
  apply in_range_4. exists b, c, 0, 0. unfold bpos. simpl. repeat split; auto.
Qed.

(** ** The pipeline under the contracts *)
Lemma floor_pos : (0 < floor_1e_6)%Qc.
Proof. reflexivity. Qed.

Lemma clamp_min1_ge (m v : Qc) : (m <= Torch.clamp_min1 m v)%Qc.
Proof.
  unfold Torch.clamp_min1. destruct (qltb v m) eqn:E.
  - apply Qcle_refl.
  - now apply qltb_nlt.
Qed.

Lemma get_threshold (raw : tensor Qc) (idx : list nat) :
  wf raw -> in_range (shape raw) idx ->
  get 0%Qc (CornerHarris.threshold raw) idx
  = Torch.clamp_min1 floor_1e_6 (get 0%Qc raw idx).
Proof.
  intros Hwf Hidx. unfold CornerHarris.threshold, Torch.clamp_min.
  now apply get_map_in.
Qed.

Lemma suppress_is_nms (t : tensor Qc) :
  CornerHarris.suppress t = non_maxima_suppression2d t (KTuple [3; 3]%Z).
Proof. reflexivity. Qed.

(** The stages of [forward] on a non-empty 4-d map. *)
Lemma forward_stages
    (sg : tensor Qc -> result (tensor Qc))
    (gb : tensor Qc -> Z * Z -> Qc * Qc -> result (tensor Qc))
    (k : Qc) (x : tensor Qc) (B C H W : nat) :
  gradient_contract sg -> blur_contract gb ->
  shape x = [B; C; H; W] -> wf x -> numel (shape x) <> 0 ->
  exists raw,
    CornerHarris.response sg gb (CornerHarris.init k) x = Ok raw
    /\ shape raw = [B; C; H; W] /\ wf raw
    /\ CornerHarris.suppress (CornerHarris.threshold raw)
       = Ok (nms_map 3 3 (CornerHarris.threshold raw))
    /\ corner_harris sg gb (PyTensor x) k
       = CornerHarris.normalize (nms_map 3 3 (CornerHarris.threshold raw)).
Proof.
  intros Hsg Hgb Hs Hwf Hn.
  destruct (@response_spec sg gb (CornerHarris.init k) x B C H W
              Hsg Hgb Hs Hwf Hn)
    as (g & Sxx & Syy & Sxy & _ & _ & _ & _ & _ & Hraw).
  eexists. split; [exact Hraw|]. split; [reflexivity|].
  split; [apply wf_tabulate|].
  set (raw := tabulate _ _) in *.
  assert (Hst : shape (CornerHarris.threshold raw) = [B; C; H; W])
    by reflexivity.
  assert (Hsup : CornerHarris.suppress (CornerHarris.threshold raw)
                 = Ok (nms_map 3 3 (CornerHarris.threshold raw))).
  { rewrite suppress_is_nms, (@nms_unfold 3 3 _ B C H W Hst), Hst.
    rewrite Hs in Hn.
    rewrite (@nms_ok_odd 3 3 B C H W); auto; reflexivity. }
  split; [exact Hsup|].
  unfold corner_harris, CornerHarris.forward.
  rewrite Hs. cbn [length Nat.eqb negb]. rewrite Hraw. cbn [bind].
  rewrite Hsup. reflexivity.
Qed.

(** ** Quotients by a positive maximum *)
Lemma Qcdiv_same (m : Qc) : (0 < m)%Qc -> (m / m = 1)%Qc.
Proof.
  intros Hm. unfold Qcdiv. apply Qcmult_inv_r.
  intros ->. now apply (Qclt_not_eq _ _ Hm).
Qed.

Lemma fdiv_pos (v m : Qc) :
  (0 < m)%Qc -> fdiv (Fin v) (Fin m) = Fin (v / m)%Qc.
Proof.
  intros Hm. unfold fdiv.
  replace (Qc_eq_bool m 0%Qc) with false; [reflexivity|].
  symmetry. apply Qc_eq_bool_neq. intros ->.
  now apply (Qclt_not_eq _ _ Hm).
Qed.

(** Entries of the thresholded map are at least the floor, and the
    suppressed map holds, at each position, that entry or zero. *)
Lemma suppressed_entry (raw : tensor Qc) (B C H W b c i j : nat) :
  shape raw = [B; C; H; W] -> wf raw ->
  b < B -> c < C -> i < H -> j < W ->
  let t := CornerHarris.threshold raw in
  (floor_1e_6 <= get 0%Qc t [b; c; i; j])%Qc
  /\ (get 0%Qc (nms_map 3 3 t) [b; c; i; j] = get 0%Qc t [b; c; i; j]
      \/ get 0%Qc (nms_map 3 3 t) [b; c; i; j] = 0%Qc).
Proof.
  intros Hs Hwf Hb Hc Hi Hj t.
  assert (Hst : shape t = [B; C; H; W]) by exact Hs.
  split.
  - unfold t. rewrite get_threshold; [apply clamp_min1_ge|assumption|].
    rewrite Hs. apply in_range_4. exists b, c, i, j. auto.
  - rewrite (@get_nms_map 3 3 t B C H W b c i j Hst Hb Hc Hi Hj).
    apply keep_cases.
Qed.

Lemma corner_harris_returns :
  forall (sg : tensor Qc -> result (tensor Qc))
         (gb : tensor Qc -> Z * Z -> Qc * Qc -> result (tensor Qc))
         (k : Qc) (x : tensor Qc) (B C H W : nat),
    gradient_contract sg -> blur_contract gb ->
    shape x = [B; C; H; W] -> wf x -> numel (shape x) <> 0 ->
    exists out,
      corner_harris sg gb (PyTensor x) k = Ok out
      /\ CornerHarris.forward sg gb (CornerHarris.init k) (PyTensor x)
         = Ok out
      /\ shape out = shape x.
Proof.
  intros sg gb k x B C H W Hsg Hgb Hs Hwf Hn.
  destruct (@forward_stages sg gb k x B C H W Hsg Hgb Hs Hwf Hn)
    as (raw & Hraw & Hsr & Hwr & Hsup & Hch).
  set (s := nms_map 3 3 (CornerHarris.threshold raw)) in *.
  assert (Hss : shape s = [B; C; H; W]) by exact Hsr.
  assert (Hns : numel (shape s) <> 0) by (rewrite Hss, <- Hs; exact Hn).
  rewrite (@normalize_unfold s B C H W Hss Hns) in Hch.
  eexists. split; [exact Hch|]. split; [exact Hch|].
  now rewrite Hs.
Qed.

Lemma image_gradient_contract : gradient_contract Image.spatial_gradient.
Proof.
  intros x B C H W Hs _ _. unfold Image.spatial_gradient. rewrite Hs.
  eexists. split; reflexivity.
Qed.

Lemma image_blur_contract : blur_contract Image.gaussian_blur.
Proof.
  intros x B C H W Hs _ _. unfold Image.gaussian_blur. rewrite Hs.
  eexists. split; reflexivity.
Qed.

Lemma square3_nonempty : numel (shape square3) <> 0.
Proof. vm_compute. discriminate. Qed.

Lemma pair_row_nonneg : nonneg pair_row.
Proof.
  intros idx Hidx. apply in_range_4 in Hidx.
  destruct Hidx as (b & c & i & j & -> & Hb & Hc & Hi & Hj).
  assert (b = 0) by lia. assert (c = 0) by lia. assert (i = 0) by lia.
  subst b c i.
  destruct j as [|[|j]]; [vm_compute; discriminate
                         |vm_compute; discriminate|lia].
Qed.

(** The worked example of the class documentation: a 5x5 block of ones on
    a 7x7 zero background responds at the four corners of the block. *)
Example corner_harris_square7 :
  values (corner_harris Image.spatial_gradient Image.gaussian_blur
            (PyTensor square7) k004)
  = Some (List.map (fun z : Z => Some (z # 1)%Q)
       [0; 0; 0; 0; 0; 0; 0;
        0; 1; 0; 0; 0; 1; 0;
        0; 0; 0; 0; 0; 0; 0;
        0; 0; 0; 0; 0; 0; 0;
        0; 0; 0; 0; 0; 0; 0;
        0; 1; 0; 0; 0; 1; 0;
        0; 0; 0; 0; 0; 0; 0]%Z).
Proof. vm_compute. reflexivity. Qed.

(** * Lemmas on binary32 numbers *)

(** ** The order of the format *)
Lemma SFcompare_key (u v : spec_float) :
  F32.is_nan u = false -> F32.is_nan v = false ->
  SFcompare u v = Some (F32.lex3 (F32.key u) (F32.key v)).
Proof.
  destruct u as [s1|s1| |s1 m1 e1], v as [s2|s2| |s2 m2 e2];
    try discriminate; intros _ _;
    try (destruct s1, s2; reflexivity).
  destruct s1, s2; try reflexivity; simpl.
  rewrite Z.compare_opp, (Z.compare_antisym e1 e2).
  destruct (e1 ?= e2)%Z; reflexivity.
Qed.

Lemma lex3_spec (p q : Z * Z * Z) :
  match F32.lex3 p q with
  | Lt => F32.klt p q
  | Eq => p = q
  | Gt => F32.klt q p
  end.
Proof.
  destruct p as [[a b] c], q as [[a' b'] c']. unfold F32.lex3, F32.klt.
  destruct (Z.compare_spec a a'); [|lia|lia].
  destruct (Z.compare_spec b b'); [|lia|lia].
  destruct (Z.compare_spec c c'); [|lia|lia].
  congruence.
Qed.

Lemma klt_irrefl (p : Z * Z * Z) : ~ F32.klt p p.
Proof. destruct p as [[a b] c]. unfold F32.klt. lia. Qed.

Lemma compare_nan_l (v : spec_float) : SFcompare S754_nan v = None.
Proof. reflexivity. Qed.

Lemma compare_nan_r (u : spec_float) : SFcompare u S754_nan = None.
Proof. destruct u; reflexivity. Qed.

Lemma is_nan_true (v : spec_float) : F32.is_nan v = true -> v = S754_nan.
Proof. destruct v; try discriminate. reflexivity. Qed.

Lemma SFleb_key (u v : spec_float) :
  SFleb u v = true <->
  F32.is_nan u = false /\ F32.is_nan v = false
  /\ F32.kle (F32.key u) (F32.key v).
Proof.
  unfold SFleb.
  destruct (F32.is_nan u) eqn:Eu.
  { apply is_nan_true in Eu. subst u. rewrite compare_nan_l.
    split; [discriminate|intros (H & _); discriminate]. }
  destruct (F32.is_nan v) eqn:Ev.
  { apply is_nan_true in Ev. subst v. rewrite compare_nan_r.
    split; [discriminate|intros (_ & H & _); discriminate]. }
  rewrite (SFcompare_key u v Eu Ev).
  pose proof (lex3_spec (F32.key u) (F32.key v)) as H.
  destruct (F32.key u) as [[a b] c], (F32.key v) as [[a' b'] c'].
  destruct (F32.lex3 (a, b, c) (a', b', c')); unfold F32.klt, F32.kle in *.
  - inversion H; subst. split; [intros _; repeat split; lia|reflexivity].
  - split; [intros _; repeat split; lia|reflexivity].
  - split; [discriminate|intros (_ & _ & H'); lia].
Qed.

Lemma SFltb_key (u v : spec_float) :
  SFltb u v = true <->
  F32.is_nan u = false /\ F32.is_nan v = false
  /\ F32.klt (F32.key u) (F32.key v).
Proof.
  unfold SFltb.
  destruct (F32.is_nan u) eqn:Eu.
  { apply is_nan_true in Eu. subst u. rewrite compare_nan_l.
    split; [discriminate|intros (H & _); discriminate]. }
  destruct (F32.is_nan v) eqn:Ev.
  { apply is_nan_true in Ev. subst v. rewrite compare_nan_r.
    split; [discriminate|intros (_ & H & _); discriminate]. }
  rewrite (SFcompare_key u v Eu Ev).
  pose proof (lex3_spec (F32.key u) (F32.key v)) as H.
  destruct (F32.key u) as [[a b] c], (F32.key v) as [[a' b'] c'].
  destruct (F32.lex3 (a, b, c) (a', b', c')); unfold F32.klt, F32.kle in *.
  - inversion H; subst. split; [discriminate|intros (_ & _ & H'); lia].
  - split; [intros _; repeat split; lia|reflexivity].
  - split; [discriminate|intros (_ & _ & H'); lia].
Qed.

Lemma SFeqb_key (u v : spec_float) :
  SFeqb u v = true <->
  F32.is_nan u = false /\ F32.is_nan v = false /\ F32.key u = F32.key v.
Proof.
  unfold SFeqb.
  destruct (F32.is_nan u) eqn:Eu.
  { apply is_nan_true in Eu. subst u. rewrite compare_nan_l.
    split; [discriminate|intros (H & _); discriminate]. }
  destruct (F32.is_nan v) eqn:Ev.
  { apply is_nan_true in Ev. subst v. rewrite compare_nan_r.
    split; [discriminate|intros (_ & H & _); discriminate]. }
  rewrite (SFcompare_key u v Eu Ev).
  pose proof (lex3_spec (F32.key u) (F32.key v)) as H.
  destruct (F32.lex3 (F32.key u) (F32.key v)).
  - split; [intros _; auto|reflexivity].
  - split; [discriminate|]. intros (_ & _ & H'). rewrite H' in H.
    now apply klt_irrefl in H.
  - split; [discriminate|]. intros (_ & _ & H'). rewrite H' in H.
    now apply klt_irrefl in H.
Qed.

Lemma lt32_not_nan (u v : spec_float) :
  F32.lt u v -> F32.is_nan u = false /\ F32.is_nan v = false.
Proof. intros H. apply SFltb_key in H. tauto. Qed.

Lemma le32_refl (v : spec_float) : F32.is_nan v = false -> F32.le v v.
Proof.
  intros H. apply SFleb_key. repeat split; try assumption.
  destruct (F32.key v) as [[a b] c]. unfold F32.kle. lia.
Qed.

Lemma le32_trans (u v w : spec_float) :
  F32.le u v -> F32.le v w -> F32.le u w.
Proof.
  intros H1 H2. apply SFleb_key in H1, H2. apply SFleb_key.
  destruct H1 as (Hu & _ & H1), H2 as (_ & Hw & H2).
  repeat split; try assumption.
  destruct (F32.key u) as [[a b] c], (F32.key v) as [[a' b'] c'],
    (F32.key w) as [[a'' b''] c'']. unfold F32.kle in *. lia.
Qed.

Lemma lt32_le (u v : spec_float) : F32.lt u v -> F32.le u v.
Proof.
  intros H. apply SFltb_key in H. apply SFleb_key.
  destruct H as (Hu & Hv & H). repeat split; try assumption.
  destruct (F32.key u) as [[a b] c], (F32.key v) as [[a' b'] c'].
  unfold F32.kle, F32.klt in *. lia.
Qed.

Lemma lt32_le_trans (u v w : spec_float) :
  F32.lt u v -> F32.le v w -> F32.lt u w.
Proof.
  intros H1 H2. apply SFltb_key in H1. apply SFleb_key in H2.
  apply SFltb_key.
  destruct H1 as (Hu & _ & H1), H2 as (_ & Hw & H2).
  repeat split; try assumption.
  destruct (F32.key u) as [[a b] c], (F32.key v) as [[a' b'] c'],
    (F32.key w) as [[a'' b''] c'']. unfold F32.kle, F32.klt in *. lia.
Qed.

(** Two numbers that are not NaN are comparable. *)
Lemma not_lt32_le (u v : spec_float) :
  F32.is_nan u = false -> F32.is_nan v = false ->
  SFltb u v = false -> F32.le v u.
Proof.
  intros Hu Hv H. apply SFleb_key. repeat split; try assumption.
  destruct (SFltb u v) eqn:E; [discriminate|].
  assert (Hn : ~ F32.klt (F32.key u) (F32.key v)).
  { intros Hk. assert (SFltb u v = true) by (apply SFltb_key; auto).
    congruence. }
  destruct (F32.key u) as [[a b] c], (F32.key v) as [[a' b'] c'].
  unfold F32.kle, F32.klt in *. lia.
Qed.

Lemma lt32_not_le (u v : spec_float) : F32.lt u v -> ~ F32.le v u.
Proof.
  intros H1 H2. apply SFltb_key in H1. apply SFleb_key in H2.
  destruct H1 as (_ & _ & H1), H2 as (_ & _ & H2).
  destruct (F32.key u) as [[a b] c], (F32.key v) as [[a' b'] c'].
  unfold F32.kle, F32.klt in *. lia.
Qed.

Lemma le32_antisym (u v : spec_float) :
  F32.le u v -> F32.le v u -> SFeqb u v = true.
Proof.
  intros H1 H2. apply SFleb_key in H1, H2. apply SFeqb_key.
  destruct H1 as (Hu & Hv & H1), H2 as (_ & _ & H2).
  repeat split; try assumption.
  destruct (F32.key u) as [[a b] c], (F32.key v) as [[a' b'] c'].
  unfold F32.kle in *.
  assert (a = a' /\ b = b' /\ c = c') as (-> & -> & ->) by lia.
  reflexivity.
Qed.

Lemma lt32_neq (u v : spec_float) : F32.lt u v -> SFeqb u v = false.
Proof.
  intros H. destruct (SFeqb u v) eqn:E; [|reflexivity]. exfalso.
  apply SFltb_key in H. apply SFeqb_key in E.
  destruct H as (_ & _ & H), E as (_ & _ & E). rewrite E in H.
  now apply klt_irrefl in H.
Qed.

(** Equal positive numbers have the same mantissa and exponent. *)
Lemma SFeqb_positive (m : positive) (e : Z) (v : spec_float) :
  SFeqb v (S754_finite false m e) = true -> v = S754_finite false m e.
Proof.
  intros H. apply SFeqb_key in H. destruct H as (_ & _ & H).
  destruct v as [s|[|]| |[|] m' e']; simpl in H; try discriminate.
  inversion H. reflexivity.
Qed.

(** ** Rounding *)
Open Scope Z_scope.

Lemma digits2_bounds (p : positive) :
  2 ^ (Z.pos (digits2_pos p) - 1) <= Z.pos p < 2 ^ Z.pos (digits2_pos p).
Proof.
  induction p as [p IH|p IH|]; cbn [digits2_pos].
  - rewrite Pos2Z.inj_succ.
    replace (Z.succ (Z.pos (digits2_pos p)) - 1)
      with (Z.succ (Z.pos (digits2_pos p) - 1)) by lia.
    rewrite !Z.pow_succ_r by lia. lia.
  - rewrite Pos2Z.inj_succ.
    replace (Z.succ (Z.pos (digits2_pos p)) - 1)
      with (Z.succ (Z.pos (digits2_pos p) - 1)) by lia.
    rewrite !Z.pow_succ_r by lia. lia.
  - simpl. lia.
Qed.

(** A number below [2^n] has at most [n] digits. *)
Lemma Zdigits2_le (m n : Z) :
  0 <= m -> 0 <= n -> m < 2 ^ n -> Zdigits2 m <= n.
Proof.
  intros Hm Hn Hlt. destruct m as [|p|p]; simpl; [lia| |lia].
  pose proof (digits2_bounds p) as [Hlo _].
  destruct (Z_le_gt_dec (Z.pos (digits2_pos p)) n) as [|Hgt]; [assumption|].
  exfalso. assert (2 ^ n <= 2 ^ (Z.pos (digits2_pos p) - 1))
    by (apply Z.pow_le_mono_r; lia). lia.
Qed.

Lemma shr_m_shr_1 (mrs : shr_record) :
  0 <= shr_m mrs -> shr_m (shr_1 mrs) = shr_m mrs / 2.
Proof.
  destruct mrs as [m r s]. cbn [shr_m]. intros Hm.
  destruct m as [|[p|p|]|p]; cbn [shr_1 shr_m]; try lia.
  - reflexivity.
  - apply Z.div_unique with (r := 1); lia.
  - apply Z.div_unique with (r := 0); lia.
  - reflexivity.
Qed.

(** Shifting a mantissa right by [p] digits divides it by [2^p]. *)
Lemma shr_m_iter (p : positive) (mrs : shr_record) :
  0 <= shr_m mrs ->
  shr_m (iter_pos shr_1 p mrs) = shr_m mrs / 2 ^ Z.pos p.
Proof.
  revert mrs. induction p as [p IH|p IH|]; intros mrs Hm; cbn [iter_pos].
  - assert (H1 : 0 <= shr_m (shr_1 mrs))
      by (rewrite shr_m_shr_1 by assumption; apply Z.div_pos; lia).
    assert (H2 : 0 <= shr_m (iter_pos shr_1 p (shr_1 mrs)))
      by (rewrite IH by assumption;
          apply Z.div_pos; [|apply Z.pow_pos_nonneg]; lia).
    rewrite IH, IH, shr_m_shr_1 by assumption.
    rewrite !Z.div_div by (try apply Z.pow_pos_nonneg; lia).
    f_equal.
    assert (E : Z.pos p~1 = Z.succ (Z.pos p + Z.pos p)) by lia.
    rewrite E, Z.pow_succ_r, Z.pow_add_r by lia. lia.
  - assert (H2 : 0 <= shr_m (iter_pos shr_1 p mrs))
      by (rewrite IH by assumption;
          apply Z.div_pos; [|apply Z.pow_pos_nonneg]; lia).
    rewrite IH, IH by assumption.
    rewrite !Z.div_div by (try apply Z.pow_pos_nonneg; lia).
    f_equal.
    assert (E : Z.pos p~0 = Z.pos p + Z.pos p) by lia.
    rewrite E, Z.pow_add_r by lia. lia.
  - rewrite shr_m_shr_1 by assumption. reflexivity.
Qed.

Lemma shr_m_of_loc (m : Z) (l : location) :
  shr_m (shr_record_of_loc m l) = m.
Proof. destruct l as [|[]]; reflexivity. Qed.

Lemma round_nearest_even_bounds (m : Z) (l : location) :
  m <= round_nearest_even m l <= m + 1.
Proof.
  destruct l as [|[]]; simpl; try lia. destruct (Z.even m); lia.
Qed.

(** Shifting to the exponent of the format keeps a mantissa that is below
    [2^-e] (at most [2^-e] when [c] is [1]) so for the new exponent. *)
Lemma shr_fexp_below (m e : Z) (l : location) (c : Z) :
  0 <= m -> m < 2 ^ (- e) + c -> 0 <= c <= 1 -> e <= -23 ->
  let '(mrs, e') := shr_fexp F32.prec F32.emax m e l in
  0 <= shr_m mrs /\ shr_m mrs < 2 ^ (- e') + c /\ e' <= -23.
Proof.
  intros Hm Hlt Hc He. unfold shr_fexp, shr.
  assert (Hd : Zdigits2 m <= - e + 1).
  { apply Zdigits2_le; try lia.
    rewrite Z.pow_add_r by lia. change (2 ^ 1) with 2.
    assert (0 < 2 ^ (- e)) by (apply Z.pow_pos_nonneg; lia). lia. }
  assert (Hf : fexp F32.prec F32.emax (Zdigits2 m + e) <= -23)
    by (unfold fexp, emin, F32.prec, F32.emax; lia).
  destruct (fexp F32.prec F32.emax (Zdigits2 m + e) - e) as [|n|n] eqn:En.
  - rewrite shr_m_of_loc. auto.
  - rewrite shr_m_iter by (rewrite shr_m_of_loc; assumption).
    rewrite shr_m_of_loc.
    assert (Hp : 0 < 2 ^ Z.pos n) by (apply Z.pow_pos_nonneg; lia).
    split; [apply Z.div_pos; lia|].
    split; [|lia].
    assert (Hq : m / 2 ^ Z.pos n <= 2 ^ (- (e + Z.pos n))).
    { apply Z.div_le_upper_bound; [assumption|].
      rewrite <- Z.pow_add_r by lia.
      replace (Z.pos n + - (e + Z.pos n)) with (- e) by lia. lia. }
    destruct (Z.eq_dec c 1) as [->|]; [lia|].
    assert (c = 0) by lia. subst c. rewrite Z.add_0_r in *.
    apply Z.div_lt_upper_bound; [assumption|].
    rewrite <- Z.pow_add_r by lia.
    replace (Z.pos n + - (e + Z.pos n)) with (- e) by lia. assumption.
  - rewrite shr_m_of_loc. auto.
Qed.

(** Rounding a quotient below one gives a number between zero and one. *)
Lemma binary_round_aux_below_one (q e : Z) (l : location) :
  0 <= q -> q < 2 ^ (- e) -> e <= -24 ->
  F32.le F32.zero (binary_round_aux F32.prec F32.emax false q e l)
  /\ F32.le (binary_round_aux F32.prec F32.emax false q e l) F32.one.
Proof.
  intros Hq Hlt He. unfold binary_round_aux.
  pose proof (@shr_fexp_below q e l 0 Hq) as H1.
  destruct (shr_fexp F32.prec F32.emax q e l) as [mrs1 e1].
  destruct H1 as (Hm1 & Hlt1 & He1); try lia.
  set (mr := round_nearest_even (shr_m mrs1) (loc_of_shr_record mrs1)).
  pose proof (round_nearest_even_bounds (shr_m mrs1) (loc_of_shr_record mrs1))
    as Hr. fold mr in Hr.
  pose proof (@shr_fexp_below mr e1 loc_Exact 1) as H2.
  destruct (shr_fexp F32.prec F32.emax mr e1 loc_Exact) as [mrs2 e2].
  destruct H2 as (Hm2 & Hlt2 & He2); try lia.
  destruct (shr_m mrs2) as [|m|m] eqn:Em; [split; reflexivity| |lia].
  replace (e2 <=? F32.emax - F32.prec) with true
    by (symmetry; apply Z.leb_le; unfold F32.emax, F32.prec; lia).
  split; [reflexivity|].
  apply SFleb_key. repeat split. unfold F32.one, F32.key, F32.kle.
  right. split; [reflexivity|].
  destruct (Z.eq_dec e2 (-23)) as [->|]; [|lia].
  right. split; [reflexivity|]. change (2 ^ (- -23)) with 8388608 in Hlt2. lia.
Qed.

(** ** Products and quotients *)

(** [x / x = 1.0] for every finite [x] other than zero. *)
Lemma SFdiv_same (s : bool) (m : positive) (e : Z) :
  SFdiv F32.prec F32.emax (S754_finite s m e) (S754_finite s m e) = F32.one.
Proof.
  unfold SFdiv, SFdiv_core_binary.
  rewrite Z.sub_diag.
  replace (Zdigits2 (Z.pos m) + e - (Zdigits2 (Z.pos m) + e)) with 0 by lia.
  change (Z.min (fexp F32.prec F32.emax 0) 0) with (-24).
  change (0 - -24) with 24.
  cbv iota beta.
  rewrite Z.shiftl_mul_pow2 by lia.
  assert (H : Z.div_eucl (Z.pos m * 2 ^ 24) (Z.pos m) = (2 ^ 24, 0)).
  { pose proof (Z.div_eucl_eq (Z.pos m * 2 ^ 24) (Z.pos m)) as H1.
    pose proof (Z.mod_pos_bound (Z.pos m * 2 ^ 24) (Z.pos m)) as H2.
    unfold Z.modulo in H2.
    destruct (Z.div_eucl (Z.pos m * 2 ^ 24) (Z.pos m)) as [q r].
    specialize (H1 ltac:(lia)). specialize (H2 ltac:(lia)).
    assert (q = 2 ^ 24) by nia. subst q. f_equal. lia. }
  rewrite H.
  assert (Hl : new_location (Z.pos m) 0 = loc_Exact).
  { unfold new_location, new_location_even, new_location_odd.
    destruct (Z.even (Z.pos m)); reflexivity. }
  rewrite Hl. destruct s; reflexivity.
Qed.

Lemma bounded_inv (m : positive) (e : Z) :
  bounded F32.prec F32.emax m e = true ->
  e = Z.max (Z.pos (digits2_pos m) + e - 24) (-149) /\ e <= 104.
Proof.
  unfold bounded, canonical_mantissa, fexp, emin, F32.prec, F32.emax.
  intros H. apply andb_true_iff in H. destruct H as [H1 H2].
  apply Z.eqb_eq in H1. apply Z.leb_le in H2. lia.
Qed.

Lemma SFdiv_below_one (m1 : positive) (e1 : Z) (m2 : positive) (e2 : Z) :
  bounded F32.prec F32.emax m1 e1 = true ->
  bounded F32.prec F32.emax m2 e2 = true ->
  e1 < e2 \/ e1 = e2 /\ Z.pos m1 < Z.pos m2 ->
  F32.le F32.zero (SFdiv F32.prec F32.emax (S754_finite false m1 e1)
                     (S754_finite false m2 e2))
  /\ F32.le (SFdiv F32.prec F32.emax (S754_finite false m1 e1)
               (S754_finite false m2 e2)) F32.one.
Proof.
  intros Hb1 Hb2 Hlt.
  apply bounded_inv in Hb1, Hb2.
  destruct Hb1 as [Hc1 _], Hb2 as [Hc2 _].
  pose proof (digits2_bounds m1) as [Hlo1 Hhi1].
  pose proof (digits2_bounds m2) as [Hlo2 Hhi2].
  set (d1 := Z.pos (digits2_pos m1)) in *.
  set (d2 := Z.pos (digits2_pos m2)) in *.
  assert (Hd1 : 1 <= d1 <= 24) by (subst d1; lia).
  assert (Hd2 : 1 <= d2 <= 24) by (subst d2; lia).
  assert (Hval : Z.pos m1 < Z.pos m2 * 2 ^ (e2 - e1) /\ e1 <= e2
                 /\ d1 + e1 <= d2 + e2).
  { destruct Hlt as [He12|[-> Hm]].
    - assert (d2 = 24) by lia.
      assert (H23 : 2 ^ 23 <= Z.pos m2)
        by (replace 23 with (d2 - 1) by lia; assumption).
      assert (H24 : Z.pos m1 < 2 ^ 24).
      { apply Z.lt_le_trans with (1 := Hhi1). apply Z.pow_le_mono_r; lia. }
      assert (H2 : 2 ^ 1 <= 2 ^ (e2 - e1)) by (apply Z.pow_le_mono_r; lia).
      change (2 ^ 1) with 2 in H2. change (2 ^ 24) with (2 * 2 ^ 23) in H24.
      repeat split; try lia; nia.
    - rewrite Z.sub_diag. change (2 ^ 0) with 1.
      repeat split; try lia.
      destruct (Z_le_gt_dec d1 d2) as [|Hgt]; [lia|]. exfalso.
      assert (2 ^ d2 <= 2 ^ (d1 - 1)) by (apply Z.pow_le_mono_r; lia). lia. }
  destruct Hval as (Hval & He12 & Hde).
  unfold SFdiv, SFdiv_core_binary. cbn [xorb Zdigits2]. fold d1 d2.
  set (e' := Z.min (fexp F32.prec F32.emax (d1 + e1 - (d2 + e2))) (e1 - e2)).
  assert (He' : e' <= -24 /\ e' <= e1 - e2)
    by (subst e'; unfold fexp, emin, F32.prec, F32.emax; lia).
  set (s := e1 - e2 - e').
  assert (Hs : 0 <= s) by (subst s; lia).
  set (m' := match s with
             | 0 => Z.pos m1
             | Z.pos _ => Z.shiftl (Z.pos m1) s
             | Z.neg _ => 0
             end).
  assert (Hm' : m' = Z.pos m1 * 2 ^ s).
  { subst m'. destruct s; [change (2 ^ 0) with 1; lia
                          |apply Z.shiftl_mul_pow2; lia|lia]. }
  assert (Hps : 0 < 2 ^ s) by (apply Z.pow_pos_nonneg; lia).
  assert (Hpe : 0 < 2 ^ (- e')) by (apply Z.pow_pos_nonneg; lia).
  assert (Hbelow : m' < Z.pos m2 * 2 ^ (- e')).
  { rewrite Hm'. replace (- e') with (e2 - e1 + s) by (subst s; lia).
    rewrite Z.pow_add_r by lia. nia. }
  assert (H0 : 0 <= m') by (rewrite Hm'; lia).
  pose proof (Z.div_eucl_eq m' (Z.pos m2)) as Hq.
  pose proof (Z.mod_pos_bound m' (Z.pos m2)) as Hr.
  unfold Z.modulo in Hr.
  destruct (Z.div_eucl m' (Z.pos m2)) as [q r].
  specialize (Hq ltac:(lia)). specialize (Hr ltac:(lia)).
  apply binary_round_aux_below_one; [nia|nia|lia].
Qed.

(** The quotient of two positive numbers of the format, the first at most
    the second, lies between zero and one: the division rounds, but never
    above [1.0]. *)
Lemma SFdiv_le_one (m1 : positive) (e1 : Z) (m2 : positive) (e2 : Z) :
  bounded F32.prec F32.emax m1 e1 = true ->
  bounded F32.prec F32.emax m2 e2 = true ->
  F32.le (S754_finite false m1 e1) (S754_finite false m2 e2) ->
  F32.le F32.zero (SFdiv F32.prec F32.emax (S754_finite false m1 e1)
                     (S754_finite false m2 e2))
  /\ F32.le (SFdiv F32.prec F32.emax (S754_finite false m1 e1)
               (S754_finite false m2 e2)) F32.one.
Proof.
  intros Hb1 Hb2 Hle.
  apply SFleb_key in Hle. destruct Hle as (_ & _ & Hle).
  unfold F32.key, F32.kle in Hle.
  destruct (Z.eq_dec e1 e2) as [He|He];
    [destruct (Pos.eq_dec m1 m2) as [Hm|Hm]|].
  - subst. rewrite SFdiv_same. split; reflexivity.
  - apply SFdiv_below_one; try assumption. right. split; [assumption|].
    assert (Z.pos m1 <> Z.pos m2) by congruence. lia.
  - apply SFdiv_below_one; try assumption. lia.
Qed.

(** [x * 1.0 = x] for every number of the format. *)
Lemma SFmul_one_r (v : spec_float) :
  valid_binary F32.prec F32.emax v = true ->
  SFmul F32.prec F32.emax v F32.one = v.
Proof.
  destruct v as [s|s| |s m e];
    try (intros _; try destruct s; reflexivity).
  cbn [valid_binary]. intros Hb. unfold bounded in Hb.
  apply andb_true_iff in Hb. destruct Hb as [Hc He].
  unfold canonical_mantissa in Hc. apply Z.eqb_eq in Hc.
  unfold F32.one, SFmul. rewrite xorb_false_r, Pos.mul_comm.
  cbn [Pos.mul].
  unfold binary_round_aux, shr_fexp. cbn [Zdigits2 digits2_pos].
  rewrite !Pos2Z.inj_succ.
  set (d := Z.pos (digits2_pos m)) in *.
  match goal with
  | |- context [fexp _ _ (?a + (e + -23)) - (e + -23)] =>
      replace (fexp F32.prec F32.emax (a + (e + -23)) - (e + -23)) with 23
        by (replace (a + (e + -23)) with (d + e) by lia; rewrite Hc; lia)
  end.
  cbn [shr shr_record_of_loc iter_pos shr_1 orb].
  cbn [shr_m loc_of_shr_record round_nearest_even Zdigits2].
  replace (e + -23 + 23) with e by lia.
  fold d. rewrite Hc, Z.sub_diag. cbn [shr shr_m shr_record_of_loc].
  rewrite He. reflexivity.
Qed.

Close Scope Z_scope.

(** ** The pooling kernels *)
Lemma pool_step_from_nan (v : spec_float) :
  F32.Torch.pool_step S754_nan v = S754_nan.
Proof. destruct v; reflexivity. Qed.

Lemma fold_pool_from_nan (l : list spec_float) :
  fold_left F32.Torch.pool_step l S754_nan = S754_nan.
Proof.
  induction l as [|v l IH]; simpl; [reflexivity|].
  now rewrite pool_step_from_nan.
Qed.

(** A NaN under the window is the pooled value. *)
Lemma fold_pool_nan (l : list spec_float) (acc : spec_float) :
  In S754_nan l -> fold_left F32.Torch.pool_step l acc = S754_nan.
Proof.
  revert acc. induction l as [|v l IH]; intros acc; simpl; [tauto|].
  intros [->|Hin]; [|now apply IH].
  unfold F32.Torch.pool_step. simpl. rewrite orb_true_r.
  apply fold_pool_from_nan.
Qed.

(** Without a NaN the pooled value is the largest cell. *)
Lemma fold_pool_spec (l : list spec_float) (acc : spec_float) :
  F32.is_nan acc = false ->
  Forall (fun v => F32.is_nan v = false) l ->
  let M := fold_left F32.Torch.pool_step l acc in
  F32.is_nan M = false /\ (M = acc \/ In M l) /\ F32.le acc M
  /\ forall v, In v l -> F32.le v M.
Proof.
  intros Hacc Hl. revert acc Hacc.
  induction Hl as [|v l Hv Hl IH]; intros acc Hacc; simpl.
  - repeat split; auto using le32_refl. intros v [].
  - assert (Hstep : F32.Torch.pool_step acc v
                    = if SFltb acc v then v else acc)
      by (unfold F32.Torch.pool_step; now rewrite Hv, orb_false_r).
    rewrite Hstep.
    destruct (SFltb acc v) eqn:E.
    + destruct (IH v Hv) as (Hn & Hin & Hle & Hub).
      repeat split; try assumption.
      * right. destruct Hin as [->|Hin]; auto.
      * apply le32_trans with (v := v); [now apply lt32_le|assumption].
      * intros w [<-|Hw]; auto.
    + destruct (IH acc Hacc) as (Hn & Hin & Hle & Hub).
      repeat split; try assumption.
      * destruct Hin as [->|Hin]; auto.
      * intros w [<-|Hw]; auto.
        apply le32_trans with (v := acc); [|assumption].
        now apply not_lt32_le.
Qed.

Lemma le32_ninf (v : spec_float) : F32.le v F32.ninf -> v = F32.ninf.
Proof.
  intros H. apply SFleb_key in H. destruct H as (_ & _ & H).
  destruct v as [s|[|]| |[|] m e]; simpl in H; try lia. reflexivity.
Qed.

(** ** The pooling window *)
Lemma in_window32 ks pd (x : tensor spec_float) B C H W b c i j v :
  shape x = [B; C; H; W] ->
  In v (F32.Torch.window ks pd x b c i j) ->
  v = F32.ninf
  \/ exists r s, covers H (fst ks) (fst pd) i r
                 /\ covers W (snd ks) (snd pd) j s
                 /\ v = get F32.zero x [b; c; r; s].
Proof.
  intros Hs. unfold F32.Torch.window, covers. rewrite in_flat_map.
  intros (di & Hdi & Hin). apply in_map_iff in Hin.
  destruct Hin as (dj & Hq & Hdj).
  apply in_zrange in Hdi, Hdj. unfold F32.Torch.padded in Hq.
  rewrite Hs in Hq.
  destruct (_ && _) eqn:E in Hq; [|now left].
  repeat (apply andb_true_iff in E; destruct E as [E ?]).
  right.
  exists (Z.to_nat (Z.of_nat i + di - fst pd)),
         (Z.to_nat (Z.of_nat j + dj - snd pd)).
  repeat split; try lia. now symmetry.
Qed.

Lemma window_has32 ks pd (x : tensor spec_float) B C H W b c i j r s :
  shape x = [B; C; H; W] ->
  covers H (fst ks) (fst pd) i r -> covers W (snd ks) (snd pd) j s ->
  In (get F32.zero x [b; c; r; s]) (F32.Torch.window ks pd x b c i j).
Proof.
  intros Hs (Hr & Hr') (Hs1 & Hs'). unfold F32.Torch.window.
  apply in_flat_map.
  exists (Z.of_nat r - (Z.of_nat i - fst pd))%Z.
  split; [apply in_zrange; lia|].
  apply in_map_iff.
  exists (Z.of_nat s - (Z.of_nat j - snd pd))%Z.
  split; [|apply in_zrange; lia].
  unfold F32.Torch.padded. rewrite Hs.
  replace (Z.of_nat i + _ - fst pd)%Z with (Z.of_nat r) by lia.
  replace (Z.of_nat j + _ - snd pd)%Z with (Z.of_nat s) by lia.
  rewrite !Nat2Z.id.
  replace (_ && _) with true; [reflexivity|].
  symmetry. repeat (apply andb_true_iff; split); lia.
Qed.

(** An entry is compared with the largest entry under its window, provided
    no entry of its slice is a NaN. *)
Lemma local_max_spec32 (ky kx : Z) (x : tensor spec_float)
    (B C H W b c i j : nat) :
  shape x = [B; C; H; W] ->
  fits H ky = true -> fits W kx = true -> i < H -> j < W ->
  (forall r s, r < H -> s < W ->
     F32.is_nan (get F32.zero x [b; c; r; s]) = false) ->
  let m := F32.local_max ky kx x b c i j in
  F32.is_nan m = false
  /\ (exists r s, window_of H ky i r /\ window_of W kx j s
                  /\ m = get F32.zero x [b; c; r; s])
  /\ (forall r s, window_of H ky i r -> window_of W kx j s ->
                  F32.le (get F32.zero x [b; c; r; s]) m).
Proof.
  intros Hs HfH HfW Hi Hj Hnan m.
  set (ks := (ky, kx)).
  set (pd := (NonMaximaSuppression2d.pad ky, NonMaximaSuppression2d.pad kx)).
  set (l := F32.Torch.window ks pd x b c (anchor H ky i) (anchor W kx j)).
  assert (Em : m = fold_left F32.Torch.pool_step l F32.ninf)
    by (unfold m, F32.local_max; now rewrite Hs).
  clearbody m.
  assert (Hl : Forall (fun v => F32.is_nan v = false) l).
  { apply Forall_forall. intros v Hv.
    destruct (@in_window32 ks pd x B C H W b c _ _ v Hs Hv)
      as [->|(r & s & Hr & Hc & ->)]; [reflexivity|].
    apply Hnan; [apply Hr|apply Hc]. }
  destruct (@fold_pool_spec l F32.ninf eq_refl Hl) as (Hn & Hin & _ & Hub).
  rewrite <- Em in Hn, Hin, Hub.
  assert (Hself : In (get F32.zero x [b; c; i; j]) l).
  { apply (@window_has32 ks pd x B C H W b c _ _ i j Hs).
    - now apply window_of_self.
    - now apply window_of_self. }
  assert (Hpad : m = F32.ninf -> m = get F32.zero x [b; c; i; j]).
  { intros Hm. rewrite Hm. symmetry. apply le32_ninf. rewrite <- Hm.
    now apply Hub. }
  split; [assumption|]. split.
  - destruct Hin as [Hm|Hm].
    + exists i, j. split; [now apply window_of_self|].
      split; [now apply window_of_self|now apply Hpad].
    + destruct (@in_window32 ks pd x B C H W b c _ _ m Hs Hm)
        as [Hm'|(r & s & Hr & Hc & Hm')].
      * exists i, j. split; [now apply window_of_self|].
        split; [now apply window_of_self|now apply Hpad].
      * exists r, s. auto.
  - intros r s Hr Hc. apply Hub.
    now apply (@window_has32 ks pd x B C H W b c _ _ r s Hs).
Qed.

(** ** The suppressor *)
Lemma where_same32 (c : tensor bool) (a b : tensor spec_float) :
  shape a = shape c -> shape b = shape c ->
  F32.Torch.where_ c a b =
  Ok (tabulate (shape c) (fun idx =>
        if get false c idx then get F32.zero a idx else get F32.zero b idx)).
Proof.
  intros Ha Hb. unfold F32.Torch.where_.
  rewrite (broadcast2_same F32.zero F32.zero pair a b) by congruence.
  cbn [bind]. rewrite broadcast2_same by (rewrite shape_tabulate; congruence).
  f_equal. apply tabulate_ext. intros idx Hidx.
  rewrite get_tabulate by (rewrite Ha; assumption). reflexivity.
Qed.

(** The entry point in binary32 raises and returns on the same shapes as
    over the rationals, and returns [F32.nms_map]. *)
Lemma nms_unfold32 (ky kx : Z) (x : tensor spec_float) (B C H W : nat) :
  shape x = [B; C; H; W] ->
  F32.non_maxima_suppression2d x (KTuple [ky; kx]) =
  if nms_ok ky kx (shape x) then Ok (F32.nms_map ky kx x)
  else Raise RuntimeError.
Proof.
  intros Hs.
  unfold F32.non_maxima_suppression2d, NonMaximaSuppression2d.init,
    NonMaximaSuppression2d._compute_zero_padding2d. simpl.
  unfold F32.NonMaximaSuppression2d.forward,
    F32.NonMaximaSuppression2d.max_pool2d, F32.Torch.max_pool2d.
  rewrite Hs.
  cbn [length Nat.eqb py_assert bind NonMaximaSuppression2d.kernel_size
       NonMaximaSuppression2d.padding fst snd].
  unfold nms_ok, fits.
  destruct (0 <? ky)%Z eqn:Eky;
    [apply Z.ltb_lt in Eky|rewrite ?andb_false_r; reflexivity].
  destruct (0 <? kx)%Z eqn:Ekx;
    [apply Z.ltb_lt in Ekx|simpl; rewrite ?andb_false_r; reflexivity].
  pose proof (pad_bounds Eky) as Hpy. pose proof (pad_bounds Ekx) as Hpx.
  replace ((0 <=? _) && _ && _ && _)%Z with true
    by (symmetry; repeat (apply andb_true_iff; split); lia).
  cbn [negb andb].
  destruct (numel [B; C; H; W] =? 0) eqn:En; [reflexivity|].
  cbn [negb andb].
  destruct (1 <=? Torch.pool_out H ky _)%Z eqn:EoH;
    [apply Z.leb_le in EoH|reflexivity].
  destruct (1 <=? Torch.pool_out W kx _)%Z eqn:EoW;
    [apply Z.leb_le in EoW|simpl; rewrite ?andb_false_r; reflexivity].
  cbn [negb andb bind].
  unfold F32.Torch.eq, broadcast2 at 1. rewrite Hs, shape_tabulate.
  rewrite broadcast_shapes_4.
  fold (pooled_extent H ky). fold (pooled_extent W kx).
  rewrite !bdim_pooled by assumption.
  destruct ((pooled_extent H ky =? H) || _) eqn:EfH; [|reflexivity].
  destruct ((pooled_extent W kx =? W) || _) eqn:EfW; [|reflexivity].
  cbn [bind andb].
  rewrite where_same32 by (rewrite shape_tabulate; exact Hs).
  cbn [bind]. unfold F32.Torch.mul.
  rewrite broadcast2_same by (rewrite !shape_tabulate; auto).
  f_equal. unfold F32.nms_map. rewrite Hs. apply tabulate_ext.
  intros idx Hidx. rewrite shape_tabulate.
  rewrite !get_tabulate by assumption.
  apply in_range_4 in Hidx.
  destruct Hidx as (b & c & i & j & -> & Hb & Hc & Hi & Hj).
  rewrite !bindex_4 by assumption.
  rewrite !(@bpos_lt H), !(@bpos_lt W) by assumption.
  rewrite get_tabulate
    by (apply in_range_4; exists b, c, (anchor H ky i), (anchor W kx j);
        repeat split; auto; apply anchor_lt; assumption).
  unfold F32.Torch.ones_like, F32.Torch.zeros_like.
  rewrite !get_tabulate
    by (rewrite Hs; apply in_range_4; exists b, c, i, j; repeat split; auto).
  unfold F32.keep, F32.local_max. rewrite Hs. reflexivity.
Qed.

Lemma get_nms_map32 (ky kx : Z) (x : tensor spec_float)
    (B C H W b c i j : nat) :
  shape x = [B; C; H; W] -> b < B -> c < C -> i < H -> j < W ->
  get F32.zero (F32.nms_map ky kx x) [b; c; i; j] =
  F32.keep (get F32.zero x [b; c; i; j]) (F32.local_max ky kx x b c i j).
Proof.
  intros Hs Hb Hc Hi Hj. unfold F32.nms_map.
  rewrite get_tabulate; [reflexivity|].
  rewrite Hs. apply in_range_4. exists b, c, i, j. auto.
Qed.

Lemma keep32_eq (v m : spec_float) :
  valid_binary F32.prec F32.emax v = true ->
  SFeqb v m = true -> F32.keep v m = v.
Proof. intros Hv E. unfold F32.keep. rewrite E. now apply SFmul_one_r. Qed.

Lemma keep32_neq (s : bool) (p : positive) (e : Z) (m : spec_float) :
  SFeqb (S754_finite s p e) m = false ->
  F32.keep (S754_finite s p e) m = S754_zero s.
Proof.
  intros E. unfold F32.keep. rewrite E. simpl. now rewrite xorb_false_r.
Qed.

(** A positive number of the format. *)
Lemma positive_finite32 (v : spec_float) :
  F32.finite32 v = true -> F32.lt F32.zero v ->
  exists m e, v = S754_finite false m e
              /\ bounded F32.prec F32.emax m e = true.
Proof.
  intros Hf Hpos. apply SFltb_key in Hpos. destruct Hpos as (_ & _ & Hpos).
  destruct v as [s|s| |[|] m e]; simpl in Hpos, Hf; try discriminate;
    try lia.
  exists m, e. auto.
Qed.

(** On a slice of positive finite numbers: an entry at least every entry
    under its window is kept; an entry below some entry under its window
    becomes zero. *)
Lemma nms_map_entry32 (ky kx : Z) (x : tensor spec_float)
    (B C H W b c i j : nat) :
  shape x = [B; C; H; W] ->
  nms_ok ky kx [B; C; H; W] = true ->
  b < B -> c < C -> i < H -> j < W ->
  (forall r s, r < H -> s < W ->
     F32.finite32 (get F32.zero x [b; c; r; s]) = true
     /\ F32.lt F32.zero (get F32.zero x [b; c; r; s])) ->
  let v := get F32.zero x [b; c; i; j] in
  let o := get F32.zero (F32.nms_map ky kx x) [b; c; i; j] in
  (o = v \/ o = F32.zero)
  /\ ((forall r s, window_of H ky i r -> window_of W kx j s ->
         F32.le (get F32.zero x [b; c; r; s]) v) -> o = v)
  /\ ((exists r s, window_of H ky i r /\ window_of W kx j s
                   /\ F32.lt v (get F32.zero x [b; c; r; s]))
      -> o = F32.zero).
Proof.
  intros Hs Hok Hb Hc Hi Hj Hreg v o.
  apply nms_ok_inv in Hok. destruct Hok as (HfH & HfW & _).
  assert (Hnan : forall r s, r < H -> s < W ->
            F32.is_nan (get F32.zero x [b; c; r; s]) = false).
  { intros r s Hr Hs'. destruct (Hreg r s Hr Hs') as [_ Hp].
    now apply lt32_not_nan in Hp. }
  destruct (@local_max_spec32 ky kx x B C H W b c i j Hs HfH HfW Hi Hj Hnan)
    as (Hm & (r0 & s0 & Hr0 & Hs0 & Hatt) & Hub).
  set (m := F32.local_max ky kx x b c i j) in *.
  destruct (Hreg i j Hi Hj) as [Hfin Hpos]. fold v in Hfin, Hpos.
  destruct (@positive_finite32 v Hfin Hpos) as (p & e & Hv & Hbd).
  assert (Hvalid : valid_binary F32.prec F32.emax v = true)
    by (rewrite Hv; exact Hbd).
  assert (Ho : o = F32.keep v m).
  { unfold o. now rewrite (@get_nms_map32 ky kx x B C H W b c i j). }
  assert (Hkept : SFeqb v m = true -> o = v)
    by (intros E; rewrite Ho; now apply keep32_eq).
  assert (Hzero : SFeqb v m = false -> o = F32.zero).
  { intros E. rewrite Ho. rewrite Hv in E |- *. now apply keep32_neq. }
  split; [|split].
  - destruct (SFeqb v m) eqn:E; auto.
  - intros Hall. apply Hkept. apply le32_antisym.
    + apply Hub; now apply window_of_self.
    + rewrite Hatt. now apply Hall.
  - intros (r & s & Hr & Hc' & Hlt). apply Hzero. apply lt32_neq.
    apply lt32_le_trans with (v := get F32.zero x [b; c; r; s]);
      [assumption|now apply Hub].
Qed.

(** ** Normalisation *)
Lemma in_slice32 (x : tensor spec_float) (B C H W b c : nat)
    (v : spec_float) :
  shape x = [B; C; H; W] ->
  In v (F32.Torch.slice_values x b c) <->
  exists i j, i < H /\ j < W /\ v = get F32.zero x [b; c; i; j].
Proof.
  intros Hs. unfold F32.Torch.slice_values. rewrite Hs, in_flat_map. split.
  - intros (i & Hi & Hin). apply in_map_iff in Hin.
    destruct Hin as (j & Hq & Hj). apply in_seq in Hi, Hj.
    exists i, j. repeat split; try lia. now symmetry.
  - intros (i & j & Hi & Hj & ->). exists i. split; [apply in_seq; lia|].
    apply in_map_iff. exists j. split; [reflexivity|apply in_seq; lia].
Qed.

(** The maximum of a non-empty slice without NaN is its largest entry. *)
Lemma slice_max_spec32 (x : tensor spec_float) (B C H W b c : nat) :
  shape x = [B; C; H; W] -> 0 < H -> 0 < W ->
  (forall i j, i < H -> j < W ->
     F32.is_nan (get F32.zero x [b; c; i; j]) = false) ->
  let M := F32.Torch.slice_max x b c in
  F32.is_nan M = false
  /\ (exists i j, i < H /\ j < W /\ M = get F32.zero x [b; c; i; j])
  /\ (forall i j, i < H -> j < W -> F32.le (get F32.zero x [b; c; i; j]) M).
Proof.
  intros Hs HH HW Hnan M.
  set (l := F32.Torch.slice_values x b c).
  assert (EM : M = fold_left F32.Torch.pool_step l F32.ninf) by reflexivity.
  clearbody M.
  assert (Hl : Forall (fun v => F32.is_nan v = false) l).
  { apply Forall_forall. intros v Hv.
    apply (@in_slice32 x B C H W b c v Hs) in Hv.
    destruct Hv as (i & j & Hi & Hj & ->). now apply Hnan. }
  destruct (@fold_pool_spec l F32.ninf eq_refl Hl) as (Hn & Hin & _ & Hub).
  rewrite <- EM in Hn, Hin, Hub.
  assert (Hall : forall i j, i < H -> j < W ->
            F32.le (get F32.zero x [b; c; i; j]) M).
  { intros i j Hi Hj. apply Hub. apply (@in_slice32 x B C H W b c _ Hs).
    exists i, j. auto. }
  split; [assumption|]. split; [|assumption].
  destruct Hin as [Hm|Hm].
  - exists 0, 0. split; [assumption|]. split; [assumption|].
    rewrite Hm. symmetry. apply le32_ninf. rewrite <- Hm. now apply Hall.
  - now apply (@in_slice32 x B C H W b c M Hs).
Qed.

(** A NaN in a slice is the maximum of the slice. *)
Lemma slice_max_nan32 (x : tensor spec_float) (B C H W b c i j : nat) :
  shape x = [B; C; H; W] -> i < H -> j < W ->
  get F32.zero x [b; c; i; j] = S754_nan ->
  F32.Torch.slice_max x b c = S754_nan.
Proof.
  intros Hs Hi Hj Hnan. unfold F32.Torch.slice_max. apply fold_pool_nan.
  apply (@in_slice32 x B C H W b c _ Hs). exists i, j. auto.
Qed.

(** Each entry is divided by the maximum of its slice. *)
Lemma normalize_unfold32 (s : tensor spec_float) (B C H W : nat) :
  shape s = [B; C; H; W] -> numel (shape s) <> 0 ->
  F32.CornerHarris.normalize s =
  Ok (tabulate [B; C; H; W] (fun idx =>
        match idx with
        | [b; c; i; j] =>
            SFdiv F32.prec F32.emax (get F32.zero s idx)
              (F32.Torch.slice_max s b c)
        | _ => S754_nan
        end)).
Proof.
  intros Hs Hn.
  unfold F32.CornerHarris.normalize, F32.Torch.adaptive_max_pool2d.
  rewrite Hs. rewrite Hs in Hn.
  replace (numel [B; C; H; W] =? 0) with false
    by (symmetry; now apply Nat.eqb_neq).
  cbn [bind]. unfold F32.Torch.div, broadcast2.
  rewrite Hs, shape_tabulate, broadcast_shapes_4, !bdim_one.
  f_equal. apply tabulate_ext. intros idx Hidx.
  apply in_range_4 in Hidx.
  destruct Hidx as (b & c & i & j & -> & Hb & Hc & Hi & Hj).
  rewrite !bindex_4 by assumption.
  rewrite (@bpos_lt H), (@bpos_lt W) by assumption.
  rewrite get_tabulate; [reflexivity|].
  apply in_range_4. exists b, c, 0, 0. unfold bpos. simpl. repeat split; auto.
Qed.

(** ** The clamp *)

(** The floor is the correctly rounded quotient of 1 by 1000000. *)
Lemma floor32_nearest : F32.floor_1e_6 = F32.of_ratio 1 1000000.
Proof. vm_compute. reflexivity. Qed.

Lemma floor32_pos : F32.lt F32.zero F32.floor_1e_6.
Proof. reflexivity. Qed.

Lemma clamp32_below (v : spec_float) :
  F32.lt v F32.floor_1e_6 ->
  F32.Torch.clamp_min1 F32.floor_1e_6 v = F32.floor_1e_6.
Proof. intros H. unfold F32.Torch.clamp_min1. now rewrite H. Qed.

Lemma clamp32_above (v : spec_float) :
  ~ F32.lt v F32.floor_1e_6 -> F32.Torch.clamp_min1 F32.floor_1e_6 v = v.
Proof.
  intros H. unfold F32.Torch.clamp_min1, F32.lt in *.
  destruct (SFltb v F32.floor_1e_6); [now elim H|reflexivity].
Qed.

Lemma clamp32_nan (v : spec_float) :
  F32.is_nan (F32.Torch.clamp_min1 F32.floor_1e_6 v) = F32.is_nan v.
Proof.
  unfold F32.Torch.clamp_min1. destruct (SFltb v F32.floor_1e_6) eqn:E;
    [|reflexivity].
  apply lt32_not_nan in E. destruct E as [E _]. now rewrite E.
Qed.

(** A clamped score that is not a NaN is at least the floor. *)
Lemma clamp32_ge (v : spec_float) :
  F32.is_nan v = false ->
  F32.le F32.floor_1e_6 (F32.Torch.clamp_min1 F32.floor_1e_6 v).
Proof.
  intros Hv. unfold F32.Torch.clamp_min1.
  destruct (SFltb v F32.floor_1e_6) eqn:E.
  - now apply le32_refl.
  - now apply not_lt32_le.
Qed.

Lemma get_threshold32 (raw : tensor spec_float) (idx : list nat) :
  wf raw -> in_range (shape raw) idx ->
  get F32.zero (F32.CornerHarris.threshold raw) idx
  = F32.Torch.clamp_min1 F32.floor_1e_6 (get F32.zero raw idx).
Proof.
  intros Hwf Hidx. unfold F32.CornerHarris.threshold, F32.Torch.clamp_min.
  now apply get_map_in.
Qed.

(** ** The pipeline in binary32 under the contracts *)
Lemma select2_stacked32 (g : tensor spec_float) (B C H W u : nat) :
  shape g = [B; C; 2; H; W] -> u < 2 ->
  exists d, F32.Torch.select2 g u = Ok d
            /\ shape d = [B; C; H; W] /\ wf d.
Proof.
  intros Hs Hu. unfold F32.Torch.select2. rewrite Hs.
  replace (u <? 2) with true by (symmetry; now apply Nat.ltb_lt).
  eexists. split; [reflexivity|]. split; [reflexivity|apply wf_tabulate].
Qed.

Lemma mul_returns32 (x y : tensor spec_float) (s : list nat) :
  shape x = s -> shape y = s ->
  exists z, F32.Torch.mul x y = Ok z /\ shape z = s /\ wf z.
Proof.
  intros Hx Hy. unfold F32.Torch.mul.
  rewrite broadcast2_same by congruence.
  eexists. split; [reflexivity|]. split; [exact Hx|apply wf_tabulate].
Qed.

(** The raw score is computed, with the shape of the input. *)
Lemma response_returns32
    (sg : tensor spec_float -> result (tensor spec_float))
    (gb : tensor spec_float -> Z * Z -> spec_float * spec_float
          -> result (tensor spec_float))
    (self : F32.CornerHarris.t) (x : tensor spec_float) (B C H W : nat) :
  F32.gradient_contract sg -> F32.blur_contract gb ->
  shape x = [B; C; H; W] -> wf x -> numel (shape x) <> 0 ->
  exists raw,
    F32.CornerHarris.response sg gb self x = Ok raw
    /\ shape raw = [B; C; H; W] /\ wf raw.
Proof.
  intros Hsg Hgb Hs Hwf Hn.
  assert (Hn4 : numel [B; C; H; W] <> 0) by (rewrite <- Hs; exact Hn).
  destruct (Hsg x B C H W Hs Hwf Hn) as (g & Hg & Hsh).
  destruct (@select2_stacked32 g B C H W 0 Hsh) as (dx & Hdx & Hsx & _);
    [lia|].
  destruct (@select2_stacked32 g B C H W 1 Hsh) as (dy & Hdy & Hsy & _);
    [lia|].
  destruct (@mul_returns32 dx dx _ Hsx Hsx) as (dxdx & Hxx & Hsxx & Hwxx).
  destruct (@mul_returns32 dy dy _ Hsy Hsy) as (dydy & Hyy & Hsyy & Hwyy).
  destruct (@mul_returns32 dx dy _ Hsx Hsy) as (dxdy & Hxy & Hsxy & Hwxy).
  destruct (Hgb dxdx B C H W Hsxx Hwxx) as (dx2 & Hdx2 & Hs2x);
    [rewrite Hsxx; exact Hn4|].
  destruct (Hgb dydy B C H W Hsyy Hwyy) as (dy2 & Hdy2 & Hs2y);
    [rewrite Hsyy; exact Hn4|].
  destruct (Hgb dxdy B C H W Hsxy Hwxy) as (dxy & Hdxy & Hs2xy);
    [rewrite Hsxy; exact Hn4|].
  unfold F32.CornerHarris.response, F32.CornerHarris.structure_tensor,
    F32.CornerHarris.g.
  rewrite Hg. cbn [bind]. rewrite Hdx. cbn [bind]. rewrite Hdy. cbn [bind].
  rewrite Hxx. cbn [bind]. rewrite Hdx2. cbn [bind].
  rewrite Hyy. cbn [bind]. rewrite Hdy2. cbn [bind].
  rewrite Hxy. cbn [bind]. rewrite Hdxy. cbn [bind].
  destruct (@mul_returns32 dx2 dy2 _ Hs2x Hs2y) as (a & Ha & Hsa & _).
  destruct (@mul_returns32 dxy dxy _ Hs2xy Hs2xy) as (b & Hb & Hsb & _).
  rewrite Ha. cbn [bind]. rewrite Hb. cbn [bind].
  unfold F32.Torch.sub, F32.Torch.add.
  rewrite (broadcast2_same F32.zero F32.zero (SFsub F32.prec F32.emax) a b)
    by congruence.
  cbn [bind].
  rewrite (broadcast2_same F32.zero F32.zero (SFadd F32.prec F32.emax)
             dx2 dy2) by congruence.
  cbn [bind].
  rewrite broadcast2_same
    by (unfold F32.Torch.scale, F32.Torch.pow2;
        rewrite !shape_map, !shape_tabulate; congruence).
  eexists. split; [reflexivity|].
  split; [rewrite shape_tabulate, shape_tabulate; exact Hsa|apply wf_tabulate].
Qed.

Lemma suppress_is_nms32 (t : tensor spec_float) :
  F32.CornerHarris.suppress t
  = F32.non_maxima_suppression2d t (KTuple [3; 3]%Z).
Proof. reflexivity. Qed.

(** The stages of [forward] on a non-empty 4-d map. *)
Lemma forward_stages32
    (sg : tensor spec_float -> result (tensor spec_float))
    (gb : tensor spec_float -> Z * Z -> spec_float * spec_float
          -> result (tensor spec_float))
    (k : spec_float) (x : tensor spec_float) (B C H W : nat) :
  F32.gradient_contract sg -> F32.blur_contract gb ->
  shape x = [B; C; H; W] -> wf x -> numel (shape x) <> 0 ->
  exists raw,
    F32.CornerHarris.response sg gb (F32.CornerHarris.init k) x = Ok raw
    /\ shape raw = [B; C; H; W] /\ wf raw
    /\ F32.CornerHarris.suppress (F32.CornerHarris.threshold raw)
       = Ok (F32.nms_map 3 3 (F32.CornerHarris.threshold raw))
    /\ F32.corner_harris sg gb (F32.PyTensor x) k
       = F32.CornerHarris.normalize
           (F32.nms_map 3 3 (F32.CornerHarris.threshold raw)).
Proof.
  intros Hsg Hgb Hs Hwf Hn.
  destruct (@response_returns32 sg gb (F32.CornerHarris.init k) x B C H W
              Hsg Hgb Hs Hwf Hn) as (raw & Hraw & Hsr & Hwr).
  exists raw. split; [exact Hraw|]. split; [exact Hsr|].
  split; [exact Hwr|].
  assert (Hst : shape (F32.CornerHarris.threshold raw) = [B; C; H; W])
    by exact Hsr.
  assert (Hsup : F32.CornerHarris.suppress (F32.CornerHarris.threshold raw)
                 = Ok (F32.nms_map 3 3 (F32.CornerHarris.threshold raw))).
  { rewrite suppress_is_nms32, (@nms_unfold32 3 3 _ B C H W Hst), Hst.
    rewrite Hs in Hn.
    rewrite (@nms_ok_odd 3 3 B C H W); auto; reflexivity. }
  split; [exact Hsup|].
  unfold F32.corner_harris, F32.CornerHarris.forward.
  rewrite Hs. cbn [length Nat.eqb negb]. rewrite Hraw. cbn [bind].
  rewrite Hsup. reflexivity.
Qed.

(** A clamped score that is finite is a positive number of the format. *)
Lemma clamped_finite_positive32 (r : spec_float) :
  F32.finite32 (F32.Torch.clamp_min1 F32.floor_1e_6 r) = true ->
  F32.le F32.floor_1e_6 (F32.Torch.clamp_min1 F32.floor_1e_6 r)
  /\ F32.lt F32.zero (F32.Torch.clamp_min1 F32.floor_1e_6 r).
Proof.
  intros Hf.
  assert (Hn : F32.is_nan r = false).
  { rewrite <- clamp32_nan.
    destruct (F32.Torch.clamp_min1 F32.floor_1e_6 r); try reflexivity.
    discriminate. }
  pose proof (@clamp32_ge r Hn) as Hge. split; [assumption|].
  apply lt32_le_trans with (v := F32.floor_1e_6);
    [apply floor32_pos|assumption].
Qed.

(** On a slice whose clamped scores are all finite, the largest clamped
    score survives suppression and is the maximum of the suppressed slice. *)
Lemma suppressed_slice32 (raw : tensor spec_float) (B C H W b c : nat) :
  shape raw = [B; C; H; W] -> wf raw -> numel [B; C; H; W] <> 0 ->
  b < B -> c < C ->
  let t := F32.CornerHarris.threshold raw in
  let s := F32.nms_map 3 3 t in
  let M := F32.Torch.slice_max s b c in
  (forall i j, i < H -> j < W ->
     F32.finite32 (get F32.zero t [b; c; i; j]) = true) ->
  (exists m e, M = S754_finite false m e
               /\ bounded F32.prec F32.emax m e = true)
  /\ F32.le F32.floor_1e_6 M
  /\ (exists i j, i < H /\ j < W /\ M = get F32.zero s [b; c; i; j]
                  /\ M = get F32.zero t [b; c; i; j])
  /\ (forall i j, i < H -> j < W -> F32.le (get F32.zero t [b; c; i; j]) M)
  /\ (forall i j, i < H -> j < W -> F32.le (get F32.zero s [b; c; i; j]) M).
Proof.
  intros Hs Hwf Hn Hb Hc t s M Hfin.
  assert (Hst : shape t = [B; C; H; W]) by exact Hs.
  assert (Hss : shape s = [B; C; H; W]) by exact Hs.
  pose proof (proj1 (numel_4_pos B C H W) Hn) as (_ & _ & HH & HW).
  assert (Hok : nms_ok 3 3 [B; C; H; W] = true)
    by (apply nms_ok_odd; auto; reflexivity).
  assert (Hreg : forall i j, i < H -> j < W ->
            F32.finite32 (get F32.zero t [b; c; i; j]) = true
            /\ F32.lt F32.zero (get F32.zero t [b; c; i; j])).
  { intros i j Hi Hj. split; [now apply Hfin|].
    specialize (Hfin i j Hi Hj). unfold t in *.
    rewrite get_threshold32 in *
      by (try assumption; rewrite Hs; apply in_range_4;
          exists b, c, i, j; auto).
    now apply clamped_finite_positive32. }
  assert (Hge : forall i j, i < H -> j < W ->
            F32.le F32.floor_1e_6 (get F32.zero t [b; c; i; j])).
  { intros i j Hi Hj. specialize (Hfin i j Hi Hj). unfold t in *.
    rewrite get_threshold32 in *
      by (try assumption; rewrite Hs; apply in_range_4;
          exists b, c, i, j; auto).
    now apply clamped_finite_positive32. }
  assert (Hnt : forall i j, i < H -> j < W ->
            F32.is_nan (get F32.zero t [b; c; i; j]) = false).
  { intros i j Hi Hj. destruct (Hreg i j Hi Hj) as [_ Hp].
    now apply lt32_not_nan in Hp. }
  assert (Hcases : forall i j, i < H -> j < W ->
            get F32.zero s [b; c; i; j] = get F32.zero t [b; c; i; j]
            \/ get F32.zero s [b; c; i; j] = F32.zero).
  { intros i j Hi Hj.
    now destruct (@nms_map_entry32 3 3 t B C H W b c i j Hst Hok Hb Hc Hi Hj
                    Hreg) as [Hc' _]. }
  assert (Hns : forall i j, i < H -> j < W ->
            F32.is_nan (get F32.zero s [b; c; i; j]) = false).
  { intros i j Hi Hj. destruct (Hcases i j Hi Hj) as [-> | ->];
      [now apply Hnt|reflexivity]. }
  destruct (@slice_max_spec32 t B C H W b c Hst HH HW Hnt)
    as (_ & (i0 & j0 & Hi0 & Hj0 & Hat) & Hub).
  destruct (@slice_max_spec32 s B C H W b c Hss HH HW Hns)
    as (HnM & (i1 & j1 & Hi1 & Hj1 & Hat') & Hub').
  fold M in HnM, Hat', Hub'.
  destruct (@nms_map_entry32 3 3 t B C H W b c i0 j0 Hst Hok Hb Hc Hi0 Hj0
              Hreg) as (_ & Hkeep & _).
  assert (Hkept : get F32.zero s [b; c; i0; j0]
                  = get F32.zero t [b; c; i0; j0]).
  { apply Hkeep. intros r q Hr Hq. rewrite <- Hat.
    apply Hub; [apply Hr|apply Hq]. }
  assert (Hbig : F32.le (get F32.zero t [b; c; i0; j0]) M)
    by (rewrite <- Hkept; now apply Hub').
  assert (HM1 : M = get F32.zero t [b; c; i1; j1]).
  { destruct (Hcases i1 j1 Hi1 Hj1) as [E|E]; [congruence|]. exfalso.
    rewrite E in Hat'. rewrite Hat' in Hbig.
    apply (@lt32_not_le F32.zero (get F32.zero t [b; c; i0; j0]));
      [apply Hreg|]; assumption. }
  assert (HtM : forall i j, i < H -> j < W ->
            F32.le (get F32.zero t [b; c; i; j]) M).
  { intros i j Hi Hj.
    apply le32_trans with (v := get F32.zero t [b; c; i0; j0]);
      [|assumption].
    rewrite <- Hat. now apply Hub. }
  split.
  { destruct (Hreg i1 j1 Hi1 Hj1) as [Hf1 Hp1]. rewrite HM1.
    now apply positive_finite32. }
  split; [rewrite HM1; now apply Hge|].
  split; [exists i1, j1; auto|]. split; assumption.
Qed.

Lemma SFdiv_nan_r (v : spec_float) :
  SFdiv F32.prec F32.emax v S754_nan = S754_nan.
Proof. destruct v; reflexivity. Qed.

Lemma SFdiv_zero_r (v : spec_float) (s : bool) :
  F32.is_finite (SFdiv F32.prec F32.emax v (S754_zero s)) = false.
Proof. destruct v; reflexivity. Qed.

Lemma image_gradient_contract32 :
  F32.gradient_contract F32.Image.spatial_gradient.
Proof.
  intros x B C H W Hs _ _. unfold F32.Image.spatial_gradient. rewrite Hs.
  eexists. split; reflexivity.
Qed.

Lemma image_blur_contract32 : F32.blur_contract F32.Image.gaussian_blur.
Proof.
  intros x B C H W Hs _ _. unfold F32.Image.gaussian_blur. rewrite Hs.
  eexists. split; reflexivity.
Qed.

Lemma square3_nonempty32 : numel (shape F32.square3) <> 0.
Proof. vm_compute. discriminate. Qed.

(** The raw score of the unit square, computed: every clamped score is a
    finite number. *)
Lemma square3_response32 :
  exists raw,
    F32.CornerHarris.response F32.Image.spatial_gradient
      F32.Image.gaussian_blur (F32.CornerHarris.init F32.k004) F32.square3
    = Ok raw
    /\ forall i j, i < 3 -> j < 3 ->
         F32.finite32 (get F32.zero (F32.CornerHarris.threshold raw)
                         [0; 0; i; j]) = true.
Proof.
  eexists. split; [vm_compute; reflexivity|].
  intros i j Hi Hj.
  destruct i as [|[|[|i]]]; [| | |lia];
    (destruct j as [|[|[|j]]]; [| | |lia]); vm_compute; reflexivity.
Qed.

(** ** More on the suppressor in binary32 *)
(** What a successful call returns. *)
Lemma nms_returns_map32 (ky kx : Z) (x y : tensor spec_float) (B C H W : nat) :
  shape x = [B; C; H; W] ->
  F32.non_maxima_suppression2d x (KTuple [ky; kx]) = Ok y ->
  nms_ok ky kx [B; C; H; W] = true /\ y = F32.nms_map ky kx x.
Proof.
  intros Hs Hy. rewrite (@nms_unfold32 ky kx x B C H W Hs), Hs in Hy.
  destruct (nms_ok ky kx [B; C; H; W]); [|discriminate].
  inversion Hy. auto.
Qed.

Lemma finite32_valid (v : spec_float) :
  F32.finite32 v = true ->
  F32.is_nan v = false /\ valid_binary F32.prec F32.emax v = true.
Proof.
  unfold F32.finite32. intros H. apply andb_true_iff in H.
  destruct H as [H1 H2]. split; [|assumption].
  destruct v; try reflexivity; discriminate.
Qed.

Lemma SFmul_zero_finite (v : spec_float) :
  F32.is_finite v = true ->
  SFmul F32.prec F32.emax v F32.zero = S754_zero (F32.sign_bit v).
Proof.
  destruct v as [s|s| |s m e]; try discriminate; intros _; simpl;
    now rewrite xorb_false_r.
Qed.

(** A NaN under the window is the value the entry is compared with. *)
Lemma local_max_nan32 (ky kx : Z) (x : tensor spec_float)
    (B C H W b c i j r s : nat) :
  shape x = [B; C; H; W] ->
  window_of H ky i r -> window_of W kx j s ->
  get F32.zero x [b; c; r; s] = S754_nan ->
  F32.local_max ky kx x b c i j = S754_nan.
Proof.
  intros Hs Hr Hc Hnan. unfold F32.local_max. rewrite Hs.
  unfold F32.Torch.window_max. apply fold_pool_nan. rewrite <- Hnan.
  now apply (@window_has32 (ky, kx)
               (NonMaximaSuppression2d.pad ky, NonMaximaSuppression2d.pad kx)
               x B C H W b c _ _ r s Hs).
Qed.

Lemma SFeqb_nan_r (v : spec_float) : SFeqb v S754_nan = false.
Proof. unfold SFeqb. now rewrite compare_nan_r. Qed.

(** On a slice of finite numbers: an entry at least every entry under its
    window is kept, an entry below some entry under its window becomes a
    zero with the sign of the entry. *)
Lemma nms_map_entry_finite32 (ky kx : Z) (x : tensor spec_float)
    (B C H W b c i j : nat) :
  shape x = [B; C; H; W] ->
  nms_ok ky kx [B; C; H; W] = true ->
  b < B -> c < C -> i < H -> j < W ->
  (forall r s, r < H -> s < W ->
     F32.finite32 (get F32.zero x [b; c; r; s]) = true) ->
  let v := get F32.zero x [b; c; i; j] in
  let o := get F32.zero (F32.nms_map ky kx x) [b; c; i; j] in
  (o = v \/ o = S754_zero (F32.sign_bit v))
  /\ ((forall r s, window_of H ky i r -> window_of W kx j s ->
         F32.le (get F32.zero x [b; c; r; s]) v) -> o = v)
  /\ ((exists r s, window_of H ky i r /\ window_of W kx j s
                   /\ F32.lt v (get F32.zero x [b; c; r; s]))
      -> o = S754_zero (F32.sign_bit v)).
Proof.
  intros Hs Hok Hb Hc Hi Hj Hfin v o.
  apply nms_ok_inv in Hok. destruct Hok as (HfH & HfW & _).
  assert (Hnan : forall r s, r < H -> s < W ->
            F32.is_nan (get F32.zero x [b; c; r; s]) = false).
  { intros r s Hr Hs'. now apply finite32_valid, Hfin. }
  destruct (@local_max_spec32 ky kx x B C H W b c i j Hs HfH HfW Hi Hj Hnan)
    as (Hm & (r0 & s0 & Hr0 & Hs0 & Hatt) & Hub).
  set (m := F32.local_max ky kx x b c i j) in *.
  destruct (@finite32_valid v (Hfin i j Hi Hj)) as [_ Hvalid].
  assert (Hisfin : F32.is_finite v = true).
  { pose proof (Hfin i j Hi Hj) as Hf. fold v in Hf. unfold F32.finite32 in Hf.
    now apply andb_true_iff in Hf. }
  assert (Ho : o = F32.keep v m).
  { unfold o. now rewrite (@get_nms_map32 ky kx x B C H W b c i j). }
  assert (Hkept : SFeqb v m = true -> o = v)
    by (intros E; rewrite Ho; now apply keep32_eq).
  assert (Hzero : SFeqb v m = false -> o = S754_zero (F32.sign_bit v)).
  { intros E. rewrite Ho. unfold F32.keep. rewrite E.
    now apply SFmul_zero_finite. }
  split; [|split].
  - destruct (SFeqb v m) eqn:E; auto.
  - intros Hall. apply Hkept. apply le32_antisym.
    + apply Hub; now apply window_of_self.
    + rewrite Hatt. now apply Hall.
  - intros (r & s & Hr & Hc' & Hlt). apply Hzero. apply lt32_neq.
    apply lt32_le_trans with (v := get F32.zero x [b; c; r; s]);
      [assumption|now apply Hub].
Qed.

Lemma negative_row_finite32 :
  forall b c i j, b < 1 -> c < 1 -> i < 1 -> j < 2 ->
    F32.finite32 (get F32.zero F32.negative_row [b; c; i; j]) = true.
Proof.
  intros b c i j Hb Hc Hi Hj.
  assert (b = 0) by lia. assert (c = 0) by lia. assert (i = 0) by lia.
  subst b c i. destruct j as [|[|j]]; [reflexivity|reflexivity|lia].
Qed.

(** * The claims *)

(** C1. On a non-empty 4-d map, with the two imported operations meeting
    their contracts, the score before thresholding is, entry by entry,
    [det - k * trace^2] with [det = Sxx * Syy - Sxy^2] and
    [trace = Sxx + Syy], where [Sxx], [Syy], [Sxy] are the blurs (window
    (3, 3), sigma (1, 1)) of the entrywise products [dx * dx], [dy * dy],
    [dx * dy] of the two derivatives returned by [spatial_gradient]. *)
Theorem response_is_det_minus_k_trace_squared :
  forall (sg : tensor Qc -> result (tensor Qc))
         (gb : tensor Qc -> Z * Z -> Qc * Qc -> result (tensor Qc))
         (k : Qc) (x : tensor Qc) (B C H W : nat),
    gradient_contract sg -> blur_contract gb ->
    shape x = [B; C; H; W] -> wf x -> numel (shape x) <> 0 ->
    exists g Sxx Syy Sxy scores,
      sg x = Ok g
      /\ (forall u v b c i j, b < B -> c < C -> i < H -> j < W ->
            get 0%Qc (grad_product g u v) [b; c; i; j]
            = (get 0 g [b; c; u; i; j] * get 0 g [b; c; v; i; j])%Qc)
      /\ gb (grad_product g 0 0) (3, 3)%Z (1, 1)%Qc = Ok Sxx
      /\ gb (grad_product g 1 1) (3, 3)%Z (1, 1)%Qc = Ok Syy
      /\ gb (grad_product g 0 1) (3, 3)%Z (1, 1)%Qc = Ok Sxy
      /\ CornerHarris.response sg gb (CornerHarris.init k) x = Ok scores
      /\ shape scores = shape x
      /\ forall b c i j, b < B -> c < C -> i < H -> j < W ->
           let sxx := get 0%Qc Sxx [b; c; i; j] in
           let syy := get 0%Qc Syy [b; c; i; j] in
           let sxy := get 0%Qc Sxy [b; c; i; j] in
           let det := (sxx * syy - sxy * sxy)%Qc in
           let trace := (sxx + syy)%Qc in
           get 0%Qc scores [b; c; i; j] = (det - k * (trace * trace))%Qc.
Proof.
  intros sg gb k x B C H W Hsg Hgb Hs Hwf Hn.
  destruct (@response_spec sg gb (CornerHarris.init k) x B C H W
              Hsg Hgb Hs Hwf Hn)
    as (g & Sxx & Syy & Sxy & Hg & Hsh & Hxx & Hyy & Hxy & Hraw).
  exists g, Sxx, Syy, Sxy. eexists.
  split; [exact Hg|]. split.
  { intros u v b c i j Hb Hc Hi Hj. unfold grad_product. rewrite Hsh.
    rewrite get_tabulate; [reflexivity|].
    apply in_range_4. exists b, c, i, j. auto. }
  repeat (split; [eassumption|]).
  split; [now rewrite Hs|].
  intros b c i j Hb Hc Hi Hj. cbv zeta.
  rewrite get_tabulate
    by (apply in_range_4; exists b, c, i, j; auto).
  unfold harris_score. simpl. now rewrite Qcmult_1_r.
Qed.

(** The theorem at a concrete input. *)
Lemma response_is_det_minus_k_trace_squared_witness :
  exists scores,
    CornerHarris.response Image.spatial_gradient Image.gaussian_blur
      (CornerHarris.init k004) square3 = Ok scores
    /\ shape scores = shape square3.
Proof.
  destruct (@response_is_det_minus_k_trace_squared
              Image.spatial_gradient Image.gaussian_blur k004 square3
              1 1 3 3 image_gradient_contract image_blur_contract
              eq_refl eq_refl square3_nonempty)
    as (g & Sxx & Syy & Sxy & scores & _ & _ & _ & _ & _ & Hr & Hsh & _).
  exists scores. split; assumption.
Defined.



(** C3, as stated, fails: on the row [-1, -2] the first pass returns
    [-1, 0] and the second pass returns [0, 0]. *)
Lemma nms_twice_differs_on_negative_row :
  entries (non_maxima_suppression2d negative_row (KTuple [3; 3]%Z))
  = Some ([1; 1; 1; 2], [-1 # 1; 0 # 1]%Q)
  /\ entries (y <- non_maxima_suppression2d negative_row (KTuple [3; 3]%Z) ;;
              non_maxima_suppression2d y (KTuple [3; 3]%Z))
     = Some ([1; 1; 1; 2], [0 # 1; 0 # 1]%Q)
  /\ (y <- non_maxima_suppression2d negative_row (KTuple [3; 3]%Z) ;;
      non_maxima_suppression2d y (KTuple [3; 3]%Z))
     <> non_maxima_suppression2d negative_row (KTuple [3; 3]%Z).
Proof.
  assert (H1 : entries (non_maxima_suppression2d negative_row
                          (KTuple [3; 3]%Z))
               = Some ([1; 1; 1; 2], [-1 # 1; 0 # 1]%Q))
    by (vm_compute; reflexivity).
  assert (H2 : entries (y <- non_maxima_suppression2d negative_row
                               (KTuple [3; 3]%Z) ;;
                        non_maxima_suppression2d y (KTuple [3; 3]%Z))
               = Some ([1; 1; 1; 2], [0 # 1; 0 # 1]%Q))
    by (vm_compute; reflexivity).
  repeat split; try assumption.
  intros Heq. rewrite Heq, H1 in H2. discriminate H2.
Qed.

(** C3, amended. On a map without negative entries a second pass changes
    nothing, for every window argument: either both sides raise the same
    exception or both return the same map. *)
Theorem nms_idempotent_on_nonnegative_maps :
  forall (x : tensor Qc) (ka : kernel_arg),
    nonneg x ->
    (y <- non_maxima_suppression2d x ka ;; non_maxima_suppression2d y ka)
    = non_maxima_suppression2d x ka.
Proof.
  intros x ka Hpos.
  destruct (non_maxima_suppression2d x ka) as [y|e] eqn:Hy; [|reflexivity].
  destruct (nms_ok_args x ka Hy) as (ky & kx & B & C & H & W & -> & Hs).
  destruct (nms_inv ky kx x Hs Hy) as [Hok ->]. simpl.
  assert (Hs' : shape (nms_map ky kx x) = [B; C; H; W])
    by (now rewrite shape_nms_map).
  rewrite (nms_unfold ky kx _ Hs'), Hs', Hok. f_equal.
  apply (@nms_map_ext ky kx x (nms_map ky kx x) B C H W Hs Hs').
  intros b c i j Hb Hc Hi Hj.
  pose proof (@nms_ok_inv ky kx B C H W Hok) as (HfH & HfW & _).
  rewrite (get_nms_map ky kx x Hs Hb Hc Hi Hj).
  set (v := get 0%Qc x [b; c; i; j]).
  destruct (local_max_spec ky kx x b c Hs HfH HfW Hi Hj)
    as (m & Hm & _ & Hub).
  destruct (Qc_eq_dec m v) as [Hmv|Hmv].
  - (* the entry was kept: it is still the largest under its window *)
    subst m. rewrite Hm, keep_eq.
    destruct (nms_map_entry ky kx (nms_map ky kx x) Hs' Hok Hb Hc Hi Hj)
      as [Hkeep _].
    rewrite (get_nms_map ky kx x Hs Hb Hc Hi Hj) in Hkeep.
    fold v in Hkeep. rewrite Hm, keep_eq in Hkeep.
    assert (Hle : forall r s, window_of H ky i r -> window_of W kx j s ->
              (get 0%Qc (nms_map ky kx x) [b; c; r; s] <= v)%Qc).
    { intros r s Hr Hc'.
      rewrite (get_nms_map ky kx x Hs Hb Hc (proj1 Hr) (proj1 Hc')).
      destruct (keep_cases (get 0%Qc x [b; c; r; s])
                  (local_max ky kx x b c r s)) as [-> | ->].
      - now apply Hub.
      - apply (Hpos [b; c; i; j]). rewrite Hs. apply in_range_4.
        exists b, c, i, j. auto. }
    specialize (Hkeep Hle).
    rewrite (get_nms_map ky kx (nms_map ky kx x) Hs' Hb Hc Hi Hj) in Hkeep.
    rewrite (get_nms_map ky kx x Hs Hb Hc Hi Hj) in Hkeep.
    fold v in Hkeep. rewrite Hm, keep_eq in Hkeep. exact Hkeep.
  - (* the entry was zeroed: zero times the mask is zero *)
    rewrite Hm, (@keep_neq v (Fin m)) by congruence.
    unfold keep. apply Qcmult_0_l.
Qed.

(** The theorem at a concrete input. *)
Lemma nms_idempotent_on_nonnegative_maps_witness :
  (y <- non_maxima_suppression2d pair_row (KTuple [3; 3]%Z) ;;
   non_maxima_suppression2d y (KTuple [3; 3]%Z))
  = non_maxima_suppression2d pair_row (KTuple [3; 3]%Z).
Proof.
  exact (@nms_idempotent_on_nonnegative_maps pair_row (KTuple [3; 3]%Z)
           pair_row_nonneg).
Defined.

(** C4, as stated, fails: the entries of the input [1e10 * square3] are
    finite binary32 numbers and so are the three smoothed products, but
    [dx2 * dy2] and [dxy * dxy] overflow, the raw score is
    [inf - inf = NaN], and every value the pipeline returns is a NaN, which
    is not between 0 and 1. *)
Lemma corner_harris_is_nan_on_bright_square3 :
  Forall (fun v => F32.finite32 v = true) (data F32.bright_square3)
  /\ (exists dx2 dy2 dxy,
        F32.CornerHarris.structure_tensor F32.Image.spatial_gradient
          F32.Image.gaussian_blur F32.bright_square3 = Ok (dx2, dy2, dxy)
        /\ Forall (fun v => F32.finite32 v = true)
             (data dx2 ++ data dy2 ++ data dxy))
  /\ F32.corner_harris F32.Image.spatial_gradient F32.Image.gaussian_blur
       (F32.PyTensor F32.bright_square3) F32.k004
     = Ok (tabulate [1; 1; 3; 3] (fun _ => S754_nan))
  /\ SFleb F32.zero S754_nan = false
  /\ SFleb S754_nan F32.one = false.
Proof.
  split; [|split; [|split; [|split]]].
  - vm_compute. repeat constructor.
  - eexists. eexists. eexists. split; [vm_compute; reflexivity|].
    vm_compute. repeat constructor.
  - vm_compute. reflexivity.
  - reflexivity.
  - reflexivity.
Qed.

(** C4, amended. In binary32 the suppressed map is divided, slice by slice,
    by the maximum of that slice of the suppressed map.  On a slice whose
    clamped scores are all finite that maximum is the largest clamped score
    of the slice, a positive finite number; every output entry lies between
    0 and 1; it is exactly [1.0] where the suppressed entry equals the
    slice maximum (so wherever the clamped score ties the largest one), and
    [0] at every suppressed position.  A NaN among the clamped scores of a
    slice, which finite inputs can produce by overflow, makes every output
    of that slice a NaN.  Applied to a map one of whose slices has maximum
    zero, the division returns without raising and every entry of that
    slice is an infinity or a NaN. *)
Theorem finite_scores_are_divided_by_the_slice_maximum :
  forall (sg : tensor spec_float -> result (tensor spec_float))
         (gb : tensor spec_float -> Z * Z -> spec_float * spec_float
               -> result (tensor spec_float))
         (k : spec_float) (x : tensor spec_float) (B C H W : nat),
    F32.gradient_contract sg -> F32.blur_contract gb ->
    shape x = [B; C; H; W] -> wf x -> numel (shape x) <> 0 ->
    (exists raw s out,
       F32.CornerHarris.response sg gb (F32.CornerHarris.init k) x = Ok raw
       /\ F32.CornerHarris.suppress (F32.CornerHarris.threshold raw) = Ok s
       /\ F32.CornerHarris.normalize s = Ok out
       /\ F32.corner_harris sg gb (F32.PyTensor x) k = Ok out
       /\ forall b c, b < B -> c < C ->
            let t := get F32.zero (F32.CornerHarris.threshold raw) in
            let M := F32.Torch.slice_max s b c in
            (forall i j, i < H -> j < W ->
               get F32.zero out [b; c; i; j]
               = SFdiv F32.prec F32.emax (get F32.zero s [b; c; i; j]) M)
            /\ ((forall i j, i < H -> j < W ->
                   F32.finite32 (t [b; c; i; j]) = true) ->
                F32.finite32 M = true
                /\ F32.le F32.floor_1e_6 M
                /\ (exists i j, i < H /\ j < W
                                /\ M = get F32.zero s [b; c; i; j]
                                /\ M = t [b; c; i; j])
                /\ forall i j, i < H -> j < W ->
                     let v := get F32.zero s [b; c; i; j] in
                     let o := get F32.zero out [b; c; i; j] in
                     (v = t [b; c; i; j] \/ v = F32.zero)
                     /\ F32.le (t [b; c; i; j]) M
                     /\ F32.le v M
                     /\ F32.le F32.zero o /\ F32.le o F32.one
                     /\ (SFeqb v M = true -> o = F32.one)
                     /\ (F32.le M (t [b; c; i; j]) -> o = F32.one)
                     /\ (v = F32.zero -> o = F32.zero)
                     /\ ((exists r q, window_of H 3 i r /\ window_of W 3 j q
                                      /\ F32.lt (t [b; c; i; j])
                                                (t [b; c; r; q]))
                         -> o = F32.zero))
            /\ ((exists i j, i < H /\ j < W
                             /\ F32.is_nan (t [b; c; i; j]) = true) ->
                forall i j, i < H -> j < W ->
                  get F32.zero out [b; c; i; j] = S754_nan))
    /\ (forall (s : tensor spec_float) (b c : nat) (sgn : bool),
          shape s = [B; C; H; W] -> b < B -> c < C ->
          F32.Torch.slice_max s b c = S754_zero sgn ->
          exists out,
            F32.CornerHarris.normalize s = Ok out
            /\ forall i j, i < H -> j < W ->
                 F32.is_finite (get F32.zero out [b; c; i; j]) = false).
Proof.
  intros sg gb k x B C H W Hsg Hgb Hs Hwf Hn. split.
  - destruct (@forward_stages32 sg gb k x B C H W Hsg Hgb Hs Hwf Hn)
      as (raw & Hraw & Hsr & Hwr & Hsup & Hch).
    set (tt := F32.CornerHarris.threshold raw) in *.
    set (s := F32.nms_map 3 3 tt) in *.
    assert (Hst : shape tt = [B; C; H; W]) by exact Hsr.
    assert (Hss : shape s = [B; C; H; W]) by exact Hsr.
    assert (Hns : numel (shape s) <> 0) by (rewrite Hss, <- Hs; exact Hn).
    assert (Hn4 : numel [B; C; H; W] <> 0) by (rewrite <- Hs; exact Hn).
    pose proof (@normalize_unfold32 s B C H W Hss Hns) as Hnorm.
    exists raw, s. eexists. split; [exact Hraw|]. split; [exact Hsup|].
    split; [exact Hnorm|]. split; [rewrite Hch; exact Hnorm|].
    intros b c Hb Hc t M.
    assert (Hout : forall i j, i < H -> j < W ->
              get F32.zero
                (tabulate [B; C; H; W] (fun idx =>
                   match idx with
                   | [b0; c0; _; _] =>
                       SFdiv F32.prec F32.emax (get F32.zero s idx)
                         (F32.Torch.slice_max s b0 c0)
                   | _ => S754_nan
                   end)) [b; c; i; j]
              = SFdiv F32.prec F32.emax (get F32.zero s [b; c; i; j]) M).
    { intros i j Hi Hj.
      now rewrite get_tabulate
        by (apply in_range_4; exists b, c, i, j; auto). }
    split; [exact Hout|]. split.
    + intros Hfin.
      destruct (@suppressed_slice32 raw B C H W b c Hsr Hwr Hn4 Hb Hc Hfin)
        as ((m & e & HM0 & Hbd) & HgeM0 & Hatt0 & HtM0 & HsM0).
      assert (HM : M = S754_finite false m e) by exact HM0.
      assert (HgeM : F32.le F32.floor_1e_6 M) by exact HgeM0.
      assert (Hatt : exists i j, i < H /\ j < W
                       /\ M = get F32.zero s [b; c; i; j]
                       /\ M = t [b; c; i; j]) by exact Hatt0.
      assert (HtM : forall i j, i < H -> j < W -> F32.le (t [b; c; i; j]) M)
        by exact HtM0.
      assert (HsM : forall i j, i < H -> j < W ->
                F32.le (get F32.zero s [b; c; i; j]) M) by exact HsM0.
      clear HM0 HgeM0 Hatt0 HtM0 HsM0.
      assert (Hok : nms_ok 3 3 [B; C; H; W] = true)
        by (apply nms_ok_odd; auto; reflexivity).
      assert (Hreg : forall i j, i < H -> j < W ->
                F32.finite32 (t [b; c; i; j]) = true
                /\ F32.lt F32.zero (t [b; c; i; j])).
      { intros i j Hi Hj. split; [now apply Hfin|].
        specialize (Hfin i j Hi Hj). unfold t, tt in *.
        rewrite get_threshold32 in *
          by (try assumption; rewrite Hsr; apply in_range_4;
              exists b, c, i, j; auto).
        now apply clamped_finite_positive32. }
      split; [rewrite HM; exact Hbd|]. split; [assumption|].
      split; [assumption|].
      intros i j Hi Hj v o.
      destruct (@nms_map_entry32 3 3 tt B C H W b c i j Hst Hok Hb Hc Hi Hj
                  Hreg) as (Hcases0 & Hkeep0 & Hzero0).
      assert (Hcases : v = t [b; c; i; j] \/ v = F32.zero) by exact Hcases0.
      assert (Hkeep : (forall r q, window_of H 3 i r -> window_of W 3 j q ->
                         F32.le (t [b; c; r; q]) (t [b; c; i; j]))
                      -> v = t [b; c; i; j]) by exact Hkeep0.
      assert (Hzero : (exists r q, window_of H 3 i r /\ window_of W 3 j q
                         /\ F32.lt (t [b; c; i; j]) (t [b; c; r; q]))
                      -> v = F32.zero) by exact Hzero0.
      clear Hcases0 Hkeep0 Hzero0.
      assert (Ho : o = SFdiv F32.prec F32.emax v M)
        by (unfold o, v; now apply Hout).
      assert (Hvz : v = F32.zero -> o = F32.zero).
      { intros E. rewrite Ho, E, HM. reflexivity. }
      assert (Hsame : SFeqb v M = true -> o = F32.one).
      { intros E. rewrite Ho. rewrite HM in E |- *.
        apply SFeqb_positive in E. rewrite E. apply SFdiv_same. }
      split; [assumption|]. split; [now apply HtM|].
      split; [now apply HsM|].
      split; [|split; [|split; [|split; [|split]]]].
      * destruct Hcases as [E|E].
        -- destruct (Hreg i j Hi Hj) as [Hf Hp].
           destruct (@positive_finite32 _ Hf Hp) as (m1 & e1 & Ht & Hb1).
           rewrite Ho, E, Ht, HM.
           apply SFdiv_le_one; try assumption.
           rewrite <- Ht, <- HM, <- E. now apply HsM.
        -- rewrite (Hvz E). reflexivity.
      * destruct Hcases as [E|E].
        -- destruct (Hreg i j Hi Hj) as [Hf Hp].
           destruct (@positive_finite32 _ Hf Hp) as (m1 & e1 & Ht & Hb1).
           rewrite Ho, E, Ht, HM.
           apply SFdiv_le_one; try assumption.
           rewrite <- Ht, <- HM, <- E. now apply HsM.
        -- rewrite (Hvz E). reflexivity.
      * exact Hsame.
      * intros Htie. apply Hsame.
        assert (Hv : v = t [b; c; i; j]).
        { apply Hkeep. intros r q Hr Hq.
          apply le32_trans with (v := M); [|assumption].
          apply HtM; [apply Hr|apply Hq]. }
        apply le32_antisym; [now apply HsM|now rewrite Hv].
      * exact Hvz.
      * intros Hbelow. apply Hvz. now apply Hzero.
    + intros (i0 & j0 & Hi0 & Hj0 & Hnan) i j Hi Hj.
      apply is_nan_true in Hnan.
      assert (Hs0 : get F32.zero s [b; c; i0; j0] = S754_nan).
      { unfold s. rewrite (@get_nms_map32 3 3 tt B C H W b c i0 j0)
          by assumption.
        change (get F32.zero tt [b; c; i0; j0]) with (t [b; c; i0; j0]).
        rewrite Hnan. reflexivity. }
      rewrite Hout by assumption. unfold M.
      rewrite (@slice_max_nan32 s B C H W b c i0 j0 Hss Hi0 Hj0 Hs0).
      apply SFdiv_nan_r.
  - intros s b c sgn Hss Hb Hc HM.
    assert (Hns : numel (shape s) <> 0) by (rewrite Hss, <- Hs; exact Hn).
    rewrite (@normalize_unfold32 s B C H W Hss Hns). eexists.
    split; [reflexivity|]. intros i j Hi Hj.
    rewrite get_tabulate by (apply in_range_4; exists b, c, i, j; auto).
    rewrite HM. apply SFdiv_zero_r.
Qed.

(** The theorem at a concrete input. *)
Lemma finite_scores_are_divided_by_the_slice_maximum_witness :
  exists out,
    F32.corner_harris F32.Image.spatial_gradient F32.Image.gaussian_blur
      (F32.PyTensor F32.square3) F32.k004 = Ok out
    /\ F32.le F32.zero (get F32.zero out [0; 0; 1; 1])
    /\ F32.le (get F32.zero out [0; 0; 1; 1]) F32.one.
Proof.
  destruct (@finite_scores_are_divided_by_the_slice_maximum
              F32.Image.spatial_gradient F32.Image.gaussian_blur F32.k004
              F32.square3 1 1 3 3 image_gradient_contract32
              image_blur_contract32 eq_refl eq_refl square3_nonempty32)
    as [(raw & s & out & Hraw & _ & _ & Hout & Hslice) _].
  exists out. split; [assumption|].
  destruct (Hslice 0 0) as (_ & Hfin & _); try lia.
  destruct square3_response32 as (raw' & Hraw' & Hall).
  assert (raw' = raw) by congruence. subst raw'.
  destruct (Hfin Hall) as (_ & _ & _ & Hentry).
  destruct (Hentry 1 1) as (_ & _ & _ & Hlo & Hhi & _); try lia. auto.
Defined.

(** C5, as stated, fails: on the finite input [1e10 * square3] the raw
    score at the centre is a NaN, the clamp leaves it a NaN, and a NaN is
    not at least the floor. *)
Lemma clamped_score_is_nan_on_bright_square3 :
  Forall (fun v => F32.finite32 v = true) (data F32.bright_square3)
  /\ exists raw,
       F32.CornerHarris.response F32.Image.spatial_gradient
         F32.Image.gaussian_blur (F32.CornerHarris.init F32.k004)
         F32.bright_square3 = Ok raw
       /\ get F32.zero raw [0; 0; 1; 1] = S754_nan
       /\ get F32.zero (F32.CornerHarris.threshold raw) [0; 0; 1; 1]
          = S754_nan
       /\ SFleb F32.floor_1e_6
            (get F32.zero (F32.CornerHarris.threshold raw) [0; 0; 1; 1])
          = false.
Proof.
  split; [vm_compute; repeat constructor|].
  eexists. split; [vm_compute; reflexivity|].
  split; [|split]; vm_compute; reflexivity.
Qed.

(** C5, amended. In binary32 the map handed to the suppressor is the raw
    score clamped from below at the floor, the binary32 number nearest
    [1e-6]: an entry below the floor becomes exactly the floor and every
    other entry is unchanged, so every entry whose raw score is not a NaN is
    at least the floor and positive, and an entry whose raw score is a NaN
    stays a NaN. *)
Theorem clamp_raises_scores_to_the_floor_and_keeps_nan :
  forall (sg : tensor spec_float -> result (tensor spec_float))
         (gb : tensor spec_float -> Z * Z -> spec_float * spec_float
               -> result (tensor spec_float))
         (k : spec_float) (x : tensor spec_float) (B C H W : nat),
    F32.gradient_contract sg -> F32.blur_contract gb ->
    shape x = [B; C; H; W] -> wf x -> numel (shape x) <> 0 ->
    exists raw,
      F32.CornerHarris.response sg gb (F32.CornerHarris.init k) x = Ok raw
      /\ F32.corner_harris sg gb (F32.PyTensor x) k
         = (s <- F32.CornerHarris.suppress (F32.CornerHarris.threshold raw) ;;
            F32.CornerHarris.normalize s)
      /\ shape (F32.CornerHarris.threshold raw) = shape x
      /\ forall b c i j, b < B -> c < C -> i < H -> j < W ->
           let r := get F32.zero raw [b; c; i; j] in
           let t := get F32.zero (F32.CornerHarris.threshold raw)
                      [b; c; i; j] in
           (F32.lt r F32.floor_1e_6 -> t = F32.floor_1e_6)
           /\ (F32.le F32.floor_1e_6 r -> t = r)
           /\ (F32.is_nan r = false ->
               F32.le F32.floor_1e_6 t /\ F32.lt F32.zero t)
           /\ (F32.is_nan r = true -> t = S754_nan).
Proof.
  intros sg gb k x B C H W Hsg Hgb Hs Hwf Hn.
  destruct (@forward_stages32 sg gb k x B C H W Hsg Hgb Hs Hwf Hn)
    as (raw & Hraw & Hsr & Hwr & Hsup & Hch).
  exists raw. split; [assumption|].
  split; [rewrite Hsup; exact Hch|].
  split; [rewrite Hs; exact Hsr|].
  intros b c i j Hb Hc Hi Hj r t.
  assert (Ht : t = F32.Torch.clamp_min1 F32.floor_1e_6 r).
  { unfold t, r. apply get_threshold32; [assumption|].
    rewrite Hsr. apply in_range_4. exists b, c, i, j. auto. }
  rewrite Ht. split; [apply clamp32_below|]. split; [|split].
  - intros Hle. apply clamp32_above. intros Hlt.
    now apply (@lt32_not_le r F32.floor_1e_6).
  - intros Hnan. pose proof (@clamp32_ge r Hnan) as Hge.
    split; [assumption|].
    apply lt32_le_trans with (v := F32.floor_1e_6);
      [apply floor32_pos|assumption].
  - intros Hnan. apply is_nan_true in Hnan. rewrite Hnan. reflexivity.
Qed.

(** The theorem at a concrete input. *)
Lemma clamp_raises_scores_to_the_floor_and_keeps_nan_witness :
  exists raw,
    F32.CornerHarris.response F32.Image.spatial_gradient
      F32.Image.gaussian_blur (F32.CornerHarris.init F32.k004) F32.square3
    = Ok raw
    /\ F32.le F32.floor_1e_6
         (get F32.zero (F32.CornerHarris.threshold raw) [0; 0; 1; 1]).
Proof.
  destruct (@clamp_raises_scores_to_the_floor_and_keeps_nan
              F32.Image.spatial_gradient F32.Image.gaussian_blur F32.k004
              F32.square3 1 1 3 3 image_gradient_contract32
              image_blur_contract32 eq_refl eq_refl square3_nonempty32)
    as (raw & Hraw & _ & _ & Hall).
  exists raw. split; [assumption|].
  destruct (Hall 0 0 1 1) as (_ & _ & Hge & _); try lia.
  apply Hge.
  destruct square3_response32 as (raw' & Hraw' & Hfin).
  assert (raw' = raw) by congruence. subst raw'.
  specialize (Hfin 1 1).
  destruct (@forward_stages32 F32.Image.spatial_gradient
              F32.Image.gaussian_blur F32.k004 F32.square3 1 1 3 3
              image_gradient_contract32 image_blur_contract32 eq_refl eq_refl
              square3_nonempty32) as (raw2 & Hraw2 & Hsh & Hwf & _).
  assert (raw2 = raw) by congruence. subst raw2.
  rewrite get_threshold32 in Hfin
    by (try assumption; rewrite Hsh; apply in_range_4;
        exists 0, 0, 1, 1; repeat split; lia).
  rewrite <- clamp32_nan.
  destruct (F32.Torch.clamp_min1 F32.floor_1e_6
              (get F32.zero raw [0; 0; 1; 1]));
    try reflexivity.
  discriminate Hfin; lia.
Defined.

(** C6. Whatever the two imported operations do, an input that is not a
    tensor raises [TypeError] (the spec's InvalidTypeError) and a tensor
    whose rank is not four raises [ValueError] (the spec's
    InvalidShapeError); with the imported operations meeting their
    contracts, a non-empty well-formed 4-d map and any scalar [k] raise
    nothing. *)
Theorem corner_harris_checks_come_first :
  forall (sg : tensor Qc -> result (tensor Qc))
         (gb : tensor Qc -> Z * Z -> Qc * Qc -> result (tensor Qc))
         (k : Qc),
    (forall o : pyobj,
        is_tensor o = false -> corner_harris sg gb o k = Raise TypeError)
    /\ (forall x : tensor Qc,
          length (shape x) <> 4 ->
          corner_harris sg gb (PyTensor x) k = Raise ValueError)
    /\ (gradient_contract sg -> blur_contract gb ->
        forall (x : tensor Qc) (B C H W : nat),
          shape x = [B; C; H; W] -> wf x -> numel (shape x) <> 0 ->
          exists out, corner_harris sg gb (PyTensor x) k = Ok out).
Proof.
  intros sg gb k. split; [|split].
  - intros o Ho. destruct o; try discriminate; reflexivity.
  - intros x Hrank. unfold corner_harris, CornerHarris.forward.
    apply Nat.eqb_neq in Hrank. now rewrite Hrank.
  - intros Hsg Hgb x B C H W Hs Hwf Hn.
    destruct (@corner_harris_returns sg gb k x B C H W
                Hsg Hgb Hs Hwf Hn) as (out & Hout & _).
    eauto.
Qed.

(** The theorem at a concrete input. *)
Lemma corner_harris_checks_come_first_witness :
  corner_harris Image.spatial_gradient Image.gaussian_blur PyNone k004
  = Raise TypeError
  /\ corner_harris Image.spatial_gradient Image.gaussian_blur
       (PyTensor vector3) k004 = Raise ValueError
  /\ exists out,
       corner_harris Image.spatial_gradient Image.gaussian_blur
         (PyTensor square3) k004 = Ok out.
Proof.
  destruct (@corner_harris_checks_come_first
              Image.spatial_gradient Image.gaussian_blur k004)
    as (Htype & Hrank & Hok).
  split; [apply Htype; reflexivity|].
  split; [apply Hrank; vm_compute; discriminate|].
  apply (Hok image_gradient_contract image_blur_contract square3 1 1 3 3
           eq_refl eq_refl square3_nonempty).
Defined.

(** C7. For every non-empty well-formed 4-d map, with the two imported
    operations meeting their contracts, [corner_harris], which is
    [CornerHarris(k).forward], returns a tensor of the shape of the
    input. *)
Theorem corner_harris_preserves_shape :
  forall (sg : tensor Qc -> result (tensor Qc))
         (gb : tensor Qc -> Z * Z -> Qc * Qc -> result (tensor Qc))
         (k : Qc) (x : tensor Qc) (B C H W : nat),
    gradient_contract sg -> blur_contract gb ->
    shape x = [B; C; H; W] -> wf x -> numel (shape x) <> 0 ->
    exists out,
      corner_harris sg gb (PyTensor x) k = Ok out
      /\ CornerHarris.forward sg gb (CornerHarris.init k) (PyTensor x)
         = Ok out
      /\ shape out = shape x.
Proof. exact corner_harris_returns. Qed.

(** The theorem at a concrete input. *)
Lemma corner_harris_preserves_shape_witness :
  exists out,
    corner_harris Image.spatial_gradient Image.gaussian_blur
      (PyTensor square3) k004 = Ok out
    /\ shape out = [1; 1; 3; 3].
Proof.
  destruct (@corner_harris_preserves_shape
              Image.spatial_gradient Image.gaussian_blur k004 square3
              1 1 3 3 image_gradient_contract image_blur_contract
              eq_refl eq_refl square3_nonempty)
    as (out & Hout & _ & Hsh).
  exists out. split; assumption.
Defined.

(** C8, as stated, fails: a (2, 2) window is accepted by the constructor
    but applying the suppressor to a 3x3 map raises. *)
Lemma nms_even_window_raises_on_3x3 :
  NonMaximaSuppression2d.init (KTuple [2; 2]%Z)
  = Ok (NonMaximaSuppression2d.mk (2, 2)%Z (0, 0)%Z)
  /\ non_maxima_suppression2d flat3 (KTuple [2; 2]%Z) = Raise RuntimeError.
Proof. split; vm_compute; reflexivity. Qed.

(** C8, amended. For every pair of positive sizes, odd or even, the
    constructor succeeds and the padding is [(size - 1) // 2] per axis.  An
    odd size keeps the extent of the pooled axis.  An even size pads
    [size / 2 - 1], one cell fewer before the anchor than after it, and the
    pooled axis is one shorter than the input axis, so that applying the
    suppressor raises unless that axis of the map has extent two. *)
Theorem nms_padding_and_even_windows :
  forall ky kx : Z,
    (0 < ky)%Z -> (0 < kx)%Z ->
    NonMaximaSuppression2d.init (KTuple [ky; kx])
    = Ok (NonMaximaSuppression2d.mk (ky, kx)
            (((ky - 1) / 2)%Z, ((kx - 1) / 2)%Z))
    /\ (forall k n, k = ky \/ k = kx -> Z.odd k = true ->
          Torch.pool_out n k (NonMaximaSuppression2d.pad k) = Z.of_nat n
          /\ (k - 1 - NonMaximaSuppression2d.pad k
              = NonMaximaSuppression2d.pad k)%Z)
    /\ (forall k n, k = ky \/ k = kx -> Z.even k = true ->
          Torch.pool_out n k (NonMaximaSuppression2d.pad k)
          = (Z.of_nat n - 1)%Z
          /\ NonMaximaSuppression2d.pad k = (k / 2 - 1)%Z
          /\ (k - 1 - NonMaximaSuppression2d.pad k
              = NonMaximaSuppression2d.pad k + 1)%Z)
    /\ (forall (x : tensor Qc) (B C H W : nat),
          shape x = [B; C; H; W] ->
          (Z.even ky = true /\ H <> 2) \/ (Z.even kx = true /\ W <> 2) ->
          non_maxima_suppression2d x (KTuple [ky; kx]) = Raise RuntimeError).
Proof.
  intros ky kx Hky Hkx. split; [reflexivity|]. split; [|split].
  - intros k n Hk Hodd.
    assert (Hpos : (0 < k)%Z) by (destruct Hk; subst; assumption).
    split; [now apply pooled_extent_odd|].
    apply Z.odd_spec in Hodd. destruct Hodd as [m ->].
    unfold NonMaximaSuppression2d.pad. Z.div_mod_to_equations. lia.
  - intros k n Hk Heven.
    assert (Hpos : (0 < k)%Z) by (destruct Hk; subst; assumption).
    destruct (pooled_extent_even n Hpos Heven) as [Ho Hp].
    repeat split; try assumption.
    apply Z.even_spec in Heven. destruct Heven as [m ->].
    unfold NonMaximaSuppression2d.pad. Z.div_mod_to_equations. lia.
  - intros x B C H W Hs Hbad. rewrite (nms_unfold ky kx x Hs), Hs.
    replace (nms_ok ky kx [B; C; H; W]) with false; [reflexivity|].
    symmetry. apply not_true_is_false. intros Hok.
    apply nms_ok_inv in Hok. destruct Hok as (HfH & HfW & _).
    apply fits_inv in HfH, HfW.
    destruct HfH as (_ & HoH & HeH). destruct HfW as (_ & HoW & HeW).
    unfold pooled_extent in *.
    destruct Hbad as [[Heven Hne]|[Heven Hne]].
    + destruct (pooled_extent_even H Hky Heven) as [Ho _].
      rewrite Ho in *. lia.
    + destruct (pooled_extent_even W Hkx Heven) as [Ho _].
      rewrite Ho in *. lia.
Qed.

(** The theorem at a concrete input. *)
Lemma nms_padding_and_even_windows_witness :
  NonMaximaSuppression2d.init (KTuple [2; 3]%Z)
  = Ok (NonMaximaSuppression2d.mk (2, 3)%Z (0, 1)%Z)
  /\ non_maxima_suppression2d peaks (KTuple [2; 3]%Z) = Raise RuntimeError.
Proof.
  destruct (@nms_padding_and_even_windows 2 3) as (Hinit & _ & _ & Hraise);
    try lia.
  split; [exact Hinit|].
  apply (Hraise peaks 1 1 3 3 eq_refl). left. split; [reflexivity|lia].
Defined.

(** C9, as stated, fails: in the all-negative 2x2 map every pixel is a
    boundary pixel, the corner [-1] is the largest of its in-bounds
    neighbours, its window maximum is [-1] and not [max(-1, 0) = 0], and it
    is kept rather than suppressed. *)
Lemma nms_keeps_a_negative_corner :
  entries (non_maxima_suppression2d negative_block (KTuple [3; 3]%Z))
  = Some ([1; 1; 2; 2], [-1 # 1; 0 # 1; 0 # 1; 0 # 1]%Q)
  /\ local_max 3 3 negative_block 0 0 0 0 = Fin (Q2Qc (-1 # 1))
  /\ fmax (Fin (Q2Qc (-1 # 1))) (Fin 0%Qc) = Fin 0%Qc
  /\ local_max 3 3 negative_block 0 0 0 0
     <> fmax (Fin (Q2Qc (-1 # 1))) (Fin 0%Qc).
Proof.
  assert (H1 : local_max 3 3 negative_block 0 0 0 0 = Fin (Q2Qc (-1 # 1)))
    by (vm_compute; reflexivity).
  assert (H2 : fmax (Fin (Q2Qc (-1 # 1))) (Fin 0%Qc) = Fin 0%Qc)
    by (vm_compute; reflexivity).
  split; [vm_compute; reflexivity|].
  split; [assumption|]. split; [assumption|].
  intros Heq. rewrite H1, H2 in Heq. inversion Heq.
Qed.

(** C9, amended. At every pixel, boundary pixels included, the window
    maximum is the largest of the in-bounds window values: positions
    outside the map count as minus infinity and never contribute.  A pixel
    that is at least all its in-bounds neighbours is therefore kept
    whatever its sign.  On a map without negative entries the window
    maximum equals what zero padding would give. *)
Theorem nms_window_maximum_ignores_padding :
  forall (ky kx : Z) (x y : tensor Qc) (B C H W : nat),
    shape x = [B; C; H; W] ->
    non_maxima_suppression2d x (KTuple [ky; kx]) = Ok y ->
    forall b c i j, b < B -> c < C -> i < H -> j < W ->
      exists m,
        local_max ky kx x b c i j = Fin m
        /\ (exists r s, window_of H ky i r /\ window_of W kx j s
                        /\ m = get 0%Qc x [b; c; r; s])
        /\ (forall r s, window_of H ky i r -> window_of W kx j s ->
                        (get 0%Qc x [b; c; r; s] <= m)%Qc)
        /\ ((forall r s, window_of H ky i r -> window_of W kx j s ->
                         (get 0%Qc x [b; c; r; s]
                          <= get 0%Qc x [b; c; i; j])%Qc) ->
            get 0%Qc y [b; c; i; j] = get 0%Qc x [b; c; i; j])
        /\ (nonneg x -> fmax (Fin m) (Fin 0%Qc) = Fin m).
Proof.
  intros ky kx x y B C H W Hs Hy b c i j Hb Hc Hi Hj.
  destruct (nms_inv ky kx x Hs Hy) as [Hok ->].
  pose proof (@nms_ok_inv ky kx B C H W Hok) as (HfH & HfW & _).
  destruct (local_max_spec ky kx x b c Hs HfH HfW Hi Hj)
    as (m & Hm & (r0 & s0 & Hr0 & Hs0 & Hatt) & Hub).
  exists m. split; [assumption|]. split; [eauto|]. split; [assumption|].
  split.
  - apply (nms_map_entry ky kx x Hs Hok Hb Hc Hi Hj).
  - intros Hpos. simpl. f_equal. unfold qmax.
    destruct (qleb m 0%Qc) eqn:E; [|reflexivity].
    apply qleb_le in E. apply Qcle_antisym; [|assumption].
    rewrite Hatt. apply (Hpos [b; c; r0; s0]). rewrite Hs.
    apply in_range_4. exists b, c, r0, s0.
    repeat split; auto; [apply Hr0|apply Hs0].
Qed.

(** The theorem at a concrete input. *)
Lemma nms_window_maximum_ignores_padding_witness :
  exists m, local_max 3 3 negative_block 0 0 0 0 = Fin m
            /\ get 0%Qc (nms_map 3 3 negative_block) [0; 0; 0; 0]
               = get 0%Qc negative_block [0; 0; 0; 0].
Proof.
  assert (Hy : non_maxima_suppression2d negative_block (KTuple [3; 3]%Z)
               = Ok (nms_map 3 3 negative_block))
    by (vm_compute; reflexivity).
  destruct (@nms_window_maximum_ignores_padding 3 3 negative_block
              (nms_map 3 3 negative_block) 1 1 2 2 eq_refl Hy
              0 0 0 0) as (m & Hm & _ & Hub & Hkeep & _); try lia.
  exists m. split; [assumption|]. apply Hkeep.
  intros r s Hr Hs.
  assert (Hr' : r < 2) by apply Hr. assert (Hs' : s < 2) by apply Hs.
  destruct r as [|[|r]]; destruct s as [|[|s]]; try lia;
    vm_compute; discriminate.
Defined.

(** C10. The standalone entry point raises [AssertionError] on every
    tensor whose rank is not four, whatever the window argument, and the
    constructor raises [AssertionError] on every window argument that is
    not a tuple of length two. *)
Theorem nms_asserts_rank_and_kernel_size :
  (forall (x : tensor Qc) (ka : kernel_arg),
      length (shape x) <> 4 ->
      non_maxima_suppression2d x ka = Raise AssertionError)
  /\ (forall ka : kernel_arg,
        is_tuple ka && (py_len ka =? 2) = false ->
        NonMaximaSuppression2d.init ka = Raise AssertionError).
Proof.
  split.
  - intros x ka Hrank.
    unfold non_maxima_suppression2d, NonMaximaSuppression2d.init,
      NonMaximaSuppression2d._compute_zero_padding2d.
    destruct ka as [l|l|k]; simpl; try reflexivity.
    destruct l as [|ky [|kx [|? ?]]]; simpl; try reflexivity.
    unfold NonMaximaSuppression2d.forward.
    apply Nat.eqb_neq in Hrank. rewrite Hrank. reflexivity.
  - intros ka Hbad.
    unfold NonMaximaSuppression2d.init,
      NonMaximaSuppression2d._compute_zero_padding2d.
    destruct ka as [l|l|k]; simpl in *; try reflexivity.
    destruct l as [|ky [|kx [|? ?]]]; simpl in *;
      try reflexivity; discriminate.
Qed.

(** The theorem at a concrete input. *)
Lemma nms_asserts_rank_and_kernel_size_witness :
  non_maxima_suppression2d vector3 (KTuple [3; 3]%Z) = Raise AssertionError
  /\ NonMaximaSuppression2d.init (KList [3; 3]%Z) = Raise AssertionError
  /\ NonMaximaSuppression2d.init (KTuple [3; 3; 3]%Z) = Raise AssertionError.
Proof.
  destruct nms_asserts_rank_and_kernel_size as [Hrank Hinit].
  split; [apply Hrank; vm_compute; discriminate|].
  split; apply Hinit; reflexivity.
Defined.

(** * Further properties *)

(** ** Storage and entries determine a tensor *)
Lemma map_add_seq (a n : nat) : List.map (Nat.add a) (seq 0 n) = seq a n.
Proof.
  revert a. induction n as [|n IH]; intros a; simpl; [reflexivity|].
  rewrite Nat.add_0_r. f_equal. rewrite <- seq_shift, map_map.
  rewrite <- (IH (S a)). apply map_ext. intros k. lia.
Qed.

Lemma map_offset_block (d : nat) (s : list nat) (len start : nat) :
  List.map (offset s) (indices s) = seq 0 (numel s) ->
  List.map (offset (d :: s))
    (flat_map (fun i => List.map (cons i) (indices s)) (seq start len))
  = seq (start * numel s) (len * numel s).
Proof.
  intros IHs. revert start. induction len as [|len IH]; intros start.
  - reflexivity.
  - simpl. rewrite map_app, IH, map_map. simpl.
    rewrite seq_app. f_equal.
    + rewrite <- map_add_seq, <- IHs, map_map. reflexivity.
    + f_equal. lia.
Qed.

Lemma map_offset_indices (s : list nat) :
  List.map (offset s) (indices s) = seq 0 (numel s).
Proof.
  induction s as [|d s IH]; [reflexivity|].
  simpl indices. rewrite (@map_offset_block d s d 0 IH). reflexivity.
Qed.

Lemma map_nth_seq {A : Type} (d : A) (l : list A) :
  List.map (fun k => nth k l d) (seq 0 (length l)) = l.
Proof.
  induction l as [|a l IH]; simpl; [reflexivity|].
  f_equal. rewrite <- seq_shift, map_map. exact IH.
Qed.

(** A well-formed tensor is the table of its entries. *)
Lemma tabulate_get {A : Type} (d : A) (x : tensor A) :
  wf x -> tabulate (shape x) (get d x) = x.
Proof.
  intros Hwf. destruct x as [s l]. unfold tabulate, get, wf in *. simpl in *.
  f_equal.
  rewrite <- (map_map (offset s) (fun k => nth k l d)), map_offset_indices.
  rewrite <- Hwf. apply map_nth_seq.
Qed.

(** ** More on the suppressor *)
Lemma nms_returns_map (ky kx : Z) (x : tensor Qc) (B C H W : nat) :
  shape x = [B; C; H; W] -> nms_ok ky kx [B; C; H; W] = true ->
  non_maxima_suppression2d x (KTuple [ky; kx]) = Ok (nms_map ky kx x).
Proof.
  intros Hs Hok. now rewrite (@nms_unfold ky kx x B C H W Hs), Hs, Hok.
Qed.


Lemma get_full (s : list nat) (v : Qc) (idx : list nat) :
  in_range s idx -> get 0%Qc (full s v) idx = v.
Proof. intros H. unfold full. now rewrite get_tabulate. Qed.

Lemma slice_max_nms_map (ky kx : Z) (x : tensor Qc) (B C H W b c : nat) :
  shape x = [B; C; H; W] -> nonneg x ->
  nms_ok ky kx [B; C; H; W] = true -> b < B -> c < C ->
  Torch.slice_max (nms_map ky kx x) b c = Torch.slice_max x b c.
Proof.
  intros Hs Hpos Hok Hb Hc.
  pose proof (@nms_ok_inv ky kx B C H W Hok) as (_ & _ & Hn).
  pose proof (proj1 (numel_4_pos B C H W) Hn) as (_ & _ & HH & HW).
  assert (Hsy : shape (nms_map ky kx x) = [B; C; H; W]) by exact Hs.
  destruct (@slice_max_spec x B C H W b c Hs HH HW)
    as (M & HM & (i0 & j0 & Hi0 & Hj0 & Hat) & Hub).
  destruct (@slice_max_spec (nms_map ky kx x) B C H W b c Hsy HH HW)
    as (M' & HM' & (i1 & j1 & Hi1 & Hj1 & Hat') & Hub').
  rewrite HM, HM'. f_equal. apply Qcle_antisym.
  - rewrite Hat'.
    rewrite (@get_nms_map ky kx x B C H W b c i1 j1 Hs Hb Hc Hi1 Hj1).
    destruct (keep_cases (get 0%Qc x [b; c; i1; j1])
                (local_max ky kx x b c i1 j1)) as [-> | ->].
    + now apply Hub.
    + rewrite Hat. apply (Hpos [b; c; i0; j0]). rewrite Hs.
      apply in_range_4. exists b, c, i0, j0. auto.
  - pose proof (@nms_map_entry ky kx x B C H W b c i0 j0 Hs Hok Hb Hc
                  Hi0 Hj0) as [Hkeep _].
    rewrite Hat, <- Hkeep; [now apply Hub'|].
    intros r s Hr Hs'. rewrite <- Hat. apply Hub; [apply Hr|apply Hs'].
Qed.

Lemma nms_raises_when_not_ok (ky kx : Z) (x : tensor Qc) (B C H W : nat) :
  shape x = [B; C; H; W] -> nms_ok ky kx [B; C; H; W] = false ->
  non_maxima_suppression2d x (KTuple [ky; kx]) = Raise RuntimeError.
Proof.
  intros Hs Hok. now rewrite (@nms_unfold ky kx x B C H W Hs), Hs, Hok.
Qed.

Lemma rank_4 {A : Type} (x : tensor A) :
  length (shape x) = 4 -> exists B C H W, shape x = [B; C; H; W].
Proof.
  destruct (shape x) as [|B [|C [|H [|W [|? ?]]]]]; simpl; try discriminate.
  intros _. exists B, C, H, W. reflexivity.
Qed.



Lemma padded_ext (x x' : tensor Qc) (B C H W b c : nat) (r s : Z) :
  shape x = [B; C; H; W] -> shape x' = [B; C; H; W] ->
  (forall i j, i < H -> j < W ->
     get 0%Qc x [b; c; i; j] = get 0%Qc x' [b; c; i; j]) ->
  Torch.padded x b c r s = Torch.padded x' b c r s.
Proof.
  intros Hs Hs' Hall. unfold Torch.padded. rewrite Hs, Hs'.
  destruct (_ && _) eqn:E; [|reflexivity].
  repeat (apply andb_true_iff in E; destruct E as [E ?]).
  f_equal. apply Hall; lia.
Qed.

Lemma local_max_ext (ky kx : Z) (x x' : tensor Qc) (B C H W b c i j : nat) :
  shape x = [B; C; H; W] -> shape x' = [B; C; H; W] ->
  (forall r s, r < H -> s < W ->
     get 0%Qc x [b; c; r; s] = get 0%Qc x' [b; c; r; s]) ->
  local_max ky kx x b c i j = local_max ky kx x' b c i j.
Proof.
  intros Hs Hs' Hall. unfold local_max, Torch.window_max, Torch.window.
  rewrite Hs, Hs'. f_equal. apply flat_map_ext. intros di.
  apply map_ext. intros dj. now apply (@padded_ext x x' B C H W).
Qed.

(** ** More on the pipeline *)
Lemma threshold_nonneg (raw : tensor Qc) (B C H W : nat) :
  shape raw = [B; C; H; W] -> wf raw -> nonneg (CornerHarris.threshold raw).
Proof.
  intros Hs Hwf idx Hidx.
  change (shape (CornerHarris.threshold raw)) with (shape raw) in Hidx.
  rewrite Hs in Hidx. apply in_range_4 in Hidx.
  destruct Hidx as (b & c & i & j & -> & Hb & Hc & Hi & Hj).
  apply Qclt_le_weak, Qclt_le_trans with (y := floor_1e_6);
    [apply floor_pos|].
  apply (@suppressed_entry raw B C H W b c i j); auto.
Qed.

(** The output in terms of the thresholded score alone. *)
Lemma normalized_entry (raw : tensor Qc) (out : tensor float)
    (B C H W b c : nat) :
  shape raw = [B; C; H; W] -> wf raw -> numel [B; C; H; W] <> 0 ->
  b < B -> c < C ->
  let t := CornerHarris.threshold raw in
  CornerHarris.normalize (nms_map 3 3 t) = Ok out ->
  exists T,
    Torch.slice_max t b c = Fin T
    /\ (floor_1e_6 <= T)%Qc
    /\ (exists i j, i < H /\ j < W /\ T = get 0%Qc t [b; c; i; j])
    /\ (forall i j, i < H -> j < W -> (get 0%Qc t [b; c; i; j] <= T)%Qc)
    /\ forall i j, i < H -> j < W ->
         get NaN out [b; c; i; j]
         = Fin (get 0%Qc (nms_map 3 3 t) [b; c; i; j] / T)%Qc.
Proof.
  intros Hs Hwf Hn Hb Hc t Hout.
  assert (Hst : shape t = [B; C; H; W]) by exact Hs.
  assert (Hss : shape (nms_map 3 3 t) = [B; C; H; W]) by exact Hs.
  assert (Hns : numel (shape (nms_map 3 3 t)) <> 0) by (now rewrite Hss).
  assert (Hok : nms_ok 3 3 [B; C; H; W] = true)
    by (apply nms_ok_odd; auto; reflexivity).
  pose proof (proj1 (numel_4_pos B C H W) Hn) as (_ & _ & HH & HW).
  destruct (@slice_max_spec t B C H W b c Hst HH HW)
    as (T & HT & (i0 & j0 & Hi0 & Hj0 & Hat) & Hub).
  assert (HfT : (floor_1e_6 <= T)%Qc).
  { rewrite Hat. apply (@suppressed_entry raw B C H W b c i0 j0); auto. }
  rewrite (@normalize_unfold _ B C H W Hss Hns) in Hout.
  assert (Hout' : out = tabulate [B; C; H; W] (fun idx =>
            match idx with
            | [b; c; i; j] =>
                fdiv (Fin (get 0%Qc (nms_map 3 3 t) idx))
                  (Torch.slice_max (nms_map 3 3 t) b c)
            | _ => NaN
            end)) by congruence.
  subst out. exists T.
  split; [assumption|]. split; [assumption|].
  split; [exists i0, j0; auto|]. split; [assumption|].
  intros i j Hi Hj.
  rewrite get_tabulate by (apply in_range_4; exists b, c, i, j; auto).
  rewrite (@slice_max_nms_map 3 3 t B C H W b c Hst
             (@threshold_nonneg raw B C H W Hs Hwf) Hok Hb Hc), HT.
  apply fdiv_pos.
  apply Qclt_le_trans with (y := floor_1e_6); [apply floor_pos|assumption].
Qed.

Lemma clamp_min1_at_most (m v : Qc) : (v <= m)%Qc -> Torch.clamp_min1 m v = m.
Proof.
  intros Hv. unfold Torch.clamp_min1. destruct (qltb v m) eqn:E.
  - reflexivity.
  - apply qltb_nlt in E. now apply Qcle_antisym.
Qed.

(** A slice whose raw scores do not exceed the floor comes out as ones. *)
Lemma flat_slice_gives_ones (raw : tensor Qc) (out : tensor float)
    (B C H W b c : nat) :
  shape raw = [B; C; H; W] -> wf raw -> numel [B; C; H; W] <> 0 ->
  b < B -> c < C ->
  CornerHarris.normalize (nms_map 3 3 (CornerHarris.threshold raw)) = Ok out ->
  (forall i j, i < H -> j < W ->
     (get 0%Qc raw [b; c; i; j] <= floor_1e_6)%Qc) ->
  forall i j, i < H -> j < W -> get NaN out [b; c; i; j] = Fin 1%Qc.
Proof.
  intros Hs Hwf Hn Hb Hc Hout Hflat i j Hi Hj.
  set (t := CornerHarris.threshold raw) in *.
  assert (Hst : shape t = [B; C; H; W]) by exact Hs.
  assert (Ht : forall r s, r < H -> s < W ->
            get 0%Qc t [b; c; r; s] = floor_1e_6).
  { intros r s Hr Hs'. unfold t. rewrite get_threshold.
    - apply clamp_min1_at_most. now apply Hflat.
    - assumption.
    - rewrite Hs. apply in_range_4. exists b, c, r, s. auto. }
  destruct (@normalized_entry raw out B C H W b c Hs Hwf Hn Hb Hc Hout)
    as (T & _ & _ & (i0 & j0 & Hi0 & Hj0 & Hat) & _ & Hent).
  fold t in Hat, Hent. rewrite (Ht i0 j0 Hi0 Hj0) in Hat.
  rewrite (Hent i j Hi Hj), Hat.
  assert (Hok : nms_ok 3 3 [B; C; H; W] = true)
    by (apply nms_ok_odd; auto; reflexivity).
  destruct (@nms_map_entry 3 3 t B C H W b c i j Hst Hok Hb Hc Hi Hj)
    as [Hkeep _].
  rewrite Hkeep.
  - rewrite (Ht i j Hi Hj). f_equal. apply Qcdiv_same, floor_pos.
  - intros r s Hr Hs'. rewrite (Ht i j Hi Hj), (Ht r s (proj1 Hr) (proj1 Hs')).
    apply Qcle_refl.
Qed.


Lemma pair_row_suppressed :
  non_maxima_suppression2d pair_row (KTuple [3; 3]%Z)
  = Ok (nms_map 3 3 pair_row).
Proof. apply (@nms_returns_map 3 3 pair_row 1 1 1 2); reflexivity. Qed.

Lemma two_slices_suppressed :
  non_maxima_suppression2d two_slices (KTuple [3; 3]%Z)
  = Ok (nms_map 3 3 two_slices).
Proof. apply (@nms_returns_map 3 3 two_slices 1 2 1 2); reflexivity. Qed.

Lemma two_slices'_suppressed :
  non_maxima_suppression2d two_slices' (KTuple [3; 3]%Z)
  = Ok (nms_map 3 3 two_slices').
Proof. apply (@nms_returns_map 3 3 two_slices' 1 2 1 2); reflexivity. Qed.

Lemma zero3_nonempty : numel (shape zero3) <> 0.
Proof. vm_compute. discriminate. Qed.

(** ** The properties *)

(** X1. With a (1, 1) window nothing is suppressed: on every non-empty
    well-formed 4-d map the suppressor returns the map itself. *)
Theorem nms_unit_window_is_identity :
  forall (x : tensor Qc) (B C H W : nat),
    shape x = [B; C; H; W] -> wf x -> numel (shape x) <> 0 ->
    non_maxima_suppression2d x (KTuple [1; 1]%Z) = Ok x.
Proof.
  intros x B C H W Hs Hwf Hn. rewrite Hs in Hn.
  assert (Hok : nms_ok 1 1 [B; C; H; W] = true)
    by (apply nms_ok_odd; auto; reflexivity || lia).
  rewrite (@nms_returns_map 1 1 x B C H W Hs Hok). f_equal.
  rewrite <- (tabulate_get 0%Qc Hwf) at 2.
  unfold nms_map. rewrite Hs. apply tabulate_ext.
  intros idx Hidx. apply in_range_4 in Hidx.
  destruct Hidx as (b & c & i & j & -> & Hb & Hc & Hi & Hj).
  pose proof (@nms_map_entry 1 1 x B C H W b c i j Hs Hok Hb Hc Hi Hj)
    as [Hkeep _].
  rewrite (@get_nms_map 1 1 x B C H W b c i j Hs Hb Hc Hi Hj) in Hkeep.
  apply Hkeep. intros r s Hr Hs'.
  apply (@window_of_odd H 1 i r) in Hr; try reflexivity; try lia.
  apply (@window_of_odd W 1 j s) in Hs'; try reflexivity; try lia.
  change ((1 - 1) / 2)%Z with 0%Z in *.
  assert (r = i) by lia. assert (s = j) by lia. subst. apply Qcle_refl.
Qed.

(** The theorem at a concrete input. *)
Lemma nms_unit_window_is_identity_witness :
  non_maxima_suppression2d peaks (KTuple [1; 1]%Z) = Ok peaks.
Proof.
  apply (@nms_unit_window_is_identity peaks 1 1 3 3);
    try reflexivity.
  vm_compute. discriminate.
Defined.

(** X2. A flat map passes through unchanged, whatever the sign of its
    value: for odd positive window sizes the suppressor returns the constant
    map it was given (every pixel of a plateau ties the window maximum, and
    the padding never exceeds it). *)
Theorem nms_keeps_a_flat_map :
  forall (ky kx : Z) (B C H W : nat) (v : Qc),
    (0 < ky)%Z -> (0 < kx)%Z -> Z.odd ky = true -> Z.odd kx = true ->
    0 < B -> 0 < C -> 0 < H -> 0 < W ->
    non_maxima_suppression2d (full [B; C; H; W] v) (KTuple [ky; kx])
    = Ok (full [B; C; H; W] v).
Proof.
  intros ky kx B C H W v Hky Hkx Hoy Hox HB HC HH HW.
  assert (Hn : numel [B; C; H; W] <> 0) by (apply numel_4_pos; auto).
  assert (Hok : nms_ok ky kx [B; C; H; W] = true)
    by (now apply nms_ok_odd).
  assert (Hs : shape (full [B; C; H; W] v) = [B; C; H; W]) by reflexivity.
  rewrite (@nms_returns_map ky kx _ B C H W Hs Hok). f_equal.
  unfold nms_map. rewrite Hs. apply tabulate_ext.
  intros idx Hidx. apply in_range_4 in Hidx.
  destruct Hidx as (b & c & i & j & -> & Hb & Hc & Hi & Hj).
  pose proof (@nms_map_entry ky kx _ B C H W b c i j Hs Hok Hb Hc Hi Hj)
    as [Hkeep _].
  rewrite (@get_nms_map ky kx _ B C H W b c i j Hs Hb Hc Hi Hj) in Hkeep.
  rewrite Hkeep.
  - apply get_full. apply in_range_4. exists b, c, i, j. auto.
  - intros r s Hr Hs'. rewrite !get_full.
    + apply Qcle_refl.
    + apply in_range_4. exists b, c, i, j. auto.
    + apply in_range_4. exists b, c, r, s.
      repeat split; auto; [apply Hr|apply Hs'].
Qed.

(** The theorem at a concrete input. *)
Lemma nms_keeps_a_flat_map_witness :
  non_maxima_suppression2d (full [1; 1; 2; 2] (Q2Qc (-1 # 1)))
    (KTuple [3; 3]%Z)
  = Ok (full [1; 1; 2; 2] (Q2Qc (-1 # 1))).
Proof.
  apply (@nms_keeps_a_flat_map 3 3 1 1 2 2 (Q2Qc (-1 # 1)));
    reflexivity || lia.
Defined.



(** X4. On a map without negative entries the suppressor keeps the maximum
    of every [batch, channel] slice: the slice maxima of its output are
    those of its input. *)
Theorem nms_preserves_the_slice_maximum :
  forall (ky kx : Z) (x y : tensor Qc) (B C H W b c : nat),
    shape x = [B; C; H; W] -> nonneg x ->
    non_maxima_suppression2d x (KTuple [ky; kx]) = Ok y ->
    b < B -> c < C ->
    Torch.slice_max y b c = Torch.slice_max x b c.
Proof.
  intros ky kx x y B C H W b c Hs Hpos Hy Hb Hc.
  destruct (@nms_inv ky kx x y B C H W Hs Hy) as [Hok ->].
  now apply (@slice_max_nms_map ky kx x B C H W).
Qed.

(** The theorem at a concrete input. *)
Lemma nms_preserves_the_slice_maximum_witness :
  Torch.slice_max (nms_map 3 3 pair_row) 0 0 = Torch.slice_max pair_row 0 0.
Proof.
  apply (@nms_preserves_the_slice_maximum 3 3 pair_row
           (nms_map 3 3 pair_row) 1 1 1 2 0 0);
    try reflexivity; try lia;
    try exact pair_row_nonneg; try exact pair_row_suppressed.
Defined.

(** X5. The suppressor works slice by slice: two maps of one shape that
    agree on a [batch, channel] slice give outputs that agree on that
    slice. *)
Theorem nms_slices_are_independent :
  forall (ky kx : Z) (x x' y y' : tensor Qc) (B C H W b c : nat),
    shape x = [B; C; H; W] -> shape x' = [B; C; H; W] ->
    non_maxima_suppression2d x (KTuple [ky; kx]) = Ok y ->
    non_maxima_suppression2d x' (KTuple [ky; kx]) = Ok y' ->
    b < B -> c < C ->
    (forall i j, i < H -> j < W ->
       get 0%Qc x [b; c; i; j] = get 0%Qc x' [b; c; i; j]) ->
    forall i j, i < H -> j < W ->
      get 0%Qc y [b; c; i; j] = get 0%Qc y' [b; c; i; j].
Proof.
  intros ky kx x x' y y' B C H W b c Hs Hs' Hy Hy' Hb Hc Hall i j Hi Hj.
  destruct (@nms_inv ky kx x y B C H W Hs Hy) as [Hok ->].
  destruct (@nms_inv ky kx x' y' B C H W Hs' Hy') as [_ ->].
  rewrite (@get_nms_map ky kx x B C H W b c i j Hs Hb Hc Hi Hj).
  rewrite (@get_nms_map ky kx x' B C H W b c i j Hs' Hb Hc Hi Hj).
  rewrite (@local_max_ext ky kx x x' B C H W b c i j Hs Hs' Hall).
  now rewrite (Hall i j Hi Hj).
Qed.

(** The theorem at a concrete input. *)
Lemma nms_slices_are_independent_witness :
  get 0%Qc (nms_map 3 3 two_slices) [0; 0; 0; 1]
  = get 0%Qc (nms_map 3 3 two_slices') [0; 0; 0; 1].
Proof.
  apply (@nms_slices_are_independent 3 3 two_slices two_slices'
           (nms_map 3 3 two_slices) (nms_map 3 3 two_slices')
           1 2 1 2 0 0);
    try reflexivity; try lia;
    try exact two_slices_suppressed; try exact two_slices'_suppressed.
  intros i j Hi Hj. destruct i as [|i]; [|lia].
  destruct j as [|[|j]]; [reflexivity|reflexivity|lia].
Defined.



(** X8. A window size that is not positive is not checked by the
    constructor, which stores the padding [(size - 1) // 2]; the failure
    comes when the suppressor is applied, as a [RuntimeError] of the pooling,
    on every 4-d tensor. *)
Theorem nms_nonpositive_window_fails_in_forward :
  forall ky kx : Z,
    (ky <= 0)%Z \/ (kx <= 0)%Z ->
    NonMaximaSuppression2d.init (KTuple [ky; kx])
    = Ok (NonMaximaSuppression2d.mk (ky, kx)
            (((ky - 1) / 2)%Z, ((kx - 1) / 2)%Z))
    /\ forall x : tensor Qc,
         length (shape x) = 4 ->
         non_maxima_suppression2d x (KTuple [ky; kx]) = Raise RuntimeError.
Proof.
  intros ky kx Hk. split; [reflexivity|]. intros x Hrank.
  destruct (rank_4 x Hrank) as (B & C & H & W & Hs).
  apply (@nms_raises_when_not_ok ky kx x B C H W Hs).
  unfold nms_ok, fits.
  destruct Hk as [Hk|Hk].
  - replace (0 <? ky)%Z with false by (symmetry; apply Z.ltb_ge; lia).
    simpl. now rewrite andb_false_r.
  - replace (0 <? kx)%Z with false by (symmetry; apply Z.ltb_ge; lia).
    simpl. now rewrite andb_false_r.
Qed.

(** The theorem at a concrete input. *)
Lemma nms_nonpositive_window_fails_in_forward_witness :
  NonMaximaSuppression2d.init (KTuple [0; 3]%Z)
  = Ok (NonMaximaSuppression2d.mk (0, 3)%Z (-1, 1)%Z)
  /\ non_maxima_suppression2d peaks (KTuple [0; 3]%Z) = Raise RuntimeError.
Proof.
  destruct (@nms_nonpositive_window_fails_in_forward 0 3) as [Hinit Hfwd];
    [left; lia|].
  split; [exact Hinit|]. apply Hfwd. reflexivity.
Defined.

(** X9. A 4-d map with an empty channel, row or column axis makes the
    suppressor raise [RuntimeError], for every pair of window sizes. *)
Theorem nms_rejects_an_empty_map :
  forall (ky kx : Z) (x : tensor Qc) (B C H W : nat),
    shape x = [B; C; H; W] -> C = 0 \/ H = 0 \/ W = 0 ->
    non_maxima_suppression2d x (KTuple [ky; kx]) = Raise RuntimeError.
Proof.
  intros ky kx x B C H W Hs Hempty.
  apply (@nms_raises_when_not_ok ky kx x B C H W Hs).
  unfold nms_ok.
  replace (numel [B; C; H; W] =? 0) with true; [reflexivity|].
  symmetry. apply Nat.eqb_eq.
  destruct (Nat.eq_dec (numel [B; C; H; W]) 0) as [He|Hne]; [exact He|].
  pose proof (proj1 (numel_4_pos B C H W) Hne) as (_ & HC & HH & HW).
  clear Hne. destruct Hempty as [-> | [-> | ->]]; exfalso; lia.
Qed.

(** The theorem at a concrete input. *)
Lemma nms_rejects_an_empty_map_witness :
  non_maxima_suppression2d empty_map (KTuple [3; 3]%Z) = Raise RuntimeError.
Proof.
  apply (@nms_rejects_an_empty_map 3 3 empty_map 1 1 0 3);
    [reflexivity|right; left; reflexivity].
Defined.

(** X11. A slice in which no raw score exceeds the floor [1e-6] (a flat
    image, or only negative responses) comes out as ones everywhere: the
    thresholded slice is a plateau, every pixel is kept, and the plateau is
    divided by itself. *)
Theorem corner_harris_without_response_is_all_ones :
  forall (sg : tensor Qc -> result (tensor Qc))
         (gb : tensor Qc -> Z * Z -> Qc * Qc -> result (tensor Qc))
         (k : Qc) (x : tensor Qc) (B C H W : nat),
    gradient_contract sg -> blur_contract gb ->
    shape x = [B; C; H; W] -> wf x -> numel (shape x) <> 0 ->
    exists raw out,
      CornerHarris.response sg gb (CornerHarris.init k) x = Ok raw
      /\ corner_harris sg gb (PyTensor x) k = Ok out
      /\ forall b c, b < B -> c < C ->
           (forall i j, i < H -> j < W ->
              (get 0%Qc raw [b; c; i; j] <= floor_1e_6)%Qc) ->
           forall i j, i < H -> j < W ->
             get NaN out [b; c; i; j] = Fin 1%Qc.
Proof.
  intros sg gb k x B C H W Hsg Hgb Hs Hwf Hn.
  destruct (@forward_stages sg gb k x B C H W Hsg Hgb Hs Hwf Hn)
    as (raw & Hraw & Hsr & Hwr & Hsup & Hch).
  assert (Hn4 : numel [B; C; H; W] <> 0) by (rewrite <- Hs; exact Hn).
  assert (Hss : shape (nms_map 3 3 (CornerHarris.threshold raw))
                = [B; C; H; W]) by exact Hsr.
  assert (Hns : numel (shape (nms_map 3 3 (CornerHarris.threshold raw)))
                <> 0) by (now rewrite Hss).
  pose proof (@normalize_unfold _ B C H W Hss Hns) as Hout.
  exists raw. eexists. split; [exact Hraw|].
  split; [rewrite Hch; exact Hout|].
  intros b c Hb Hc Hflat.
  exact (@flat_slice_gives_ones raw _ B C H W b c Hsr Hwr Hn4 Hb Hc
           Hout Hflat).
Qed.

(** The theorem at a concrete input. *)
Lemma corner_harris_without_response_is_all_ones_witness :
  exists out,
    corner_harris Image.spatial_gradient Image.gaussian_blur
      (PyTensor zero3) k004 = Ok out
    /\ get NaN out [0; 0; 1; 1] = Fin 1%Qc.
Proof.
  destruct (@corner_harris_without_response_is_all_ones
              Image.spatial_gradient Image.gaussian_blur k004 zero3
              1 1 3 3 image_gradient_contract image_blur_contract
              eq_refl eq_refl zero3_nonempty)
    as (raw & out & Hraw & Hout & Hall).
  exists out. split; [exact Hout|].
  apply (Hall 0 0); try lia.
  assert (Hr : raw = tabulate [1; 1; 3; 3] (fun _ => 0%Qc)).
  { assert (He : CornerHarris.response Image.spatial_gradient
                   Image.gaussian_blur (CornerHarris.init k004) zero3
                 = Ok (tabulate [1; 1; 3; 3] (fun _ => 0%Qc)))
      by (vm_compute; reflexivity).
    congruence. }
  intros i j Hi Hj. rewrite Hr, get_tabulate.
  - vm_compute. discriminate.
  - apply in_range_4. exists 0, 0, i, j. repeat split; lia.
Defined.

(** X14. The pipeline catches nothing: on a 4-d tensor, an exception raised
    by [spatial_gradient], or by [gaussian_blur] on the first product, is
    the exception [corner_harris] raises. *)
Theorem corner_harris_propagates_errors :
  forall (sg : tensor Qc -> result (tensor Qc))
         (gb : tensor Qc -> Z * Z -> Qc * Qc -> result (tensor Qc))
         (k : Qc) (x : tensor Qc) (e : exn),
    length (shape x) = 4 ->
    (sg x = Raise e -> corner_harris sg gb (PyTensor x) k = Raise e)
    /\ (forall g B C H W,
          sg x = Ok g -> shape g = [B; C; 2; H; W] ->
          gb (grad_product g 0 0) (3, 3)%Z (1, 1)%Qc = Raise e ->
          corner_harris sg gb (PyTensor x) k = Raise e).
Proof.
  intros sg gb k x e Hrank.
  unfold corner_harris, CornerHarris.forward, CornerHarris.response,
    CornerHarris.structure_tensor, CornerHarris.g.
  rewrite Hrank. cbn [Nat.eqb negb]. split.
  - intros Hsg. rewrite Hsg. reflexivity.
  - intros g B C H W Hsg Hsh Hgb. rewrite Hsg. cbn [bind].
    rewrite (@select2_selected g B C H W 0 Hsh) by lia. cbn [bind].
    rewrite (@select2_selected g B C H W 1 Hsh) by lia. cbn [bind].
    rewrite (@mul_selected g B C H W 0 0 Hsh). cbn [bind].
    rewrite Hgb. reflexivity.
Qed.

(** The theorem at a concrete input. *)
Lemma corner_harris_propagates_errors_witness :
  corner_harris failing_gradient Image.gaussian_blur (PyTensor square3) k004
  = Raise RuntimeError.
Proof.
  apply (@corner_harris_propagates_errors failing_gradient
           Image.gaussian_blur k004 square3 RuntimeError);
    reflexivity.
Defined.

(** X15. In binary32 a NaN does not spread through the suppressor: whenever
    it returns, a NaN entry stays a NaN, and every entry whose window
    contains a NaN comes out as the entry times [0.0]: a zero with the sign
    of the entry when the entry is finite, a NaN when it is an infinity or
    a NaN. *)
Theorem nms32_nan_zeroes_its_window :
  forall (ky kx : Z) (x y : tensor spec_float) (B C H W b c i j r s : nat),
    shape x = [B; C; H; W] ->
    F32.non_maxima_suppression2d x (KTuple [ky; kx]) = Ok y ->
    b < B -> c < C -> i < H -> j < W ->
    window_of H ky i r -> window_of W kx j s ->
    F32.is_nan (get F32.zero x [b; c; r; s]) = true ->
    let v := get F32.zero x [b; c; i; j] in
    get F32.zero y [b; c; r; s] = S754_nan
    /\ get F32.zero y [b; c; i; j] = SFmul F32.prec F32.emax v F32.zero
    /\ (F32.is_finite v = true ->
        get F32.zero y [b; c; i; j] = S754_zero (F32.sign_bit v))
    /\ (F32.is_finite v = false -> get F32.zero y [b; c; i; j] = S754_nan).
Proof.
  intros ky kx x y B C H W b c i j r s Hs Hy Hb Hc Hi Hj Hr Hc' Hnan v.
  destruct (@nms_returns_map32 ky kx x y B C H W Hs Hy) as [Hok ->].
  apply is_nan_true in Hnan.
  pose proof (@nms_ok_inv ky kx B C H W Hok) as (HfH & HfW & _).
  assert (Hv : get F32.zero (F32.nms_map ky kx x) [b; c; i; j]
               = SFmul F32.prec F32.emax v F32.zero).
  { rewrite (@get_nms_map32 ky kx x B C H W b c i j) by assumption.
    rewrite (@local_max_nan32 ky kx x B C H W b c i j r s) by assumption.
    unfold F32.keep. fold v. now rewrite SFeqb_nan_r. }
  split; [|split; [exact Hv|split]].
  - rewrite (@get_nms_map32 ky kx x B C H W b c r s Hs Hb Hc (proj1 Hr)
               (proj1 Hc')).
    rewrite Hnan. reflexivity.
  - intros Hf. rewrite Hv. now apply SFmul_zero_finite.
  - intros Hf. rewrite Hv. destruct v as [?|?| |? ? ?]; try discriminate;
      reflexivity.
Qed.

(** The theorem at a concrete input. *)
Lemma nms32_nan_zeroes_its_window_witness :
  exists y,
    F32.non_maxima_suppression2d F32.nan_row (KTuple [3; 3]%Z) = Ok y
    /\ get F32.zero y [0; 0; 0; 1] = S754_nan
    /\ get F32.zero y [0; 0; 0; 0] = S754_zero false
    /\ get F32.zero y [0; 0; 0; 2] = S754_zero true.
Proof.
  assert (Hy : F32.non_maxima_suppression2d F32.nan_row (KTuple [3; 3]%Z)
               = Ok (F32.nms_map 3 3 F32.nan_row))
    by (rewrite (@nms_unfold32 3 3 F32.nan_row 1 1 1 3); reflexivity).
  assert (Hw0 : window_of 1 3 0 0)
    by (unfold window_of, covers; vm_compute; repeat split; try lia;
        discriminate).
  assert (Hw01 : window_of 3 3 0 1)
    by (unfold window_of, covers; vm_compute; repeat split; try lia;
        discriminate).
  assert (Hw21 : window_of 3 3 2 1)
    by (unfold window_of, covers; vm_compute; repeat split; try lia;
        discriminate).
  exists (F32.nms_map 3 3 F32.nan_row). split; [exact Hy|].
  destruct (@nms32_nan_zeroes_its_window 3 3 F32.nan_row _ 1 1 1 3 0 0 0 0 0 1
              eq_refl Hy) as (Hnan & _ & H0 & _);
    try lia; try assumption; try reflexivity.
  destruct (@nms32_nan_zeroes_its_window 3 3 F32.nan_row _ 1 1 1 3 0 0 0 2 0 1
              eq_refl Hy) as (_ & _ & H2 & _);
    try lia; try assumption; try reflexivity.
  split; [exact Hnan|]. split; [apply H0; reflexivity|apply H2; reflexivity].
Defined.

(** X16. In binary32, on a 4-d map of finite numbers, whenever the
    suppressor returns its output has the shape of the input; an entry that
    is at least every entry under its window is returned bit for bit, and
    an entry below some entry under its window comes out as a zero with the
    sign bit of the entry ([-0.0] for a negative entry). *)
Theorem nms32_keeps_window_maxima_of_finite_maps :
  forall (ky kx : Z) (x y : tensor spec_float) (B C H W : nat),
    shape x = [B; C; H; W] ->
    F32.non_maxima_suppression2d x (KTuple [ky; kx]) = Ok y ->
    (forall b c i j, b < B -> c < C -> i < H -> j < W ->
       F32.finite32 (get F32.zero x [b; c; i; j]) = true) ->
    shape y = shape x
    /\ forall b c i j, b < B -> c < C -> i < H -> j < W ->
         let v := get F32.zero x [b; c; i; j] in
         let o := get F32.zero y [b; c; i; j] in
         (o = v \/ o = S754_zero (F32.sign_bit v))
         /\ ((forall r s, window_of H ky i r -> window_of W kx j s ->
                F32.le (get F32.zero x [b; c; r; s]) v) -> o = v)
         /\ ((exists r s, window_of H ky i r /\ window_of W kx j s
                          /\ F32.lt v (get F32.zero x [b; c; r; s]))
             -> o = S754_zero (F32.sign_bit v)).
Proof.
  intros ky kx x y B C H W Hs Hy Hfin.
  destruct (@nms_returns_map32 ky kx x y B C H W Hs Hy) as [Hok ->].
  split; [reflexivity|].
  intros b c i j Hb Hc Hi Hj.
  apply (@nms_map_entry_finite32 ky kx x B C H W b c i j); auto.
Qed.

(** The theorem at a concrete input. *)
Lemma nms32_keeps_window_maxima_of_finite_maps_witness :
  exists y,
    F32.non_maxima_suppression2d F32.negative_row (KTuple [3; 3]%Z) = Ok y
    /\ get F32.zero y [0; 0; 0; 0] = F32.of_Z (-1)
    /\ get F32.zero y [0; 0; 0; 1] = S754_zero true.
Proof.
  assert (Hy : F32.non_maxima_suppression2d F32.negative_row (KTuple [3; 3]%Z)
               = Ok (F32.nms_map 3 3 F32.negative_row))
    by (rewrite (@nms_unfold32 3 3 F32.negative_row 1 1 1 2); reflexivity).
  exists (F32.nms_map 3 3 F32.negative_row). split; [exact Hy|].
  destruct (@nms32_keeps_window_maxima_of_finite_maps 3 3 F32.negative_row _
              1 1 1 2 eq_refl Hy negative_row_finite32) as [_ Hall].
  destruct (Hall 0 0 0 0) as (_ & Hkeep & _); try lia.
  destruct (Hall 0 0 0 1) as (_ & _ & Hzero); try lia.
  split.
  - apply Hkeep. intros r s Hr Hs.
    assert (r = 0) by (destruct Hr; lia). subst r.
    destruct s as [|[|s]]; [reflexivity|reflexivity|destruct Hs; lia].
  - apply Hzero. exists 0, 0.
    split; [unfold window_of, covers; vm_compute; repeat split; try lia;
            discriminate|].
    split; [unfold window_of, covers; vm_compute; repeat split; try lia;
            discriminate|reflexivity].
Defined.
